(** * PeakRDL-ipxact: the IP-XACT exporter

    A shallow embedding of [src/peakrdl/ipxact/exporter.py] and the proofs
    of its specified behaviour.

    The exporter walks a compiled SystemRDL node tree and builds an XML
    document with [xml.dom.minidom].  The DOM is a mutable object graph:
    [add_addressBlock] appends an empty [width] element, renders the whole
    subtree, and only then appends the text of the width.  The embedding
    therefore keeps the DOM as a heap of nodes addressed by their creation
    index, and the exporter methods as computations over that heap in a
    state-and-exception monad. *)

From Stdlib Require Import ZArith HexadecimalString HexadecimalPos HexadecimalZ.
From stdpp Require Import base option list strings numbers pretty.

Set Warnings "-register-all".

Local Open Scope string_scope.
Local Open Scope list_scope.
Local Open Scope Z_scope.

(** ** Python values that reach the exporter through keyword arguments *)

Inductive pyval :=
| PNone
| PStr (s : string)
| PInt (z : Z).

Coercion PStr : string >-> pyval.

#[global] Instance pyval_eq_dec : EqDecision pyval.
Proof. solve_decision. Defined.

(** Truth value of a Python object, as used by [a or b]. *)
Definition truthy (v : pyval) : bool :=
  match v with
  | PNone => false
  | PStr s => negb (String.eqb s "")
  | PInt z => negb (z =? 0)
  end.

Definition py_or (a b : pyval) : pyval := if truthy a then a else b.

(** [isinstance(v, str)] *)
Definition is_str (v : pyval) : bool :=
  match v with PStr _ => true | _ => false end.

(** Keyword arguments: a dict keeps insertion order and has unique keys. *)
Definition kwargs := list (string * pyval).

Definition kw_get (k : string) (kw : kwargs) : option pyval :=
  snd <$> List.find (λ p, String.eqb (fst p) k) kw.

Definition kw_del (k : string) (kw : kwargs) : kwargs :=
  List.filter (λ p, negb (String.eqb (fst p) k)) kw.

(** [kwargs.pop(k, default)] *)
Definition pop (k : string) (default : pyval) (kw : kwargs) : pyval * kwargs :=
  match kw_get k kw with
  | Some v => (v, kw_del k kw)
  | None => (default, kw)
  end.

(** ** Number formatting: ["%d" % v] and ["%x" % v] *)

Definition fmt_d (v : Z) : string := pretty v.

Definition fmt_x (v : Z) : string :=
  HexadecimalString.NilZero.string_of_int (Z.to_hex_int v).

(** ** The SystemRDL node tree (the input collaborator)

    [systemrdl.node] is a dependency of the exporter; only the attributes
    the exporter reads are kept.  Every node has an instance name and the
    [name], [desc] and [ispresent] properties; addressable nodes add the
    address attributes; registers, memories and fields add their own. *)

Inductive AccessType := na | rw | r | w | rw1 | w1.
Inductive OnReadType := rclr | rset | ruser.
Inductive OnWriteType := woset | woclr | wot | wzs | wzc | wzt | wclr | wset | wuser.

Record Common := {
  inst_name : string;
  get_path : string;
  prop_name : option string;      (* get_property("name", default=None) *)
  prop_desc : option string;      (* get_property("desc") *)
  prop_ispresent : bool;          (* get_property("ispresent") *)
}.

(** [is_array], [array_dimensions] and [array_stride] travel together:
    the last two are [None] exactly when the node is not an array. *)
Record ArrayInfo := {
  array_dimensions : list Z;
  array_stride : Z;
}.

Record Addressable := {
  raw_address_offset : Z;
  absolute_address : Z;
  size : Z;
  array : option ArrayInfo;
}.

Record EnumValue := {
  ev_name : string;
  rdl_name : option string;
  rdl_desc : option string;
  ev_value : Z;
}.

Record FieldInfo := {
  low : Z;
  lsb : Z;
  width : Z;
  is_volatile : bool;
  prop_reset : option Z;              (* get_property("reset"), a number or None;
                                         a reset that refers to a signal or to
                                         a field is outside this model *)
  prop_sw : AccessType;               (* get_property("sw") *)
  prop_encode : option (list EnumValue);
  prop_onwrite : option OnWriteType;
  prop_onread : option OnReadType;
  prop_donttest : bool;
}.

Inductive NodeKind :=
| RootNode
| AddrmapNode (a : Addressable) (bridge : bool)
| RegfileNode (a : Addressable)
| MemNode (a : Addressable) (memwidth : Z) (sw : AccessType)
| RegNode (a : Addressable) (regwidth : Z)
| FieldNode (f : FieldInfo)
| SignalNode.

Inductive Node := mkNode {
  kind : NodeKind;
  common : Common;
  children : list Node;      (* children(skip_not_present=False) *)
}.

(** [type(node).__name__] *)
Definition type_name (n : Node) : string :=
  match kind n with
  | RootNode => "RootNode"
  | AddrmapNode _ _ => "AddrmapNode"
  | RegfileNode _ => "RegfileNode"
  | MemNode _ _ _ => "MemNode"
  | RegNode _ _ => "RegNode"
  | FieldNode _ => "FieldNode"
  | SignalNode => "SignalNode"
  end.

(** [isinstance] tests used by the exporter. *)
Definition is_RootNode (n : Node) : bool :=
  match kind n with RootNode => true | _ => false end.
Definition is_AddrmapNode (n : Node) : bool :=
  match kind n with AddrmapNode _ _ => true | _ => false end.
Definition is_MemNode (n : Node) : bool :=
  match kind n with MemNode _ _ _ => true | _ => false end.
Definition is_RegfileNode (n : Node) : bool :=
  match kind n with RegfileNode _ => true | _ => false end.
Definition is_RegNode (n : Node) : bool :=
  match kind n with RegNode _ _ => true | _ => false end.

(** The address attributes, present on [AddressableNode] subclasses only. *)
Definition addressable (n : Node) : option Addressable :=
  match kind n with
  | AddrmapNode a _ | RegfileNode a | MemNode a _ _ | RegNode a _ => Some a
  | _ => None
  end.

Definition is_AddressableNode (n : Node) : bool :=
  bool_decide (is_Some (addressable n)).

Definition is_array (a : Addressable) : bool :=
  bool_decide (is_Some (array a)).

(** [RegNode.fields(skip_not_present=False)]: the field children. *)
Definition fields (n : Node) : list (Common * FieldInfo) :=
  omap (λ c, match kind c with
             | FieldNode f => Some (common c, f)
             | _ => None
             end) (children n).

(** [RootNode.top]: the first addrmap child of the root. *)
Definition top (n : Node) : option Node :=
  List.find is_AddrmapNode (children n).

(** ** The XML DOM heap

    A node is identified by the index at which it was created.  [Document]
    and [Element] nodes hold the indices of their children in order. *)

Inductive DomNode :=
| Document (childNodes : list nat)
| Element (tagName : string) (attributes : list (string * string))
          (childNodes : list nat)
| Text (data : string)
| Comment (data : string).

Definition is_container (n : DomNode) : bool :=
  match n with Document _ | Element _ _ _ => true | _ => false end.

Definition add_kids (n : DomNode) (ks : list nat) : DomNode :=
  match n with
  | Document cs => Document (cs ++ ks)
  | Element t a cs => Element t a (cs ++ ks)
  | _ => n
  end.

(** [setAttribute]: a new attribute goes last, an existing one keeps its
    place and takes the new value. *)
Fixpoint attr_set (a : list (string * string)) (k v : string) :=
  match a with
  | [] => [(k, v)]
  | (k', v') :: a =>
      if String.eqb k' k then (k, v) :: a else (k', v') :: attr_set a k v
  end.

Definition set_attr (n : DomNode) (k v : string) : DomNode :=
  match n with
  | Element t a cs => Element t (attr_set a k v) cs
  | _ => n
  end.

(** The document as a tree, for what is handed to [writexml]. *)
Inductive xml :=
| XDocument (kids : list xml)
| XElement (tag : string) (attrs : list (string * string)) (kids : list xml)
| XText (data : string)
| XComment (data : string).

Fixpoint tree_of (fuel : nat) (h : list DomNode) (i : nat) : option xml :=
  match fuel with
  | O => None
  | S fuel =>
      match h !! i with
      | None => None
      | Some (Text s) => Some (XText s)
      | Some (Comment s) => Some (XComment s)
      | Some (Element t a cs) => XElement t a <$> mapM (tree_of fuel h) cs
      | Some (Document cs) => XDocument <$> mapM (tree_of fuel h) cs
      end
  end.

(** ** Messages, files and the exporter state *)

Inductive Message :=
| Warning (text : string)
| Fatal (text : string).

(** A file that [open(path, "w")] has created or emptied, and what
    [doc.writexml(f, addindent, newl, encoding)] was given to write into
    it.  [written] is the document when [writexml] has returned, and [None]
    when it has raised: the file then holds the beginning of the text
    only. *)
Record FileContent := {
  written : option xml;
  addindent : pyval;
  newl : pyval;
  encoding : string;
}.

Inductive exn :=
| TypeError (m : string)
| RuntimeError
| AttributeError
| HierarchyRequestErr
| OSError                            (* raised by [open] *)
| RDLCompileError (m : string).     (* raised by [msg.fatal] *)

(** The attributes of the exporter object that [__init__] sets once. *)
Record IPXACTExporter := {
  vendor : pyval;
  library : pyval;
  version : pyval;
  standard : Z;
  xml_indent : pyval;
  xml_newline : pyval;
  ns : string;
}.

(** The attributes that [export] mutates ([self.doc], [self._max_width]),
    the message sink [node.env.msg] and the file system. *)
Record State := {
  doc : list DomNode;
  _max_width : option Z;
  messages : list Message;
  files : list (string * FileContent);
}.

Definition set_doc (h : list DomNode) (s : State) : State :=
  {| doc := h; _max_width := _max_width s;
     messages := messages s; files := files s |}.
Definition set_max_width (m : option Z) (s : State) : State :=
  {| doc := doc s; _max_width := m;
     messages := messages s; files := files s |}.
Definition add_message (m : Message) (s : State) : State :=
  {| doc := doc s; _max_width := _max_width s;
     messages := messages s ++ [m]; files := files s |}.
Definition add_file (p : string) (c : FileContent) (s : State) : State :=
  {| doc := doc s; _max_width := _max_width s;
     messages := messages s; files := (p, c) :: files s |}.

(** ** The monad: state with exceptions *)

Inductive Result (A : Type) :=
| Ret (a : A) (s : State)
| Raise (e : exn) (s : State).
Arguments Ret {A} a s.
Arguments Raise {A} e s.

Definition M (A : Type) : Type := State → Result A.

#[global] Instance M_ret : MRet M := λ A a s, Ret a s.
#[global] Instance M_bind : MBind M := λ A B f m s,
  match m s with
  | Ret a s' => f a s'
  | Raise e s' => Raise e s'
  end.

Definition raise {A} (e : exn) : M A := λ s, Raise e s.
Definition gets {A} (f : State → A) : M A := λ s, Ret (f s) s.
Definition modify (f : State → State) : M unit := λ s, Ret tt (f s).
Definition when (b : bool) (m : M unit) : M unit := if b then m else mret tt.

(** [for x in l: body] *)
Definition for_ {A} (l : list A) (body : A → M unit) : M unit :=
  (fix go l := match l with
               | [] => mret tt
               | x :: l => body x;; go l
               end) l.

(** ** DOM operations ([xml.dom.minidom]) *)

Definition alloc (n : DomNode) : M nat :=
  λ s, Ret (length (doc s)) (set_doc (doc s ++ [n]) s).

(** [getDOMImplementation().createDocument(None, None, None)]: a new
    document; it is node 0 of a new heap. *)
Definition createDocument : M nat :=
  λ s, Ret 0%nat (set_doc [Document []] s).

Definition createElement (tag : string) : M nat := alloc (Element tag [] []).
Definition createComment (data : string) : M nat := alloc (Comment data).

(** [createTextNode] refuses anything that is not a [str]. *)
Definition createTextNode (data : pyval) : M nat :=
  match data with
  | PStr s => alloc (Text s)
  | _ => raise (TypeError "node contents must be a string")
  end.

(** [parent.appendChild(child)].  Every child the exporter appends has just
    been created, so the branch of minidom that first detaches the child
    from an earlier parent is never taken; text and comment nodes refuse
    children. *)
Definition appendChild (parent child : nat) : M unit :=
  λ s, match doc s !! parent with
       | Some n =>
           if is_container n
           then Ret tt (set_doc (<[parent := add_kids n [child]]> (doc s)) s)
           else Raise HierarchyRequestErr s
       | None => Raise HierarchyRequestErr s
       end.

Definition setAttribute (el : nat) (k v : string) : M unit :=
  λ s, match doc s !! el with
       | Some n => Ret tt (set_doc (<[el := set_attr n k v]> (doc s)) s)
       | None => Raise AttributeError s
       end.

Definition hasChildNodes (el : nat) : M bool :=
  λ s, match doc s !! el with
       | Some (Document cs) | Some (Element _ _ cs) =>
           Ret (negb (bool_decide (cs = []))) s
       | _ => Ret false s
       end.

(** [self.msg.warning(text, src_ref)] reports and returns;
    [self.msg.fatal(text, src_ref)] reports and raises. *)
Definition msg_warning (text : string) : M unit :=
  modify (add_message (Warning text)).
Definition msg_fatal (text : string) : M unit :=
  modify (add_message (Fatal text));; raise (RDLCompileError text).

(** ** Writing the file

    [doc.writexml(f, addindent=..., newl=..., encoding=...)] into the file
    that has been opened at [path].  The component that [export] builds has
    several children, so [writexml] writes the line break after its start
    tag and indents its children: a line break that is not a [str] makes
    [f.write] raise [TypeError], and with a line break that is a [str] an
    indentation that is not one makes [indent + addindent] raise it.  The
    file has been emptied by [open] and is left with what was written up to
    there. *)
Definition writexml_error (addindent newl : pyval) : option exn :=
  match newl, addindent with
  | PStr _, PStr _ => None
  | PStr _, _ => Some (TypeError "can only concatenate str to str")
  | _, _ => Some (TypeError "write() argument must be str")
  end.

Definition writexml (path : string) (d : nat) (addindent newl : pyval)
    (encoding : string) : M unit :=
  h ← gets doc;
  match writexml_error addindent newl with
  | None =>
      modify (add_file path {| written := tree_of (length h) h d;
                               addindent := addindent; newl := newl;
                               encoding := encoding |})
  | Some e =>
      modify (add_file path {| written := None;
                               addindent := addindent; newl := newl;
                               encoding := encoding |});;
      raise e
  end.

(** ** The exporter

    [typemaps] is a module of the package that maps SystemRDL enumerations
    to IP-XACT vocabulary; its three tables are parameters here.  So is
    the file system: [writable path] tells whether [open(path, "w")]
    succeeds. *)

Section Exporter.

Variable access_from_sw : AccessType → string.
Variable mwv_from_onwrite : OnWriteType → string.
Variable readaction_from_onread : OnReadType → string.
Variable writable : string → bool.

(** A lemma depends on the parameters its statement names, and on no
    other. *)
Set Default Proof Using "Type".

(** [open(path, "w", encoding='utf-8')]: raises [OSError] when the path
    cannot be opened for writing; otherwise the file is there and empty,
    which the state records when [writexml] ends. *)
Definition open_w (path : string) : M unit :=
  if writable path then mret tt else raise OSError.

Definition IEEE_1685_2009 : Z := 2009.
Definition IEEE_1685_2014 : Z := 2014.

Definition unexpected_kwarg (k : string) : exn :=
  TypeError ("got an unexpected keyword argument '" +:+ k +:+ "'").

(** [IPXACTExporter.__init__], given its keyword arguments.  [standard] is compared with an
    [IntEnum] member, which raises [TypeError] on [None] or a [str]. *)
Definition __init__ (kw : kwargs) : exn + IPXACTExporter :=
  let '(vendor, kw) := pop "vendor" (PStr "example.org") kw in
  let '(library, kw) := pop "library" (PStr "mylibrary") kw in
  let '(version, kw) := pop "version" (PStr "1.0") kw in
  let '(standard, kw) := pop "standard" (PInt IEEE_1685_2014) kw in
  let '(xml_indent, kw) := pop "xml_indent" (PStr "  ") kw in
  let '(xml_newline, kw) := pop "xml_newline" (PStr (String (Ascii.ascii_of_nat 10) "")) kw in
  match kw with
  | (k, _) :: _ => inl (unexpected_kwarg k)
  | [] =>
      match standard with
      | PInt std =>
          inr {| vendor := vendor; library := library; version := version;
                 standard := std;
                 xml_indent := xml_indent; xml_newline := xml_newline;
                 ns := if IEEE_1685_2014 <=? std then "ipxact:" else "spirit:" |}
      | _ => inl (TypeError "'>=' not supported")
      end
  end.

(** The state of a new exporter: [self.doc = None], [self._max_width = None].
    [export] replaces the document before it is used, so the empty heap
    stands for [None]. *)
Definition new_state (fs : list (string * FileContent)) : State :=
  {| doc := []; _max_width := None; messages := []; files := fs |}.

Section Methods.

Variable self : IPXACTExporter.

Definition add_value (parent : nat) (tag : string) (value : pyval) : M unit :=
  el ← createElement tag;
  txt ← createTextNode value;
  appendChild el txt;;
  appendChild parent el.

Definition add_nameGroup (parent : nat) (name : string)
    (displayName description : option string) : M unit :=
  add_value parent (ns self +:+ "name") name;;
  match displayName with
  | Some d => add_value parent (ns self +:+ "displayName") d
  | None => mret tt
  end;;
  match description with
  | Some d => add_value parent (ns self +:+ "description") d
  | None => mret tt
  end.

Definition hex_str (v : Z) : string :=
  if IEEE_1685_2014 <=? standard self
  then "'h" +:+ fmt_x v
  else "0x" +:+ fmt_x v.

Definition get_name (node : Node) : string := inst_name (common node).

(** The four extension hooks do nothing in this class. *)
Definition addressBlock_vendorExtensions (parent : nat) (node : Node) : M unit := mret tt.
Definition registerFile_vendorExtensions (parent : nat) (node : Node) : M unit := mret tt.
Definition register_vendorExtensions (parent : nat) (node : Node) : M unit := mret tt.
Definition field_vendorExtensions (parent : nat) (c : Common) (f : FieldInfo) : M unit := mret tt.

(** The [isPresent] marker shared by the four emitters. *)
Definition add_isPresent (el : nat) (c : Common) : M unit :=
  when ((IEEE_1685_2014 <=? standard self) && negb (prop_ispresent c))
       (add_value el (ns self +:+ "isPresent") "0").

Definition add_field (parent : nat) (c : Common) (node : FieldInfo) : M unit :=
  field ← createElement (ns self +:+ "field");
  appendChild parent field;;
  add_nameGroup field (inst_name c) (prop_name c) (prop_desc c);;
  add_isPresent field c;;
  add_value field (ns self +:+ "bitOffset") (fmt_d (low node));;
  when (IEEE_1685_2014 <=? standard self)
    match prop_reset node with
    | Some reset =>
        resets_el ← createElement (ns self +:+ "resets");
        appendChild field resets_el;;
        reset_el ← createElement (ns self +:+ "reset");
        appendChild resets_el reset_el;;
        add_value reset_el (ns self +:+ "value") (hex_str reset)
    | None => mret tt
    end;;
  add_value field (ns self +:+ "bitWidth") (fmt_d (width node));;
  when (is_volatile node) (add_value field (ns self +:+ "volatile") "true");;
  add_value field (ns self +:+ "access") (access_from_sw (prop_sw node));;
  match prop_encode node with
  | Some encode =>
      enum_values_el ← createElement (ns self +:+ "enumeratedValues");
      appendChild field enum_values_el;;
      for_ encode (λ enum_value,
        enum_value_el ← createElement (ns self +:+ "enumeratedValue");
        appendChild enum_values_el enum_value_el;;
        add_nameGroup enum_value_el (ev_name enum_value)
          (rdl_name enum_value) (rdl_desc enum_value);;
        add_value enum_value_el (ns self +:+ "value") (hex_str (ev_value enum_value)))
  | None => mret tt
  end;;
  match prop_onwrite node with
  | Some onwrite =>
      add_value field (ns self +:+ "modifiedWriteValue") (mwv_from_onwrite onwrite)
  | None => mret tt
  end;;
  match prop_onread node with
  | Some onread =>
      add_value field (ns self +:+ "readAction") (readaction_from_onread onread)
  | None => mret tt
  end;;
  when (prop_donttest node) (add_value field (ns self +:+ "testable") "false");;
  vendorExtensions ← createElement (ns self +:+ "vendorExtensions");
  field_vendorExtensions vendorExtensions c node;;
  b ← hasChildNodes vendorExtensions;
  when b (appendChild field vendorExtensions).

(** The aggregated reset of the 2009 dialect: the loop of [add_register]
    over the fields, on the pair [(reset, mask)]. *)
Definition reset_step (acc : Z * Z) (field : Common * FieldInfo) : Z * Z :=
  let '(reset, mask) := acc in
  match prop_reset (snd field) with
  | Some field_reset =>
      let field_mask := Z.shiftl (Z.shiftl 1 (width (snd field)) - 1) (lsb (snd field)) in
      let field_reset := Z.land (Z.shiftl field_reset (lsb (snd field))) field_mask in
      (Z.lor reset field_reset, Z.lor mask field_mask)
  | None => (reset, mask)
  end.

Definition reset_and_mask (fs : list (Common * FieldInfo)) : Z * Z :=
  fold_left reset_step fs (0, 0).

Definition stride_msg : string :=
  "IP-XACT does not support register arrays whose stride is larger then the register's size".

(** [add_register].  [node.array_stride != regwidth / 8] compares an [int]
    with the quotient of a true division; Python compares the two exactly,
    so they differ exactly when [8 * array_stride] differs from [regwidth]. *)
Definition add_register (parent : nat) (node : Node) : M unit :=
  register ← createElement (ns self +:+ "register");
  appendChild parent register;;
  add_nameGroup register (get_name node)
    (prop_name (common node)) (prop_desc (common node));;
  add_isPresent register (common node);;
  match kind node with
  | RegNode a regwidth =>
      match array a with
      | Some arr =>
          when (negb (8 * array_stride arr =? regwidth)) (msg_fatal stride_msg);;
          for_ (array_dimensions arr) (λ dim,
            add_value register (ns self +:+ "dim") (fmt_d dim))
      | None => mret tt
      end;;
      add_value register (ns self +:+ "addressOffset") (hex_str (raw_address_offset a));;
      add_value register (ns self +:+ "size") (fmt_d regwidth);;
      mw ← gets _max_width;
      modify (set_max_width
                (match mw with
                 | None => Some regwidth
                 | Some m => Some (Z.max regwidth m)
                 end));;
      when (standard self <=? IEEE_1685_2009)
        (let '(reset, mask) := reset_and_mask (fields node) in
         when (negb (mask =? 0))
           (reset_el ← createElement (ns self +:+ "reset");
            appendChild register reset_el;;
            add_value reset_el (ns self +:+ "value") (hex_str reset);;
            add_value reset_el (ns self +:+ "mask") (hex_str mask)));;
      for_ (fields node) (λ field, add_field register (fst field) (snd field));;
      vendorExtensions ← createElement (ns self +:+ "vendorExtensions");
      register_vendorExtensions vendorExtensions node;;
      b ← hasChildNodes vendorExtensions;
      when b (appendChild register vendorExtensions)
  | _ => raise AttributeError
  end.

Definition mem_msg (child : Node) : string :=
  "IP-XACT does not support 'mem' nodes that are nested in hierarchy. Discarding '"
  +:+ get_path (common child) +:+ "'".

(** [add_registerData], with its call of [add_registerFile] left open. *)
Definition add_registerData_ (add_registerFile : nat → Node → M unit)
    (parent : nat) (node : Node) : M unit :=
  if standard self =? IEEE_1685_2014 then
    for_ (children node) (λ child,
      if is_RegNode child then add_register parent child
      else if is_AddrmapNode child || is_RegfileNode child
      then add_registerFile parent child
      else if is_MemNode child then msg_warning (mem_msg child)
      else mret tt)
  else if standard self =? IEEE_1685_2009 then
    for_ (children node) (λ child,
      if is_RegNode child then add_register parent child else mret tt);;
    for_ (children node) (λ child,
      if is_AddrmapNode child || is_RegfileNode child
      then add_registerFile parent child
      else if is_MemNode child then msg_warning (mem_msg child)
      else mret tt)
  else raise RuntimeError.

Fixpoint add_registerFile (parent : nat) (node : Node) {struct node} : M unit :=
  registerFile ← createElement (ns self +:+ "registerFile");
  appendChild parent registerFile;;
  add_nameGroup registerFile (get_name node)
    (prop_name (common node)) (prop_desc (common node));;
  add_isPresent registerFile (common node);;
  match addressable node with
  | Some a =>
      match array a with
      | Some arr =>
          for_ (array_dimensions arr) (λ dim,
            add_value registerFile (ns self +:+ "dim") (fmt_d dim))
      | None => mret tt
      end;;
      add_value registerFile (ns self +:+ "addressOffset")
        (hex_str (raw_address_offset a));;
      match array a with
      | Some arr =>
          add_value registerFile (ns self +:+ "range") (hex_str (array_stride arr))
      | None =>
          add_value registerFile (ns self +:+ "range") (hex_str (size a))
      end;;
      add_registerData_ add_registerFile registerFile node;;
      vendorExtensions ← createElement (ns self +:+ "vendorExtensions");
      registerFile_vendorExtensions vendorExtensions node;;
      b ← hasChildNodes vendorExtensions;
      when b (appendChild registerFile vendorExtensions)
  | None => raise AttributeError
  end.

Definition add_registerData : nat → Node → M unit :=
  add_registerData_ add_registerFile.

Definition add_addressBlock (parent : nat) (node : Node) : M unit :=
  modify (set_max_width None);;
  addressBlock ← createElement (ns self +:+ "addressBlock");
  appendChild parent addressBlock;;
  add_nameGroup addressBlock (get_name node)
    (prop_name (common node)) (prop_desc (common node));;
  add_isPresent addressBlock (common node);;
  match addressable node with
  | Some a =>
      add_value addressBlock (ns self +:+ "baseAddress") (hex_str (absolute_address a));;
      add_value addressBlock (ns self +:+ "range") (hex_str (size a));;
      (* the width element is inserted empty and filled below *)
      width_el ← createElement (ns self +:+ "width");
      appendChild addressBlock width_el;;
      match kind node with
      | MemNode _ _ sw =>
          add_value addressBlock (ns self +:+ "usage") "memory";;
          add_value addressBlock (ns self +:+ "access") (access_from_sw sw)
      | _ => mret tt
      end;;
      add_registerData addressBlock node;;
      mw ← gets _max_width;
      match kind node, mw with
      | MemNode _ memwidth _, None => modify (set_max_width (Some memwidth))
      | _, _ => mret tt
      end;;
      mw ← gets _max_width;
      match mw with
      | Some m => txt ← createTextNode (fmt_d m); appendChild width_el txt
      | None => txt ← createTextNode "32"; appendChild width_el txt
      end;;
      vendorExtensions ← createElement (ns self +:+ "vendorExtensions");
      addressBlock_vendorExtensions vendorExtensions node;;
      b ← hasChildNodes vendorExtensions;
      when b (appendChild addressBlock vendorExtensions)
  | None => raise AttributeError
  end.

Definition generator_comment : string :=
  "Generated by PeakRDL IP-XACT (https://github.com/SystemRDL/PeakRDL-ipxact)".

Definition bridge_msg : string :=
  "IP-XACT generator does not have proper support for bridge addmaps yet. The 'bridge' property will be ignored.".

Definition has_bridge (node : Node) : bool :=
  match kind node with AddrmapNode _ b => b | _ => false end.

(** The two counters of the explode decision, after the loop over the
    children of the top node. *)
Definition count_children (node : Node) : Z * Z :=
  fold_left (λ '(addrblockable_children, non_addrblockable_children) child,
    match addressable child with
    | None => (addrblockable_children, non_addrblockable_children)
    | Some a =>
        if (is_AddrmapNode child || is_MemNode child) && negb (is_array a)
        then (addrblockable_children + 1, non_addrblockable_children)
        else (addrblockable_children, non_addrblockable_children + 1)
    end) (children node) (0, 0).

Definition explode (node : Node) : bool :=
  is_AddrmapNode node &&
  (let '(addrblockable_children, non_addrblockable_children) := count_children node in
   (non_addrblockable_children =? 0) && (1 <=? addrblockable_children)).

(** [export(node, path, **kwargs)]; the file is opened and written only
    after the whole document has been built, and both steps can fail. *)
Definition export (node : Node) (path : string) (kw : kwargs) : M unit :=
  let '(component_name, kw) := pop "component_name" PNone kw in
  match kw with
  | (k, _) :: _ => raise (unexpected_kwarg k)
  | [] =>
      node ← (if is_RootNode node
              then match top node with
                   | Some t => mret t
                   | None => raise RuntimeError
                   end
              else mret node);
      if negb (is_AddrmapNode node || is_MemNode node)
      then raise (TypeError ("'node' argument expects type AddrmapNode or MemNode. Got '"
                             +:+ type_name node +:+ "'"))
      else
        when (is_AddrmapNode node && has_bridge node) (msg_warning bridge_msg);;
        d ← createDocument;
        tmp ← createComment generator_comment;
        appendChild d tmp;;
        comp ← createElement (ns self +:+ "component");
        (if standard self =? IEEE_1685_2014 then
           setAttribute comp "xmlns:ipxact" "http://www.accellera.org/XMLSchema/IPXACT/1685-2014";;
           setAttribute comp "xmlns:xsi" "http://www.w3.org/2001/XMLSchema-instance";;
           setAttribute comp "xsi:schemaLocation" "http://www.accellera.org/XMLSchema/IPXACT/1685-2014 http://www.accellera.org/XMLSchema/IPXACT/1685-2014/index.xsd"
         else if standard self =? IEEE_1685_2009 then
           setAttribute comp "xmlns:spirit" "http://www.spiritconsortium.org/XMLSchema/SPIRIT/1685-2009";;
           setAttribute comp "xmlns:xsi" "http://www.w3.org/2001/XMLSchema-instance";;
           setAttribute comp "xsi:schemaLocation" "http://www.spiritconsortium.org/XMLSchema/SPIRIT/1685-2009 http://www.spiritconsortium.org/XMLSchema/SPIRIT/1685-2009/index.xsd"
         else raise RuntimeError);;
        appendChild d comp;;
        add_value comp (ns self +:+ "vendor") (vendor self);;
        add_value comp (ns self +:+ "library") (library self);;
        add_value comp (ns self +:+ "name") (py_or component_name (inst_name (common node)));;
        add_value comp (ns self +:+ "version") (version self);;
        mmaps ← createElement (ns self +:+ "memoryMaps");
        appendChild comp mmaps;;
        (if explode node then
           mmap ← createElement (ns self +:+ "memoryMap");
           add_nameGroup mmap (inst_name (common node))
             (prop_name (common node)) (prop_desc (common node));;
           appendChild mmaps mmap;;
           for_ (children node) (λ child,
             if negb (is_AddressableNode child) then mret tt
             else add_addressBlock mmap child)
         else
           mmap ← createElement (ns self +:+ "memoryMap");
           add_nameGroup mmap (inst_name (common node)) None None;;
           appendChild mmaps mmap;;
           add_addressBlock mmap node);;
        open_w path;;
        writexml path d (xml_indent self) (xml_newline self) "UTF-8"
  end.

End Methods.

(** ** What a heap node stands for

    [repr h lo i t]: node [i] of heap [h] is the root of the tree [t], it
    is not older than [lo], and every node below it is younger than its
    parent.  Creation indices are time stamps, so such a tree cannot be
    changed by writes to nodes older than [lo]. *)

Inductive repr (h : list DomNode) : nat → nat → xml → Prop :=
| repr_text lo i s :
    (lo ≤ i)%nat → h !! i = Some (Text s) → repr h lo i (XText s)
| repr_comment lo i s :
    (lo ≤ i)%nat → h !! i = Some (Comment s) → repr h lo i (XComment s)
| repr_element lo i tag attrs cs ts :
    (lo ≤ i)%nat → h !! i = Some (Element tag attrs cs) →
    Forall2 (repr h (S i)) cs ts →
    repr h lo i (XElement tag attrs ts)
| repr_document lo i cs ts :
    (lo ≤ i)%nat → h !! i = Some (Document cs) →
    Forall2 (repr h (S i)) cs ts →
    repr h lo i (XDocument ts).

(** ** What a method does to the document

    A method that is given a parent element either fails, leaving the
    files alone, or appends some children to the parent, creates nodes,
    and leaves every other existing node as it was. *)

Inductive Outcome :=
| Built (ts : list xml) (g : option Z → option Z) (ms : list Message)
| Failed (e : exn).

Definition skip : Outcome := Built [] id [].
Definition built (ts : list xml) : Outcome := Built ts id [].

Definition seq (o1 o2 : Outcome) : Outcome :=
  match o1, o2 with
  | Built ts1 g1 ms1, Built ts2 g2 ms2 =>
      Built (ts1 ++ ts2) (λ mw, g2 (g1 mw)) (ms1 ++ ms2)
  | Built _ _ _, Failed e => Failed e
  | Failed e, _ => Failed e
  end.

Definition seqs (os : list Outcome) : Outcome := foldr seq skip os.

(** The children go into a new element [tag], which is the one child
    appended to the parent. *)
Definition wrap (tag : string) (o : Outcome) : Outcome :=
  match o with
  | Built ts g ms => Built [XElement tag [] ts] g ms
  | Failed e => Failed e
  end.

Definition out_width (o : Outcome) (mw : option Z) : option Z :=
  match o with Built _ g _ => g mw | Failed _ => mw end.

Record Post (s : State) (p : nat) (n : DomNode) (ks : list nat)
    (ts : list xml) (g : option Z → option Z) (ms : list Message)
    (s' : State) : Prop := {
  post_length : (length (doc s) ≤ length (doc s'))%nat;
  post_parent : doc s' !! p = Some (add_kids n ks);
  post_frame : ∀ j, (j < length (doc s))%nat → j ≠ p → doc s' !! j = doc s !! j;
  post_kids : Forall2 (repr (doc s') (length (doc s))) ks ts;
  post_width : _max_width s' = g (_max_width s);
  post_messages : messages s' = messages s ++ ms;
  post_files : files s' = files s;
}.

Definition Spec (m : M unit) (p : nat) (o : Outcome) : Prop :=
  ∀ s n, doc s !! p = Some n → is_container n →
    match o with
    | Built ts g ms => ∃ s' ks, m s = Ret tt s' ∧ Post s p n ks ts g ms s'
    | Failed e => ∃ s', m s = Raise e s' ∧ files s' = files s
    end.

(** The same for the states whose running maximum is [mw0]: what
    [add_addressBlock] builds after it has reset the maximum depends on it. *)
Definition SpecAt (mw0 : option Z) (m : M unit) (p : nat) (o : Outcome) : Prop :=
  ∀ s n, _max_width s = mw0 → doc s !! p = Some n → is_container n →
    match o with
    | Built ts g ms => ∃ s' ks, m s = Ret tt s' ∧ Post s p n ks ts g ms s'
    | Failed e => ∃ s', m s = Raise e s' ∧ files s' = files s
    end.

(** ** The document each method builds *)

Section Denotation.

Variable self : IPXACTExporter.

Definition value_xml (tag : string) (value : string) : xml :=
  XElement (ns self +:+ tag) [] [XText value].

Definition nameGroup_xml (name : string) (displayName description : option string)
    : list xml :=
  [value_xml "name" name]
  ++ match displayName with Some d => [value_xml "displayName" d] | None => [] end
  ++ match description with Some d => [value_xml "description" d] | None => [] end.

Definition isPresent_xml (c : Common) : list xml :=
  if (IEEE_1685_2014 <=? standard self) && negb (prop_ispresent c)
  then [value_xml "isPresent" "0"] else [].

Definition enumeratedValue_xml (ev : EnumValue) : xml :=
  XElement (ns self +:+ "enumeratedValue") []
    (nameGroup_xml (ev_name ev) (rdl_name ev) (rdl_desc ev)
     ++ [value_xml "value" (hex_str self (ev_value ev))]).

Definition field_reset_xml (f : FieldInfo) : list xml :=
  if IEEE_1685_2014 <=? standard self then
    match prop_reset f with
    | Some reset =>
        [XElement (ns self +:+ "resets") []
           [XElement (ns self +:+ "reset") []
              [value_xml "value" (hex_str self reset)]]]
    | None => []
    end
  else [].

(** What follows the reset in a field. *)
Definition field_tail_xml (f : FieldInfo) : list xml :=
  [value_xml "bitWidth" (fmt_d (width f))]
  ++ (if is_volatile f then [value_xml "volatile" "true"] else [])
  ++ [value_xml "access" (access_from_sw (prop_sw f))]
  ++ match prop_encode f with
     | Some encode =>
         [XElement (ns self +:+ "enumeratedValues") []
            (map enumeratedValue_xml encode)]
     | None => []
     end
  ++ match prop_onwrite f with
     | Some onwrite => [value_xml "modifiedWriteValue" (mwv_from_onwrite onwrite)]
     | None => []
     end
  ++ match prop_onread f with
     | Some onread => [value_xml "readAction" (readaction_from_onread onread)]
     | None => []
     end
  ++ (if prop_donttest f then [value_xml "testable" "false"] else []).

Definition field_xml (c : Common) (f : FieldInfo) : xml :=
  XElement (ns self +:+ "field") []
    (nameGroup_xml (inst_name c) (prop_name c) (prop_desc c)
     ++ isPresent_xml c
     ++ [value_xml "bitOffset" (fmt_d (low f))]
     ++ field_reset_xml f
     ++ field_tail_xml f).

(** The register-level reset of the 2009 dialect. *)
Definition register_reset_xml (fs : list (Common * FieldInfo)) : list xml :=
  if standard self <=? IEEE_1685_2009 then
    let '(reset, mask) := reset_and_mask fs in
    if negb (mask =? 0)
    then [XElement (ns self +:+ "reset") []
            [value_xml "value" (hex_str self reset);
             value_xml "mask" (hex_str self mask)]]
    else []
  else [].

Definition dims_xml (a : Addressable) : list xml :=
  match array a with
  | Some arr => map (λ dim, value_xml "dim" (fmt_d dim)) (array_dimensions arr)
  | None => []
  end.

(** The update of the running maximum by one register. *)
Definition widen (regwidth : Z) (mw : option Z) : option Z :=
  match mw with
  | None => Some regwidth
  | Some m => Some (Z.max regwidth m)
  end.

(** The stride test of an arrayed register. *)
Definition stride_ok (a : Addressable) (regwidth : Z) : bool :=
  match array a with
  | Some arr => 8 * array_stride arr =? regwidth
  | None => true
  end.

Definition register_out (node : Node) : Outcome :=
  match kind node with
  | RegNode a regwidth =>
      if stride_ok a regwidth then
        Built [XElement (ns self +:+ "register") []
                 (nameGroup_xml (get_name node)
                    (prop_name (common node)) (prop_desc (common node))
                  ++ isPresent_xml (common node)
                  ++ dims_xml a
                  ++ [value_xml "addressOffset" (hex_str self (raw_address_offset a));
                      value_xml "size" (fmt_d regwidth)]
                  ++ register_reset_xml (fields node)
                  ++ map (λ f, field_xml (fst f) (snd f)) (fields node))]
              (widen regwidth) []
      else Failed (RDLCompileError stride_msg)
  | _ => Failed AttributeError
  end.

(** One child of a container, as [add_registerData] treats it in its
    single pass (2014) and in its two passes (2009). *)
Definition child_out (registerFile_out : Node → Outcome) (child : Node) : Outcome :=
  if is_RegNode child then register_out child
  else if is_AddrmapNode child || is_RegfileNode child then registerFile_out child
  else if is_MemNode child then Built [] id [Warning (mem_msg child)]
  else skip.

Definition child_reg_out (child : Node) : Outcome :=
  if is_RegNode child then register_out child else skip.

Definition child_group_out (registerFile_out : Node → Outcome) (child : Node) : Outcome :=
  if is_AddrmapNode child || is_RegfileNode child then registerFile_out child
  else if is_MemNode child then Built [] id [Warning (mem_msg child)]
  else skip.

Definition registerData_out_ (registerFile_out : Node → Outcome) (node : Node)
    : Outcome :=
  if standard self =? IEEE_1685_2014 then
    seqs (map (child_out registerFile_out) (children node))
  else if standard self =? IEEE_1685_2009 then
    seq (seqs (map child_reg_out (children node)))
        (seqs (map (child_group_out registerFile_out) (children node)))
  else Failed RuntimeError.

Fixpoint registerFile_out (node : Node) {struct node} : Outcome :=
  match addressable node with
  | Some a =>
      wrap (ns self +:+ "registerFile")
        (seq (built
                (nameGroup_xml (get_name node)
                   (prop_name (common node)) (prop_desc (common node))
                 ++ isPresent_xml (common node)
                 ++ dims_xml a
                 ++ [value_xml "addressOffset" (hex_str self (raw_address_offset a));
                     value_xml "range"
                       (hex_str self
                          (match array a with
                           | Some arr => array_stride arr
                           | None => size a
                           end))]))
             (registerData_out_ registerFile_out node))
  | None => Failed AttributeError
  end.

Definition registerData_out : Node → Outcome := registerData_out_ registerFile_out.

(** The width an address block ends with. *)
Definition resolved_width (node : Node) (mw : option Z) : Z :=
  match mw with
  | Some m => m
  | None => match kind node with
            | MemNode _ memwidth _ => memwidth
            | _ => 32
            end
  end.

Definition final_max_width (node : Node) (mw : option Z) : option Z :=
  match mw with
  | Some m => Some m
  | None => match kind node with
            | MemNode _ memwidth _ => Some memwidth
            | _ => None
            end
  end.

(** What a memory adds to its address block. *)
Definition usage_xml (node : Node) : list xml :=
  match kind node with
  | MemNode _ _ sw =>
      [value_xml "usage" "memory"; value_xml "access" (access_from_sw sw)]
  | _ => []
  end.

Definition addressBlock_out (node : Node) : Outcome :=
  match addressable node with
  | Some a =>
      match registerData_out node with
      | Built ts g ms =>
          Built [XElement (ns self +:+ "addressBlock") []
                   (nameGroup_xml (get_name node)
                      (prop_name (common node)) (prop_desc (common node))
                    ++ isPresent_xml (common node)
                    ++ [value_xml "baseAddress" (hex_str self (absolute_address a));
                        value_xml "range" (hex_str self (size a));
                        value_xml "width" (fmt_d (resolved_width node (g None)))]
                    ++ usage_xml node
                    ++ ts)]
                (λ _, final_max_width node (g None)) ms
      | Failed e => Failed e
      end
  | None => Failed AttributeError
  end.

(** A value that came in as a keyword argument need not be a string. *)
Definition value_out (tag : string) (value : pyval) : Outcome :=
  match value with
  | PStr v => built [value_xml tag v]
  | _ => Failed (TypeError "node contents must be a string")
  end.

(** One address block for each addressable child of an exploded top node. *)
Definition exploded_out (node : Node) : Outcome :=
  seqs (map (λ child, if negb (is_AddressableNode child) then skip
                      else addressBlock_out child) (children node)).

Definition memoryMap_out (node : Node) : Outcome :=
  wrap (ns self +:+ "memoryMap")
    (if explode node then
       seq (built (nameGroup_xml (inst_name (common node))
                     (prop_name (common node)) (prop_desc (common node))))
           (exploded_out node)
     else
       seq (built (nameGroup_xml (inst_name (common node)) None None))
           (addressBlock_out node)).

Definition component_out (node : Node) (component_name : pyval) : Outcome :=
  seq (value_out "vendor" (vendor self))
 (seq (value_out "library" (library self))
 (seq (value_out "name" (py_or component_name (inst_name (common node))))
 (seq (value_out "version" (version self))
      (wrap (ns self +:+ "memoryMaps") (memoryMap_out node))))).

Definition component_attrs : list (string * string) :=
  if standard self =? IEEE_1685_2014 then
    [("xmlns:ipxact", "http://www.accellera.org/XMLSchema/IPXACT/1685-2014");
     ("xmlns:xsi", "http://www.w3.org/2001/XMLSchema-instance");
     ("xsi:schemaLocation", "http://www.accellera.org/XMLSchema/IPXACT/1685-2014 http://www.accellera.org/XMLSchema/IPXACT/1685-2014/index.xsd")]
  else
    [("xmlns:spirit", "http://www.spiritconsortium.org/XMLSchema/SPIRIT/1685-2009");
     ("xmlns:xsi", "http://www.w3.org/2001/XMLSchema-instance");
     ("xsi:schemaLocation", "http://www.spiritconsortium.org/XMLSchema/SPIRIT/1685-2009 http://www.spiritconsortium.org/XMLSchema/SPIRIT/1685-2009/index.xsd")].

Definition document_xml (kids : list xml) : xml :=
  XDocument [XComment generator_comment;
             XElement (ns self +:+ "component") component_attrs kids].

(** The node [export] works on: the top addrmap of a root, or the node. *)
Definition export_top (node : Node) : option Node :=
  if is_RootNode node then top node else Some node.

Definition bridge_warning (node : Node) : list Message :=
  if is_AddrmapNode node && has_bridge node then [Warning bridge_msg] else [].

Definition known_standard : Prop :=
  standard self = IEEE_1685_2009 ∨ standard self = IEEE_1685_2014.

End Denotation.

(** ** Vocabulary of the specification *)

(** The tag of an element, and the children of an element with a tag. *)
Definition has_tag (tag : string) (t : xml) : bool :=
  match t with
  | XElement tag' _ _ => String.eqb tag' tag
  | _ => false
  end.

Definition kids_of (t : xml) : list xml :=
  match t with
  | XElement _ _ kids | XDocument kids => kids
  | _ => []
  end.

Definition kids_with (tag : string) (t : xml) : list xml :=
  List.filter (has_tag tag) (kids_of t).

(** The registers rendered beneath a node, in source order: the register
    children, and the registers beneath the addrmap and regfile children.
    A mem child is dropped, and with it what it contains. *)
Fixpoint registers_beneath (node : Node) {struct node} : list Node :=
  flat_map (λ child,
    if is_RegNode child then [child]
    else if is_AddrmapNode child || is_RegfileNode child
    then registers_beneath child
    else []) (children node).

Definition regwidth_of (node : Node) : Z :=
  match kind node with RegNode _ regwidth => regwidth | _ => 0 end.

(** An arrayed register can be rendered when its stride is its size in
    bytes. *)
Definition register_ok (node : Node) : bool :=
  match kind node with
  | RegNode a regwidth =>
      match array a with
      | Some arr => 8 * array_stride arr =? regwidth
      | None => true
      end
  | _ => true
  end.

(** The maximum of a list of widths; [None] for no width at all. *)
Definition opt_max (a b : option Z) : option Z :=
  match a, b with
  | Some x, Some y => Some (Z.max x y)
  | Some x, None => Some x
  | None, b => b
  end.

Definition max_width_of (ws : list Z) : option Z :=
  foldr (λ w acc, opt_max (Some w) acc) None ws.

(** The width of an address block, in the words of the specification:
    the widest register beneath it, else the memory's word width, else 32. *)
Definition block_width (node : Node) : Z :=
  match max_width_of (map regwidth_of (registers_beneath node)) with
  | Some m => m
  | None => match kind node with
            | MemNode _ memwidth _ => memwidth
            | _ => 32
            end
  end.

(** The explode decision, in the words of the specification: the top node
    is an addrmap, each of its addressable children is an addrmap or a mem
    and is not an array, and there is such a child. *)
Definition addressable_children (node : Node) : list Node :=
  List.filter is_AddressableNode (children node).

Definition is_array_node (node : Node) : bool :=
  match addressable node with Some a => is_array a | None => false end.

Definition spec_explode (node : Node) : bool :=
  is_AddrmapNode node
  && forallb (λ child, (is_AddrmapNode child || is_MemNode child)
                       && negb (is_array_node child))
       (addressable_children node)
  && match addressable_children node with [] => false | _ :: _ => true end.

(** The registers a whole export renders. *)
Definition rendered_registers (node : Node) : list Node :=
  if explode node
  then flat_map registers_beneath (addressable_children node)
  else registers_beneath node.

(** The aggregated reset, in the words of the specification: the OR over
    the fields that declare a reset. *)
Definition field_mask (f : FieldInfo) : Z :=
  Z.shiftl (Z.shiftl 1 (width f) - 1) (lsb f).

Definition spec_reset (fs : list (Common * FieldInfo)) : Z :=
  foldr Z.lor 0
    (omap (λ f, match prop_reset (snd f) with
                | Some reset => Some (Z.land (Z.shiftl reset (lsb (snd f)))
                                             (field_mask (snd f)))
                | None => None
                end) fs).

Definition spec_mask (fs : list (Common * FieldInfo)) : Z :=
  foldr Z.lor 0
    (omap (λ f, match prop_reset (snd f) with
                | Some _ => Some (field_mask (snd f))
                | None => None
                end) fs).

(** The keys the constructor accepts. *)
Definition init_keys : list string :=
  ["vendor"; "library"; "version"; "standard"; "xml_indent"; "xml_newline"].

(** What an outcome says about the registers it rendered: it is built
    exactly when all of them can be rendered, and then it widens the running
    maximum by their widest; it fails with the stride error only. *)
Definition summary (o : Outcome) (ok : bool) (W : option Z) : Prop :=
  match o with
  | Built _ g _ => ok = true ∧ ∀ mw, g mw = opt_max W mw
  | Failed e => ok = false ∧ e = RDLCompileError stride_msg
  end.

Definition max_over {A} (W : A → option Z) (l : list A) : option Z :=
  foldr (λ x acc, opt_max (W x) acc) None l.

(** Every tree of [ts] is an element whose tag is the namespace prefix
    followed by one of the names [L]. *)
Definition tagged (prefix : string) (L : list string) (ts : list xml) : Prop :=
  Forall (λ t, ∃ nm, nm ∈ L ∧ has_tag (prefix +:+ nm) t) ts.

(** [emits m tag P]: given any parent element, [m] returns, and all it has
    done to the nodes that existed is to append to the parent one new
    element [tag], whose children satisfy [P]. *)
Definition emits (m : nat → M unit) (tag : string) (P : list xml → Prop) : Prop :=
  ∀ p s n, doc s !! p = Some n → is_container n →
    ∃ s' k kids,
      m p s = Ret tt s' ∧
      doc s' !! p = Some (add_kids n [k]) ∧
      (∀ j, (j < length (doc s))%nat → j ≠ p → doc s' !! j = doc s !! j) ∧
      repr (doc s') (length (doc s)) k (XElement tag [] kids) ∧
      files s' = files s ∧
      P kids.

(** An outcome that is built when [ok], and fails with the stride error
    otherwise. *)
Definition verdict (o : Outcome) (ok : bool) : Prop :=
  match o with
  | Built _ _ _ => ok = true
  | Failed e => ok = false ∧ e = RDLCompileError stride_msg
  end.

(** The identifiers that become text of the component are strings. *)
Definition config_is_text (self : IPXACTExporter) (component_name : pyval) : bool :=
  is_str (vendor self) && is_str (library self) && is_str (version self)
  && (is_str component_name || negb (truthy component_name)).

(** [drops w o o']: the two outcomes build the same trees and widen the
    maximum alike, or fail alike; the first one also reports [w]. *)
Definition drops (w : Message) (o o' : Outcome) : Prop :=
  match o, o' with
  | Built ts g ms, Built ts' g' ms' => ts = ts' ∧ (∀ mw, g mw = g' mw) ∧ w ∈ ms
  | Failed e, Failed e' => e = e'
  | _, _ => False
  end.

(** A child that can become an address block of its own. *)
Definition addrblockable (child : Node) : bool :=
  (is_AddrmapNode child || is_MemNode child) && negb (is_array_node child).

(** [t] is an address block that bears the name of [node]. *)
Definition block_of (self : IPXACTExporter) (node : Node) (t : xml) : Prop :=
  ∃ rest,
    t = XElement (ns self +:+ "addressBlock") []
          (XElement (ns self +:+ "name") [] [XText (inst_name (common node))]
           :: rest).

(** ** Example inputs

    A small register map, used to run the methods: a register A with the
    two fields of the reset example, a register file B holding a register,
    a register C, an arrayed register whose stride is its size and one
    whose stride is not, and a memory. *)

Definition example_access_from_sw (sw : AccessType) : string :=
  match sw with
  | r => "read-only"
  | w | w1 => "write-only"
  | rw | rw1 => "read-write"
  | na => "read-write"
  end.

Definition example_mwv_from_onwrite (onwrite : OnWriteType) : string :=
  match onwrite with
  | woset => "oneToSet" | woclr => "oneToClear" | wot => "oneToToggle"
  | wzs => "zeroToSet" | wzc => "zeroToClear" | wzt => "zeroToToggle"
  | wclr => "clear" | wset => "set" | wuser => "modify"
  end.

Definition example_readaction_from_onread (onread : OnReadType) : string :=
  match onread with
  | rclr => "clear" | rset => "set" | ruser => "modify"
  end.

Definition example_exporter (std : Z) : IPXACTExporter :=
  {| vendor := PStr "example.org"; library := PStr "mylibrary";
     version := PStr "1.0"; standard := std;
     xml_indent := PStr "  "; xml_newline := PStr (String (Ascii.ascii_of_nat 10) "");
     ns := if 2014 <=? std then "ipxact:" else "spirit:" |}.

Definition example_common (name : string) (present : bool) : Common :=
  {| inst_name := name; get_path := "top." +:+ name;
     prop_name := None; prop_desc := None; prop_ispresent := present |}.

Definition example_address (offset sz : Z) (arr : option ArrayInfo) : Addressable :=
  {| raw_address_offset := offset; absolute_address := offset;
     size := sz; array := arr |}.

Definition example_field_info (lo wd : Z) (reset : option Z) : FieldInfo :=
  {| low := lo; lsb := lo; width := wd; is_volatile := false;
     prop_reset := reset; prop_sw := rw; prop_encode := None;
     prop_onwrite := None; prop_onread := None; prop_donttest := false |}.

Definition example_field (name : string) (lo wd : Z) (reset : option Z) : Node :=
  mkNode (FieldNode (example_field_info lo wd reset)) (example_common name true) [].

Definition example_reg (name : string) (offset regwidth : Z)
    (arr : option ArrayInfo) (fs : list Node) : Node :=
  mkNode (RegNode (example_address offset (regwidth / 8) arr) regwidth)
    (example_common name true) fs.

Definition example_A : Node :=
  example_reg "A" 0 32 None
    [example_field "F1" 0 2 (Some 3); example_field "F2" 2 1 (Some 1)].

Definition example_C : Node :=
  example_reg "C" 8 16 None [example_field "F" 0 8 None].

Definition example_B : Node :=
  mkNode (RegfileNode (example_address 4 4 None)) (example_common "B" false)
    [example_reg "X" 0 64 None []].

Definition example_array_ok : Node :=
  example_reg "R" 16 32 (Some {| array_dimensions := [2; 3]; array_stride := 4 |}) [].

Definition example_array_bad : Node :=
  example_reg "S" 64 32 (Some {| array_dimensions := [4]; array_stride := 8 |}) [].

Definition example_mem : Node :=
  mkNode (MemNode (example_address 256 64 None) 16 rw) (example_common "M" true) [].

Definition example_group : Node :=
  mkNode (RegfileNode (example_address 0 12 None)) (example_common "G" true)
    [example_A; example_B; example_C].

Definition example_group_array : Node :=
  mkNode (RegfileNode (example_address 0 12
            (Some {| array_dimensions := [4]; array_stride := 16 |})))
    (example_common "GA" true) [example_A].

Definition example_top : Node :=
  mkNode (AddrmapNode (example_address 0 512 None) false) (example_common "top" true)
    [example_A; example_B; example_mem; example_C].

Definition example_top_bad : Node :=
  mkNode (AddrmapNode (example_address 0 512 None) false) (example_common "top" true)
    [example_A; example_array_bad].

Definition example_soc : Node :=
  mkNode (AddrmapNode (example_address 0 1024 None) false) (example_common "soc" true)
    [example_top; example_mem].

(** A file system in which every path but the empty one can be opened. *)
Definition example_writable (path : string) : bool :=
  negb (String.eqb path "").

(** A state in which node 0 is an element that can take children. *)
Definition example_state : State :=
  {| doc := [Element "parent" [] []]; _max_width := Some 128;
     messages := []; files := [] |}.

Ltac in_list := repeat first [apply list_elem_of_here | apply list_elem_of_further].
(** The parameters of the section that a goal does not mention are set
    aside, so that a proof by [intuition] does not come to depend on them. *)
Ltac set_aside :=
  repeat match goal with
         | x : _ → string |- _ => clear x
         | x : string → bool |- _ => clear x
         end.
Ltac not_in_list :=
  rewrite ?elem_of_cons, elem_of_nil; set_aside; intuition discriminate.
Ltac sub_list :=
  let x := fresh in
  intros x; rewrite ?elem_of_cons, ?elem_of_nil; set_aside; intuition (subst; auto).

(** ** Vocabulary of the further properties *)

(** Bit [i] of what one field adds to the aggregated reset and mask. *)
Definition reset_bit (i : Z) (g : Common * FieldInfo) : bool :=
  match prop_reset (snd g) with
  | Some v => Z.testbit (Z.shiftl v (lsb (snd g))) i && Z.testbit (field_mask (snd g)) i
  | None => false
  end.

Definition mask_bit (i : Z) (g : Common * FieldInfo) : bool :=
  match prop_reset (snd g) with
  | Some _ => Z.testbit (field_mask (snd g)) i
  | None => false
  end.


(** The text of the component's name: [component_name or node.inst_name]
    when the export goes through. *)
Definition component_name_text (component_name : pyval) (node : Node) : string :=
  match component_name with
  | PStr c => if String.eqb c "" then inst_name (common node) else c
  | _ => inst_name (common node)
  end.

(** The mem nodes that are dropped beneath a node, in source order: the
    mem children, and those dropped beneath the addrmap and regfile
    children. *)
Fixpoint nested_mems (node : Node) {struct node} : list Node :=
  flat_map (λ child,
    if is_RegNode child then []
    else if is_AddrmapNode child || is_RegfileNode child
    then nested_mems child
    else if is_MemNode child then [child]
    else []) (children node).

(** The mem nodes a whole export drops. *)
Definition dropped_mems (node : Node) : list Node :=
  if explode node
  then flat_map nested_mems (addressable_children node)
  else nested_mems node.

Definition mem_warnings (ms : list Node) : list Message :=
  map (λ m, Warning (mem_msg m)) ms.

(** The messages of an outcome that is built are [M]. *)
Definition reports (o : Outcome) (M : list Message) : Prop :=
  match o with
  | Built _ _ ms => ms = M
  | Failed _ => True
  end.

(** Every element of a tree has a tag in [P]. *)
Fixpoint all_tags (P : string → bool) (t : xml) {struct t} : bool :=
  match t with
  | XElement tag _ kids => P tag && forallb (all_tags P) kids
  | XDocument kids => forallb (all_tags P) kids
  | XText _ | XComment _ => true
  end.

(** The element names the exporter writes. *)
Definition vocabulary : list string :=
  ["component"; "vendor"; "library"; "name"; "version"; "memoryMaps";
   "memoryMap"; "displayName"; "description"; "addressBlock"; "isPresent";
   "baseAddress"; "range"; "width"; "usage"; "access"; "registerFile";
   "register"; "dim"; "addressOffset"; "size"; "reset"; "value"; "mask";
   "field"; "bitOffset"; "resets"; "bitWidth"; "volatile";
   "enumeratedValues"; "enumeratedValue"; "modifiedWriteValue";
   "readAction"; "testable"].

Definition in_vocabulary (prefix tag : string) : bool :=
  existsb (λ nm, String.eqb tag (prefix +:+ nm)) vocabulary.

Definition well_tagged (prefix : string) (ts : list xml) : bool :=
  forallb (all_tags (in_vocabulary prefix)) ts.

(** What an outcome builds, when it builds, satisfies [P]. *)
Definition builds (P : list xml → Prop) (o : Outcome) : Prop :=
  match o with
  | Built ts _ _ => P ts
  | Failed _ => True
  end.

(** The order of the children of a field element. *)
Definition field_order : list string :=
  ["name"; "displayName"; "description"; "isPresent"; "bitOffset"; "resets";
   "bitWidth"; "volatile"; "access"; "enumeratedValues"; "modifiedWriteValue";
   "readAction"; "testable"].

(** The trees [ts] are elements with the names [names], one by one. *)
Definition named (prefix : string) (names : list string) (ts : list xml) : Prop :=
  Forall2 (λ nm t, ∃ attrs kids, t = XElement (prefix +:+ nm) attrs kids) names ts.

(** A field with an enumeration, for running [add_field]. *)
Definition example_field_enum : FieldInfo :=
  {| low := 4; lsb := 4; width := 2; is_volatile := true;
     prop_reset := None; prop_sw := r;
     prop_encode :=
       Some [ {| ev_name := "IDLE"; rdl_name := None; rdl_desc := Some "idle";
                 ev_value := 0 |};
              {| ev_name := "BUSY"; rdl_name := Some "Busy"; rdl_desc := None;
                 ev_value := 1 |} ];
     prop_onwrite := Some woclr; prop_onread := None; prop_donttest := true |}.

(** The children of a container that are rendered, in the order in which
    [add_registerData] renders them: source order under 2014, the registers
    before the register files under 2009. *)
Definition is_group (node : Node) : bool :=
  is_AddrmapNode node || is_RegfileNode node.

Definition render_order (self : IPXACTExporter) (node : Node) : list Node :=
  if standard self =? IEEE_1685_2014
  then List.filter (λ child, is_RegNode child || is_group child) (children node)
  else List.filter is_RegNode (children node)
       ++ List.filter is_group (children node).

(** [t] is the register or the register file that bears the name of
    [child]. *)
Definition rendered_as (self : IPXACTExporter) (child : Node) (t : xml) : Prop :=
  ∃ rest,
    t = XElement (ns self +:+ (if is_RegNode child then "register" else "registerFile")) []
          (XElement (ns self +:+ "name") [] [XText (inst_name (common child))]
           :: rest).

(** How a child that is rendered is rendered: a register by [add_register],
    an addrmap or a regfile by [add_registerFile]. *)
Definition render_child (self : IPXACTExporter) (child : Node) (parent : nat)
    : M unit :=
  if is_RegNode child then add_register self parent child
  else add_registerFile self parent child.

(** [renders m t]: given any parent element, [m] returns and appends to
    the parent one new node, which is the root of the tree [t]. *)
Definition renders (m : nat → M unit) (t : xml) : Prop :=
  ∀ q s n, doc s !! q = Some n → is_container n →
    ∃ s' k, m q s = Ret tt s' ∧
            doc s' !! q = Some (add_kids n [k]) ∧
            repr (doc s') (length (doc s)) k t.

(** A container whose registers and register files alternate. *)
Definition example_mixed : Node :=
  mkNode (RegfileNode (example_address 0 64 None)) (example_common "mixed" true)
    [example_B; example_A; example_mem; example_group; example_C].

(** A root node above the example map. *)
Definition example_root : Node :=
  mkNode RootNode (example_common "$root" true)
    [mkNode SignalNode (example_common "rst" true) []; example_top].

(** Proof steps for lists of named elements and for sublists of a fixed
    list. *)
Ltac named_list :=
  repeat first [apply Forall2_nil_2 | apply Forall2_cons_2; [by eexists _, _|]].
Ltac sublist_list :=
  repeat first [apply sublist_nil | apply sublist_skip | apply sublist_cons].

(** * Proofs *)

(** ** The heap and the trees it holds *)

Lemma add_kids_nil n : add_kids n [] = n.
Proof. destruct n; simpl; by rewrite ?app_nil_r. Qed.

Lemma add_kids_app n k1 k2 : add_kids (add_kids n k1) k2 = add_kids n (k1 ++ k2).
Proof. destruct n; simpl; by rewrite <-?app_assoc. Qed.

Lemma add_kids_container n ks : is_container n → is_container (add_kids n ks).
Proof. by destruct n. Qed.

Lemma repr_lookup h lo i t : repr h lo i t → (lo ≤ i < length h)%nat.
Proof.
  intros H; inversion H; subst; split; try done;
    eapply lookup_lt_Some; eassumption.
Qed.

Lemma repr_mono h lo lo' i t : repr h lo i t → (lo' ≤ lo)%nat → repr h lo' i t.
Proof.
  intros H Hle; inversion H; subst; econstructor; try eassumption; lia.
Qed.

Lemma repr_frame_aux h h' n : ∀ lo i t,
  (length h - i ≤ n)%nat → repr h lo i t →
  (∀ j, (lo ≤ j < length h)%nat → h' !! j = h !! j) →
  repr h' lo i t.
Proof.
  induction n as [|n IH]; intros lo i t Hn Hr Hagree.
  - apply repr_lookup in Hr. lia.
  - pose proof (repr_lookup _ _ _ _ Hr) as Hi.
    assert (∀ cs ts, Forall2 (repr h (S i)) cs ts → Forall2 (repr h' (S i)) cs ts)
      as Hkids.
    { intros cs ts Hcs. eapply Forall2_impl; [exact Hcs|].
      intros c t' Hc. pose proof (repr_lookup _ _ _ _ Hc).
      apply IH; [lia | done | intros j Hj; apply Hagree; lia]. }
    inversion Hr; subst.
    + constructor; [done|]. rewrite Hagree; [done | lia].
    + constructor; [done|]. rewrite Hagree; [done | lia].
    + econstructor; [done | rewrite Hagree; [done | lia] | by apply Hkids].
    + econstructor; [done | rewrite Hagree; [done | lia] | by apply Hkids].
Qed.

Lemma repr_frame h h' lo i t :
  repr h lo i t →
  (∀ j, (lo ≤ j < length h)%nat → h' !! j = h !! j) →
  repr h' lo i t.
Proof. intros. eapply repr_frame_aux; [reflexivity | done | done]. Qed.

Lemma Forall2_repr_frame h h' lo ks ts :
  Forall2 (repr h lo) ks ts →
  (∀ j, (lo ≤ j < length h)%nat → h' !! j = h !! j) →
  Forall2 (repr h' lo) ks ts.
Proof.
  intros H Hagree. eapply Forall2_impl; [exact H|].
  intros; by eapply repr_frame.
Qed.

Lemma Forall2_repr_mono h lo lo' ks ts :
  Forall2 (repr h lo) ks ts → (lo' ≤ lo)%nat → Forall2 (repr h lo') ks ts.
Proof.
  intros H Hle. eapply Forall2_impl; [exact H|].
  intros; by eapply repr_mono.
Qed.

(** Reading a represented tree back with enough fuel gives that tree. *)
Lemma repr_tree_of h fuel : ∀ lo i t,
  repr h lo i t → (length h - i ≤ fuel)%nat → tree_of fuel h i = Some t.
Proof.
  induction fuel as [|fuel IH]; intros lo i t Hr Hn.
  - apply repr_lookup in Hr. lia.
  - pose proof (repr_lookup _ _ _ _ Hr) as Hi.
    assert (∀ cs ts, Forall2 (repr h (S i)) cs ts →
                     mapM (tree_of fuel h) cs = Some ts) as Hkids.
    { intros cs ts Hcs. apply mapM_Some. eapply Forall2_impl; [exact Hcs|].
      intros c t' Hc. pose proof (repr_lookup _ _ _ _ Hc).
      eapply IH; [exact Hc | lia]. }
    inversion Hr as [? ? ? ? E|? ? ? ? E|? ? ? ? ? ? ? E F|? ? ? ? ? E F]; subst;
      simpl; rewrite E; try done; by rewrite (Hkids _ _ F).
Qed.

(** ** Running the monad *)

Lemma bind_Ret {A B} (m : M A) (f : A → M B) s a s' :
  m s = Ret a s' → (m ≫= f) s = f a s'.
Proof. unfold mbind, M_bind. by intros ->. Qed.

Lemma bind_Raise {A B} (m : M A) (f : A → M B) s e s' :
  m s = Raise e s' → (m ≫= f) s = Raise e s'.
Proof. unfold mbind, M_bind. by intros ->. Qed.

Lemma appendChild_Ret p c s n :
  doc s !! p = Some n → is_container n →
  appendChild p c s = Ret tt (set_doc (<[p := add_kids n [c]]> (doc s)) s).
Proof. unfold appendChild. intros -> Hn. by destruct (is_container n). Qed.

(** ** Composing specifications *)

Lemma Spec_skip p : Spec (mret tt) p skip.
Proof.
  intros s n Hp Hn. exists s, []. split; [done|].
  constructor; simpl; try done.
  - by rewrite add_kids_nil.
  - by rewrite app_nil_r.
Qed.

Lemma Spec_raise p e : Spec (raise e) p (Failed e).
Proof. intros s n Hp Hn. by exists s. Qed.

Lemma SpecAt_Spec mw0 m p o : Spec m p o → SpecAt mw0 m p o.
Proof. intros H s n _. apply H. Qed.

Lemma Spec_SpecAt m p o : (∀ mw0, SpecAt mw0 m p o) → Spec m p o.
Proof. intros H s n. by apply (H (_max_width s)). Qed.

Lemma SpecAt_seq mw0 m1 m2 p o1 o2 :
  SpecAt mw0 m1 p o1 → SpecAt (out_width o1 mw0) m2 p o2 →
  SpecAt mw0 (m1;; m2) p (seq o1 o2).
Proof.
  intros H1 H2 s n Hmw Hp Hn. specialize (H1 s n Hmw Hp Hn).
  destruct o1 as [ts1 g1 ms1|e1]; simpl.
  - destruct H1 as (s1 & k1 & E1 & P1).
    assert (_max_width s1 = g1 mw0) as Hmw1
      by (rewrite (post_width _ _ _ _ _ _ _ _ P1); by rewrite Hmw).
    specialize (H2 s1 _ Hmw1 (post_parent _ _ _ _ _ _ _ _ P1)
                  (add_kids_container _ _ Hn)).
    pose proof (lookup_lt_Some _ _ _ Hp) as Hlt.
    destruct o2 as [ts2 g2 ms2|e2].
    + destruct H2 as (s2 & k2 & E2 & P2). exists s2, (k1 ++ k2). split.
      { by rewrite (bind_Ret _ _ _ _ _ E1). }
      destruct P1, P2. constructor.
      * lia.
      * by rewrite <-add_kids_app.
      * intros j Hj Hne. rewrite post_frame1; [by apply post_frame0 | lia | done].
      * apply Forall2_app.
        -- eapply Forall2_repr_frame; [exact post_kids0|].
           intros j Hj. apply post_frame1; lia.
        -- eapply Forall2_repr_mono; [exact post_kids1 | done].
      * by rewrite post_width1, post_width0.
      * by rewrite post_messages1, post_messages0, app_assoc.
      * by rewrite post_files1.
    + destruct H2 as (s2 & E2 & F2). exists s2. split.
      { by rewrite (bind_Ret _ _ _ _ _ E1). }
      rewrite F2. apply P1.
  - destruct H1 as (s1 & E1 & F1). exists s1. split; [|done].
    by rewrite (bind_Raise _ _ _ _ _ E1).
Qed.

Lemma Spec_seq m1 m2 p o1 o2 :
  Spec m1 p o1 → Spec m2 p o2 → Spec (m1;; m2) p (seq o1 o2).
Proof.
  intros H1 H2. apply Spec_SpecAt. intros mw0.
  apply SpecAt_seq; by apply SpecAt_Spec.
Qed.

Lemma Spec_when (b : bool) m p o :
  Spec m p o → Spec (when b m) p (if b then o else skip).
Proof. destruct b; simpl; [done | intros; apply Spec_skip]. Qed.

Lemma Spec_for {A} (l : list A) (body : A → M unit) (f : A → Outcome) p :
  (∀ x, x ∈ l → Spec (body x) p (f x)) →
  Spec (for_ l body) p (seqs (map f l)).
Proof.
  induction l as [|x l IH]; intros H; simpl.
  - apply Spec_skip.
  - apply Spec_seq; [apply H; left | apply IH; intros; apply H; by right].
Qed.

Lemma seq_skip_l o : seq skip o = o.
Proof. by destruct o. Qed.

Lemma seq_skip_r o : seq o skip = o.
Proof. destruct o; simpl; [|done]. by rewrite !app_nil_r. Qed.

Lemma seq_built ts1 ts2 : seq (built ts1) (built ts2) = built (ts1 ++ ts2).
Proof. done. Qed.

Lemma seq_assoc o1 o2 o3 : seq (seq o1 o2) o3 = seq o1 (seq o2 o3).
Proof.
  destruct o1, o2, o3; simpl; try done. by rewrite !app_assoc.
Qed.

Lemma seqs_app os1 os2 : seqs (os1 ++ os2) = seq (seqs os1) (seqs os2).
Proof.
  induction os1 as [|o os1 IH]; simpl.
  - by destruct (seqs os2).
  - by rewrite IH, seq_assoc.
Qed.

Lemma seqs_built {A} (f : A → xml) (l : list A) :
  seqs (map (λ x, built [f x]) l) = built (map f l).
Proof. induction l as [|x l IH]; [done|]. simpl. by rewrite IH. Qed.

(** *** The primitive steps *)

Lemma Spec_add_value p tag (v : string) :
  Spec (add_value p tag v) p (built [XElement tag [] [XText v]]).
Proof.
  intros s n Hp Hn. pose proof (lookup_lt_Some _ _ _ Hp) as Hlt.
  set (h := doc s) in *. set (el := length h).
  set (h1 := (h ++ [Element tag [] []]) ++ [Text v]).
  assert (h1 !! el = Some (Element tag [] [])) as Hel.
  { unfold h1. rewrite lookup_app_l by (rewrite length_app; simpl; lia).
    by rewrite list_lookup_middle. }
  set (h2 := <[el := Element tag [] [S el]]> h1).
  assert (h2 !! p = Some n) as Hp2.
  { unfold h2, h1. rewrite list_lookup_insert_ne by (unfold el; lia).
    by rewrite !lookup_app_l by (rewrite ?length_app; simpl; lia). }
  eexists _, [el]. split.
  { unfold add_value, createElement, createTextNode.
    erewrite bind_Ret by reflexivity. erewrite bind_Ret by reflexivity.
    erewrite bind_Ret.
    2:{ eapply (appendChild_Ret el _ _ (Element tag [] [])); [|done].
        simpl. exact Hel. }
    simpl. rewrite length_app; simpl. fold h el.
    replace (el + 1)%nat with (S el) by lia. fold h1 h2.
    by apply appendChild_Ret. }
  assert (length h2 = S (S el)) as Hlen.
  { unfold h2, h1. rewrite length_insert, !length_app. simpl. unfold el. lia. }
  constructor; simpl; fold h.
  - rewrite length_insert, Hlen. unfold el. lia.
  - apply list_lookup_insert_eq. rewrite Hlen. unfold el. lia.
  - intros j Hj Hne. rewrite list_lookup_insert_ne by done.
    unfold h2, h1. rewrite list_lookup_insert_ne by (unfold el; lia).
    by rewrite !lookup_app_l by (rewrite ?length_app; simpl; lia).
  - constructor; [|constructor].
    apply repr_element with (cs := [S el]); [unfold el; lia | |].
    + rewrite list_lookup_insert_ne by (unfold el; lia).
      unfold h2. apply list_lookup_insert_eq.
      unfold h1. rewrite !length_app. simpl. unfold el. lia.
    + constructor; [|constructor]. constructor; [done|].
      rewrite list_lookup_insert_ne by (unfold el; lia).
      unfold h2. rewrite list_lookup_insert_ne by lia.
      unfold h1. replace (S el) with (length (h ++ [Element tag [] []]))
        by (rewrite length_app; simpl; unfold el; lia).
      by rewrite list_lookup_middle.
  - done.
  - by rewrite app_nil_r.
  - done.
Qed.

(** A new element that is filled, appended to the parent, and filled
    further. *)
Lemma SpecAt_element_gen mw0 p tag (pre post : nat → M unit) o1 o2 :
  (∀ el, SpecAt mw0 (pre el) el o1) →
  (∀ el, SpecAt (out_width o1 mw0) (post el) el o2) →
  SpecAt mw0 (el ← createElement tag; pre el;; appendChild p el;; post el) p
         (wrap tag (seq o1 o2)).
Proof.
  intros Hpre Hpost s n Hmw Hp Hn. pose proof (lookup_lt_Some _ _ _ Hp) as Hlt.
  set (el := length (doc s)).
  set (s0 := set_doc (doc s ++ [Element tag [] []]) s).
  assert (createElement tag s = Ret el s0) as E0 by done.
  assert (doc s0 !! el = Some (Element tag [] [])) as Hel0
    by (by apply list_lookup_middle).
  assert (length (doc s0) = S el) as Hlen0
    by (simpl; rewrite length_app; simpl; unfold el; lia).
  specialize (Hpre el s0 _ Hmw Hel0 I).
  destruct o1 as [ts1 g1 ms1|e1]; simpl.
  2:{ destruct Hpre as (s1 & E1 & F1). destruct o2; simpl;
        exists s1; (split; [|done]);
        rewrite (bind_Ret _ _ _ _ _ E0); by rewrite (bind_Raise _ _ _ _ _ E1). }
  destruct Hpre as (s1 & k1 & E1 & P1). destruct P1 as [L1 Par1 Fr1 K1 W1 M1 F1].
  simpl in Par1.
  assert (doc s1 !! p = Some n) as Hp1.
  { rewrite Fr1 by (unfold el in *; lia). simpl. by rewrite lookup_app_l. }
  set (s1' := set_doc (<[p := add_kids n [el]]> (doc s1)) s1).
  assert (appendChild p el s1 = Ret tt s1') as Ea by (by apply appendChild_Ret).
  assert (doc s1' !! el = Some (Element tag [] k1)) as Hel1.
  { simpl. rewrite list_lookup_insert_ne by (unfold el; lia). done. }
  assert (_max_width s1' = g1 mw0) as Hmw1 by (simpl; by rewrite W1, <-Hmw).
  specialize (Hpost el s1' _ Hmw1 Hel1 I).
  assert (length (doc s1') = length (doc s1)) as Hlen1
    by (simpl; by rewrite length_insert).
  destruct o2 as [ts2 g2 ms2|e2]; simpl.
  2:{ destruct Hpost as (s2 & E2 & F2). exists s2.
      split; [|rewrite F2; simpl; by rewrite F1].
      rewrite (bind_Ret _ _ _ _ _ E0), (bind_Ret _ _ _ _ _ E1).
      rewrite (bind_Ret _ _ _ _ _ Ea). done. }
  destruct Hpost as (s2 & k2 & E2 & P2). destruct P2 as [L2 Par2 Fr2 K2 W2 M2 F2].
  simpl in Par2. exists s2, [el]. split.
  { rewrite (bind_Ret _ _ _ _ _ E0), (bind_Ret _ _ _ _ _ E1).
    rewrite (bind_Ret _ _ _ _ _ Ea). done. }
  constructor.
  - fold el. lia.
  - rewrite Fr2 by (rewrite ?Hlen1; unfold el in *; lia).
    simpl. apply list_lookup_insert_eq. unfold el in *; lia.
  - fold el. intros j Hj Hne.
    rewrite Fr2 by (rewrite ?Hlen1; unfold el in *; lia).
    simpl. rewrite list_lookup_insert_ne by done.
    rewrite Fr1 by lia. simpl. by rewrite lookup_app_l.
  - constructor; [|constructor].
    apply repr_element with (cs := k1 ++ k2); [done | done |].
    apply Forall2_app.
    + rewrite Hlen0 in K1. eapply Forall2_repr_frame; [exact K1|].
      intros j Hj. rewrite Fr2 by (rewrite ?Hlen1; unfold el in *; lia).
      simpl. apply list_lookup_insert_ne. unfold el in *; lia.
    + eapply Forall2_repr_mono; [exact K2|]. rewrite Hlen1. lia.
  - rewrite W2. simpl. by rewrite W1.
  - rewrite M2. simpl. rewrite M1. simpl. by rewrite app_assoc.
  - rewrite F2. simpl. by rewrite F1.
Qed.

Lemma Spec_element_gen p tag (pre post : nat → M unit) o1 o2 :
  (∀ el, Spec (pre el) el o1) →
  (∀ el, Spec (post el) el o2) →
  Spec (el ← createElement tag; pre el;; appendChild p el;; post el) p
       (wrap tag (seq o1 o2)).
Proof.
  intros H1 H2. apply Spec_SpecAt. intros mw0.
  apply SpecAt_element_gen; intros; by apply SpecAt_Spec.
Qed.

Lemma SpecAt_element mw0 p tag (body : nat → M unit) o :
  (∀ el, SpecAt mw0 (body el) el o) →
  SpecAt mw0 (el ← createElement tag; appendChild p el;; body el) p (wrap tag o).
Proof.
  intros H.
  pose proof (SpecAt_element_gen mw0 p tag (λ _, mret tt) body skip o
                (λ el, SpecAt_Spec _ _ _ _ (Spec_skip el)) H) as G.
  rewrite seq_skip_l in G. exact G.
Qed.

Lemma Spec_element p tag (body : nat → M unit) o :
  (∀ el, Spec (body el) el o) →
  Spec (el ← createElement tag; appendChild p el;; body el) p (wrap tag o).
Proof.
  intros H.
  pose proof (Spec_element_gen p tag (λ _, mret tt) body skip o
                (λ el, Spec_skip el) H) as G.
  rewrite seq_skip_l in G. exact G.
Qed.

(** The extension container: created, handed to a hook that leaves it
    empty, and therefore never attached. *)
Lemma Spec_vendorExtensions p tag (hook : nat → M unit) :
  (∀ el s, hook el s = Ret tt s) →
  Spec (vendorExtensions ← createElement tag;
        hook vendorExtensions;;
        b ← hasChildNodes vendorExtensions;
        when b (appendChild p vendorExtensions)) p skip.
Proof.
  intros Hhook s n Hp Hn. pose proof (lookup_lt_Some _ _ _ Hp) as Hlt.
  set (s0 := set_doc (doc s ++ [Element tag [] []]) s).
  exists s0, []. split.
  { erewrite bind_Ret by reflexivity. erewrite bind_Ret by apply Hhook.
    erewrite bind_Ret.
    2:{ unfold hasChildNodes. simpl. rewrite list_lookup_middle by done. done. }
    done. }
  constructor; simpl; try done.
  - rewrite length_app. lia.
  - rewrite add_kids_nil. by rewrite lookup_app_l.
  - intros j Hj _. by rewrite lookup_app_l.
  - by rewrite app_nil_r.
Qed.

Lemma Spec_modify_width p (f : option Z → option Z) :
  Spec (mw ← gets _max_width; modify (set_max_width (f mw))) p (Built [] f []).
Proof.
  intros s n Hp Hn. eexists _, []. split; [reflexivity|].
  constructor; simpl; try done.
  - by rewrite add_kids_nil.
  - by rewrite app_nil_r.
Qed.

Lemma Spec_widen p (f : option Z → option Z) (rest : M unit) o :
  Spec rest p o →
  Spec (mw ← gets _max_width; modify (set_max_width (f mw));; rest) p
       (seq (Built [] f []) o).
Proof. intros H. exact (Spec_seq _ _ _ _ _ (Spec_modify_width p f) H). Qed.

Lemma Spec_reset_width p :
  Spec (modify (set_max_width None)) p (Built [] (λ _, None) []).
Proof.
  intros s n Hp Hn. eexists _, []. split; [reflexivity|].
  constructor; simpl; try done.
  - by rewrite add_kids_nil.
  - by rewrite app_nil_r.
Qed.

Lemma Spec_warning p text :
  Spec (msg_warning text) p (Built [] id [Warning text]).
Proof.
  intros s n Hp Hn. eexists _, []. split; [reflexivity|].
  constructor; simpl; try done. by rewrite add_kids_nil.
Qed.

Lemma Spec_fatal p text :
  Spec (msg_fatal text) p (Failed (RDLCompileError text)).
Proof. intros s n Hp Hn. eexists. split; [reflexivity|done]. Qed.

Lemma Spec_cast m p o1 o2 : o1 = o2 → Spec m p o1 → Spec m p o2.
Proof. by intros ->. Qed.

Lemma Spec_if (b : bool) m1 m2 p o1 o2 :
  Spec m1 p o1 → Spec m2 p o2 →
  Spec (if b then m1 else m2) p (if b then o1 else o2).
Proof. by destruct b. Qed.

(** *** Steps that only build *)

Lemma Spec_seq_built m1 m2 p ts1 ts2 :
  Spec m1 p (built ts1) → Spec m2 p (built ts2) →
  Spec (m1;; m2) p (built (ts1 ++ ts2)).
Proof. intros H1 H2. rewrite <-seq_built. by apply Spec_seq. Qed.

Lemma Spec_when_built (b : bool) m p ts :
  Spec m p (built ts) → Spec (when b m) p (built (if b then ts else [])).
Proof. destruct b; simpl; [done | intros; apply Spec_skip]. Qed.

Lemma Spec_option_built {A} (x : option A) (body : A → M unit) (f : A → list xml) p :
  (∀ a, Spec (body a) p (built (f a))) →
  Spec (match x with Some a => body a | None => mret tt end) p
       (built (match x with Some a => f a | None => [] end)).
Proof. destruct x; [done | intros; apply Spec_skip]. Qed.

Lemma Spec_element_built p tag (body : nat → M unit) ts :
  (∀ el, Spec (body el) el (built ts)) →
  Spec (el ← createElement tag; appendChild p el;; body el) p
       (built [XElement tag [] ts]).
Proof. intros H. by apply (Spec_element p tag body (built ts)). Qed.

Lemma Spec_for_built {A} (l : list A) (body : A → M unit) (f : A → xml) p :
  (∀ x, Spec (body x) p (built [f x])) →
  Spec (for_ l body) p (built (map f l)).
Proof. intros H. rewrite <-seqs_built. apply Spec_for. intros; apply H. Qed.

Lemma Node_ind' (P : Node → Prop) :
  (∀ k c cs, Forall P cs → P (mkNode k c cs)) → ∀ n, P n.
Proof.
  intros H. fix IH 1. intros [k c cs]. apply H.
  induction cs as [|x cs IHcs]; constructor; [apply IH | exact IHcs].
Qed.

(** ** The methods build what the denotation says *)

Section MethodSpecs.

Variable self : IPXACTExporter.

Local Abbreviation NS t := (ns self +:+ t).

Lemma Spec_value p tag (v : string) :
  Spec (add_value p (NS tag) v) p (built [value_xml self tag v]).
Proof. apply Spec_add_value. Qed.

Lemma Spec_add_nameGroup p name displayName description :
  Spec (add_nameGroup self p name displayName description) p
       (built (nameGroup_xml self name displayName description)).
Proof.
  unfold add_nameGroup, nameGroup_xml.
  apply Spec_seq_built; [apply Spec_value|].
  apply Spec_seq_built;
    apply (Spec_option_built _ _ (λ d, [value_xml self _ d]));
    intros; apply Spec_value.
Qed.

Lemma Spec_add_isPresent p c :
  Spec (add_isPresent self p c) p (built (isPresent_xml self c)).
Proof. unfold add_isPresent, isPresent_xml. apply Spec_when_built, Spec_value. Qed.

Lemma Spec_field_vendorExtensions p c f :
  Spec (vendorExtensions ← createElement (NS "vendorExtensions");
        field_vendorExtensions vendorExtensions c f;;
        b ← hasChildNodes vendorExtensions;
        when b (appendChild p vendorExtensions)) p (built []).
Proof. by apply (Spec_vendorExtensions p _ (λ el, field_vendorExtensions el c f)). Qed.

Lemma Spec_add_field p c f :
  Spec (add_field self p c f) p (built [field_xml self c f]).
Proof.
  unfold add_field, field_xml.
  apply Spec_element_built. intros field.
  apply Spec_seq_built; [apply Spec_add_nameGroup|].
  apply Spec_seq_built; [apply Spec_add_isPresent|].
  apply Spec_seq_built; [apply Spec_value|].
  apply Spec_seq_built.
  { unfold field_reset_xml. apply Spec_when_built.
    apply (Spec_option_built _ _ (λ reset, [XElement _ [] [XElement _ [] [value_xml self "value" (hex_str self reset)]]])).
    intros reset. apply Spec_element_built; intros resets_el.
    apply Spec_element_built; intros reset_el. apply Spec_value. }
  unfold field_tail_xml.
  apply Spec_seq_built; [apply Spec_value|].
  apply Spec_seq_built; [apply Spec_when_built, Spec_value|].
  apply Spec_seq_built; [apply Spec_value|].
  apply Spec_seq_built.
  { apply (Spec_option_built _ _ (λ encode, [XElement _ [] (map (enumeratedValue_xml self) encode)])).
    intros encode. apply Spec_element_built; intros enum_values_el.
    apply Spec_for_built. intros ev. unfold enumeratedValue_xml.
    apply Spec_element_built; intros enum_value_el.
    apply Spec_seq_built; [apply Spec_add_nameGroup | apply Spec_value]. }
  apply Spec_seq_built.
  { apply (Spec_option_built _ _ (λ onwrite, [value_xml self _ _])).
    intros; apply Spec_value. }
  apply Spec_seq_built.
  { apply (Spec_option_built _ _ (λ onread, [value_xml self _ _])).
    intros; apply Spec_value. }
  rewrite <-(app_nil_r (if prop_donttest f then _ else _)).
  apply Spec_seq_built; [apply Spec_when_built, Spec_value|].
  apply Spec_field_vendorExtensions.
Qed.

Lemma Spec_register_vendorExtensions p node :
  Spec (vendorExtensions ← createElement (NS "vendorExtensions");
        register_vendorExtensions vendorExtensions node;;
        b ← hasChildNodes vendorExtensions;
        when b (appendChild p vendorExtensions)) p skip.
Proof. by apply (Spec_vendorExtensions p _ (λ el, register_vendorExtensions el node)). Qed.

Lemma Spec_add_register p node :
  Spec (add_register self p node) p (register_out self node).
Proof.
  unfold add_register, register_out, stride_ok, dims_xml.
  destruct (kind node) as [| | | |a regwidth| |];
    try (eapply Spec_cast; cycle 1;
         [apply Spec_element; intros register;
          apply Spec_seq; [apply Spec_add_nameGroup|];
          apply Spec_seq; [apply Spec_add_isPresent|];
          apply Spec_raise
         |reflexivity]).
  eapply Spec_cast; cycle 1.
  - apply Spec_element; intros register.
    apply Spec_seq; [apply Spec_add_nameGroup|].
    apply Spec_seq; [apply Spec_add_isPresent|].
    apply Spec_seq.
    { instantiate (1 := match array a with
                        | Some arr =>
                            seq (if negb (8 * array_stride arr =? regwidth)
                                 then Failed (RDLCompileError stride_msg) else skip)
                                (built (map (λ dim, value_xml self "dim" (fmt_d dim))
                                          (array_dimensions arr)))
                        | None => skip
                        end).
      destruct (array a) as [arr|]; [|apply Spec_skip].
      apply Spec_seq; [apply Spec_when, Spec_fatal|].
      apply Spec_for_built. intros dim. apply Spec_value. }
    apply Spec_seq; [apply Spec_value|].
    apply Spec_seq; [apply Spec_value|].
    apply (Spec_widen register (widen regwidth)).
    apply Spec_seq.
    { instantiate (1 := built (register_reset_xml self (fields node))).
      unfold register_reset_xml.
      apply Spec_when_built.
      destruct (reset_and_mask (fields node)) as [reset mask].
      apply Spec_when_built.
      apply Spec_element_built; intros reset_el.
      apply (Spec_seq_built _ _ _ [_] [_]); apply Spec_value. }
    apply Spec_seq.
    { apply (Spec_for_built _ _ (λ f, field_xml self (fst f) (snd f))).
      intros f. apply Spec_add_field. }
    apply Spec_register_vendorExtensions.
  - destruct (array a) as [arr|]; simpl.
    + destruct (8 * array_stride arr =? regwidth); simpl; [|done].
      by rewrite !app_nil_r.
    + by rewrite !app_nil_r.
Qed.

Lemma Spec_add_registerData_ (rf : nat → Node → M unit) (rfo : Node → Outcome)
    p node :
  (∀ child, child ∈ children node → ∀ p', Spec (rf p' child) p' (rfo child)) →
  Spec (add_registerData_ self rf p node) p (registerData_out_ self rfo node).
Proof.
  intros Hrf. unfold add_registerData_, registerData_out_.
  destruct (standard self =? IEEE_1685_2014).
  { apply Spec_for. intros child Hin. unfold child_out.
    apply Spec_if; [apply Spec_add_register|].
    apply Spec_if; [by apply Hrf|].
    apply Spec_if; [apply Spec_warning | apply Spec_skip]. }
  destruct (standard self =? IEEE_1685_2009); [|apply Spec_raise].
  apply Spec_seq; apply Spec_for; intros child Hin.
  - unfold child_reg_out.
    apply Spec_if; [apply Spec_add_register | apply Spec_skip].
  - unfold child_group_out.
    apply Spec_if; [by apply Hrf|].
    apply Spec_if; [apply Spec_warning | apply Spec_skip].
Qed.

Lemma add_registerFile_unfold p node :
  add_registerFile self p node =
  (registerFile ← createElement (NS "registerFile");
   appendChild p registerFile;;
   add_nameGroup self registerFile (get_name node)
     (prop_name (common node)) (prop_desc (common node));;
   add_isPresent self registerFile (common node);;
   match addressable node with
   | Some a =>
       match array a with
       | Some arr =>
           for_ (array_dimensions arr) (λ dim,
             add_value registerFile (NS "dim") (fmt_d dim))
       | None => mret tt
       end;;
       add_value registerFile (NS "addressOffset")
         (hex_str self (raw_address_offset a));;
       match array a with
       | Some arr =>
           add_value registerFile (NS "range") (hex_str self (array_stride arr))
       | None =>
           add_value registerFile (NS "range") (hex_str self (size a))
       end;;
       add_registerData self registerFile node;;
       vendorExtensions ← createElement (NS "vendorExtensions");
       registerFile_vendorExtensions vendorExtensions node;;
       b ← hasChildNodes vendorExtensions;
       when b (appendChild registerFile vendorExtensions)
   | None => raise AttributeError
   end).
Proof. by destruct node. Qed.

Lemma registerFile_out_unfold node :
  registerFile_out self node =
  match addressable node with
  | Some a =>
      wrap (NS "registerFile")
        (seq (built
                (nameGroup_xml self (get_name node)
                   (prop_name (common node)) (prop_desc (common node))
                 ++ isPresent_xml self (common node)
                 ++ dims_xml self a
                 ++ [value_xml self "addressOffset" (hex_str self (raw_address_offset a));
                     value_xml self "range"
                       (hex_str self
                          (match array a with
                           | Some arr => array_stride arr
                           | None => size a
                           end))]))
             (registerData_out self node))
  | None => Failed AttributeError
  end.
Proof. by destruct node. Qed.

Lemma Spec_registerFile_vendorExtensions p node :
  Spec (vendorExtensions ← createElement (NS "vendorExtensions");
        registerFile_vendorExtensions vendorExtensions node;;
        b ← hasChildNodes vendorExtensions;
        when b (appendChild p vendorExtensions)) p skip.
Proof. by apply (Spec_vendorExtensions p _ (λ el, registerFile_vendorExtensions el node)). Qed.

Lemma Spec_add_registerFile node :
  ∀ p, Spec (add_registerFile self p node) p (registerFile_out self node).
Proof.
  induction node as [k c cs IH] using Node_ind'. intros p.
  rewrite add_registerFile_unfold, registerFile_out_unfold.
  set (node := mkNode k c cs).
  assert (∀ q, Spec (add_registerData self q node) q (registerData_out self node))
    as Hdata.
  { intros q. apply Spec_add_registerData_. intros child Hin.
    rewrite Forall_forall in IH. by apply IH. }
  destruct (addressable node) as [a|].
  2:{ eapply Spec_cast; cycle 1.
      - apply Spec_element; intros registerFile.
        apply Spec_seq; [apply Spec_add_nameGroup|].
        apply Spec_seq; [apply Spec_add_isPresent|]. apply Spec_raise.
      - reflexivity. }
  eapply Spec_cast; cycle 1.
  - apply Spec_element; intros registerFile.
    apply Spec_seq; [apply Spec_add_nameGroup|].
    apply Spec_seq; [apply Spec_add_isPresent|].
    apply Spec_seq.
    { instantiate (1 := built (dims_xml self a)). unfold dims_xml.
      destruct (array a) as [arr|]; [|apply Spec_skip].
      apply Spec_for_built. intros dim. apply Spec_value. }
    apply Spec_seq; [apply Spec_value|].
    apply Spec_seq.
    { instantiate (1 := built [value_xml self "range"
                                 (hex_str self (match array a with
                                                | Some arr => array_stride arr
                                                | None => size a
                                                end))]).
      destruct (array a); apply Spec_value. }
    apply Spec_seq; [apply Hdata|].
    apply Spec_registerFile_vendorExtensions.
  - simpl. rewrite seq_skip_r.
    destruct (registerData_out self node); simpl; [|done].
    by rewrite <-!app_assoc.
Qed.

Lemma Spec_add_registerData p node :
  Spec (add_registerData self p node) p (registerData_out self node).
Proof. apply Spec_add_registerData_. intros; apply Spec_add_registerFile. Qed.

Lemma bind_assoc_pt {A B C} (m : M A) (f : A → M B) (g : B → M C) s :
  ((m ≫= f) ≫= g) s = (m ≫= λ x, f x ≫= g) s.
Proof. unfold mbind, M_bind. by destruct (m s). Qed.

Lemma set_max_width_id s : set_max_width (_max_width s) s = s.
Proof. by destruct s. Qed.

(** The memory fallback of [add_addressBlock]. *)
Lemma width_fallback_step node s :
  (match kind node, _max_width s with
   | MemNode _ memwidth _, None => modify (set_max_width (Some memwidth))
   | _, _ => mret tt
   end) s
  = Ret tt (set_max_width (final_max_width node (_max_width s)) s).
Proof.
  unfold final_max_width.
  destruct (kind node), (_max_width s) eqn:E; simpl;
    unfold mret, M_ret; try (by rewrite <-E, set_max_width_id); done.
Qed.

(** The text that fills the width element. *)
Lemma width_text_step node w s mw :
  _max_width s = final_max_width node mw →
  (match _max_width s with
   | Some m => txt ← createTextNode (fmt_d m); appendChild w txt
   | None => txt ← createTextNode "32"; appendChild w txt
   end) s
  = (txt ← createTextNode (fmt_d (resolved_width node mw)); appendChild w txt) s.
Proof.
  intros E. rewrite E. unfold final_max_width, resolved_width.
  destruct mw; [done|]. by destruct (kind node).
Qed.

(** The width element: appended empty, left alone while the rest of the
    block is rendered, then given its text. *)
Lemma SpecAt_width mw0 ab node (mid1 mid2 rest : M unit) o :
  SpecAt mw0 (mid1;; mid2) ab o →
  Spec rest ab skip →
  SpecAt mw0
    (width_el ← createElement (NS "width");
     appendChild ab width_el;;
     mid1;;
     mid2;;
     mw ← gets _max_width;
     match kind node, mw with
     | MemNode _ memwidth _, None => modify (set_max_width (Some memwidth))
     | _, _ => mret tt
     end;;
     mw ← gets _max_width;
     match mw with
     | Some m => txt ← createTextNode (fmt_d m); appendChild width_el txt
     | None => txt ← createTextNode "32"; appendChild width_el txt
     end;;
     rest) ab
    (match o with
     | Built ts g ms =>
         Built (value_xml self "width" (fmt_d (resolved_width node (g mw0))) :: ts)
               (λ _, final_max_width node (g mw0)) ms
     | Failed e => Failed e
     end).
Proof.
  intros Hmid Hrest s n Hmw Hp Hn. pose proof (lookup_lt_Some _ _ _ Hp) as Hlt.
  set (w := length (doc s)).
  set (s0 := set_doc (doc s ++ [Element (NS "width") [] []]) s).
  assert (createElement (NS "width") s = Ret w s0) as E0 by done.
  set (s0' := set_doc (<[ab := add_kids n [w]]> (doc s0)) s0).
  assert (appendChild ab w s0 = Ret tt s0') as Ea.
  { apply appendChild_Ret; [|done]. simpl. by rewrite lookup_app_l. }
  assert (length (doc s0') = S w) as Hlen0.
  { simpl. rewrite length_insert, length_app. simpl. unfold w. lia. }
  assert (doc s0' !! ab = Some (add_kids n [w])) as Hab0.
  { simpl. apply list_lookup_insert_eq. rewrite length_app. lia. }
  assert (doc s0' !! w = Some (Element (NS "width") [] [])) as Hw0.
  { simpl. rewrite list_lookup_insert_ne by (unfold w; lia).
    by apply list_lookup_middle. }
  specialize (Hmid s0' _ Hmw Hab0 (add_kids_container _ _ Hn)).
  rewrite (bind_Ret _ _ _ _ _ E0), (bind_Ret _ _ _ _ _ Ea).
  rewrite <-(bind_assoc_pt mid1 (λ _, mid2)).
  destruct o as [ts g ms|e].
  2:{ destruct Hmid as (s1 & E1 & F1). exists s1. split; [|done].
      by rewrite (bind_Raise _ _ _ _ _ E1). }
  destruct Hmid as (s1 & ks & E1 & P1).
  destruct P1 as [L1 Par1 Fr1 K1 W1 M1 F1]. simpl in W1, M1, F1.
  rewrite Hmw in W1. rewrite (bind_Ret _ _ _ _ _ E1).
  erewrite (bind_Ret (gets _max_width)) by reflexivity.
  set (s2 := set_max_width (final_max_width node (_max_width s1)) s1).
  rewrite (bind_Ret _ _ _ _ _ (width_fallback_step node s1)). fold s2.
  erewrite (bind_Ret (gets _max_width)) by reflexivity.
  assert (_max_width s2 = final_max_width node (g mw0)) as W2
    by (simpl; by rewrite W1).
  set (t := length (doc s1)).
  set (txt := fmt_d (resolved_width node (g mw0))).
  set (s4 := set_doc (<[w := Element (NS "width") [] [t]]> (doc s1 ++ [Text txt])) s2).
  assert (doc s1 !! w = Some (Element (NS "width") [] [])) as Hw1.
  { rewrite Fr1 by (rewrite ?Hlen0; unfold w; lia). exact Hw0. }
  assert (w < t)%nat as Hwt by (unfold t; lia).
  assert ((match _max_width s2 with
           | Some m => txt ← createTextNode (fmt_d m); appendChild w txt
           | None => txt ← createTextNode "32"; appendChild w txt
           end) s2 = Ret tt s4) as E4.
  { rewrite (width_text_step node w s2 (g mw0) W2).
    erewrite bind_Ret by reflexivity.
    erewrite (appendChild_Ret w _ _ (Element (NS "width") [] [])); [done| |done].
    simpl. by rewrite lookup_app_l by lia. }
  rewrite (bind_Ret _ _ _ _ _ E4).
  assert (doc s4 !! ab = Some (add_kids (add_kids n [w]) ks)) as Hab4.
  { simpl. rewrite list_lookup_insert_ne by (unfold w; lia).
    rewrite lookup_app_l by lia. exact Par1. }
  destruct (Hrest s4 _ Hab4 (add_kids_container _ _ (add_kids_container _ _ Hn)))
    as (s5 & ks5 & E5 & P5).
  destruct P5 as [L5 Par5 Fr5 K5 W5 M5 F5]. apply Forall2_nil_inv_r in K5. subst ks5.
  rewrite add_kids_nil, add_kids_app in Par5.
  assert (length (doc s4) = S t) as Hlen4.
  { simpl. rewrite length_insert, length_app. simpl. unfold t. lia. }
  exists s5, (w :: ks). split; [exact E5|].
  constructor.
  - fold w. lia.
  - exact Par5.
  - fold w. intros j Hj Hne. rewrite Fr5 by lia. simpl.
    rewrite list_lookup_insert_ne by lia. rewrite lookup_app_l by lia.
    rewrite Fr1 by (rewrite ?Hlen0; lia). simpl.
    rewrite list_lookup_insert_ne by done. by rewrite lookup_app_l.
  - fold w. constructor.
    + apply repr_element with (cs := [t]); [done| |].
      * rewrite Fr5 by lia. simpl. apply list_lookup_insert_eq.
        rewrite length_app. lia.
      * constructor; [|constructor]. constructor; [lia|].
        rewrite Fr5 by lia. simpl. rewrite list_lookup_insert_ne by lia.
        by apply list_lookup_middle.
    + eapply Forall2_repr_mono with (lo := length (doc s0')); [|lia].
      eapply Forall2_repr_frame; [exact K1|].
      intros j Hj. rewrite Fr5 by lia. simpl.
      rewrite list_lookup_insert_ne by lia. by rewrite lookup_app_l by lia.
  - rewrite W5. simpl. by rewrite W1.
  - rewrite M5. simpl. by rewrite M1, app_nil_r.
  - rewrite F5. simpl. by rewrite F1.
Qed.

Lemma SpecAt_cast mw0 m p o1 o2 : o1 = o2 → SpecAt mw0 m p o1 → SpecAt mw0 m p o2.
Proof. by intros ->. Qed.

Lemma Spec_addressBlock_vendorExtensions p node :
  Spec (vendorExtensions ← createElement (NS "vendorExtensions");
        addressBlock_vendorExtensions vendorExtensions node;;
        b ← hasChildNodes vendorExtensions;
        when b (appendChild p vendorExtensions)) p skip.
Proof. by apply (Spec_vendorExtensions p _ (λ el, addressBlock_vendorExtensions el node)). Qed.

Lemma Spec_add_addressBlock p node :
  Spec (add_addressBlock self p node) p (addressBlock_out self node).
Proof.
  apply Spec_SpecAt. intros mw0. unfold add_addressBlock, addressBlock_out.
  destruct (addressable node) as [a|].
  2:{ eapply SpecAt_cast; cycle 1.
      - apply SpecAt_seq; [apply SpecAt_Spec, Spec_reset_width|].
        apply SpecAt_element; intros addressBlock.
        apply SpecAt_seq; [apply SpecAt_Spec, Spec_add_nameGroup|].
        apply SpecAt_seq; [apply SpecAt_Spec, Spec_add_isPresent|].
        apply SpecAt_Spec, Spec_raise.
      - reflexivity. }
  eapply SpecAt_cast; cycle 1.
  - apply SpecAt_seq; [apply SpecAt_Spec, Spec_reset_width|].
    apply SpecAt_element; intros addressBlock.
    apply SpecAt_seq; [apply SpecAt_Spec, Spec_add_nameGroup|].
    apply SpecAt_seq; [apply SpecAt_Spec, Spec_add_isPresent|].
    apply SpecAt_seq; [apply SpecAt_Spec, Spec_value|].
    apply SpecAt_seq; [apply SpecAt_Spec, Spec_value|].
    simpl out_width.
    apply (SpecAt_width _ addressBlock node _ _ _
             (seq (built (usage_xml self node)) (registerData_out self node))).
    + apply SpecAt_Spec, Spec_seq; [|apply Spec_add_registerData].
      unfold usage_xml. destruct (kind node); try apply Spec_skip.
      apply (Spec_seq_built _ _ _ [_] [_]); apply Spec_value.
    + apply Spec_addressBlock_vendorExtensions.
  - unfold usage_xml.
    destruct (registerData_out self node) as [ts g ms|e]; [|done].
    simpl. by rewrite <-!app_assoc.
Qed.

Lemma Spec_value_any p tag (v : pyval) :
  Spec (add_value p (NS tag) v) p (value_out self tag v).
Proof.
  destruct v as [|v|z]; [|apply Spec_value|];
    intros s n Hp Hn; eexists; (split; [reflexivity|done]).
Qed.

Lemma Spec_exploded p node :
  Spec (for_ (children node) (λ child,
          if negb (is_AddressableNode child) then mret tt
          else add_addressBlock self p child)) p (exploded_out self node).
Proof.
  apply Spec_for. intros child _.
  apply Spec_if; [apply Spec_skip | apply Spec_add_addressBlock].
Qed.

Lemma Spec_memoryMap p node :
  Spec (if explode node then
          mmap ← createElement (NS "memoryMap");
          add_nameGroup self mmap (inst_name (common node))
            (prop_name (common node)) (prop_desc (common node));;
          appendChild p mmap;;
          for_ (children node) (λ child,
            if negb (is_AddressableNode child) then mret tt
            else add_addressBlock self mmap child)
        else
          mmap ← createElement (NS "memoryMap");
          add_nameGroup self mmap (inst_name (common node)) None None;;
          appendChild p mmap;;
          add_addressBlock self mmap node) p (memoryMap_out self node).
Proof.
  unfold memoryMap_out. destruct (explode node).
  - apply (Spec_element_gen p _ (λ mmap, add_nameGroup self mmap _ _ _)
             (λ mmap, for_ (children node) _)).
    + intros; apply Spec_add_nameGroup.
    + intros; apply Spec_exploded.
  - apply (Spec_element_gen p _ (λ mmap, add_nameGroup self mmap _ _ _)
             (λ mmap, add_addressBlock self mmap node)).
    + intros; apply Spec_add_nameGroup.
    + intros; apply Spec_add_addressBlock.
Qed.

Lemma Spec_then (m k : M unit) p o s n :
  Spec m p o → doc s !! p = Some n → is_container n →
  match o with
  | Built ts g ms => ∃ s' ks, (m;; k) s = k s' ∧ Post s p n ks ts g ms s'
  | Failed e => ∃ s', (m;; k) s = Raise e s' ∧ files s' = files s
  end.
Proof.
  intros H Hp Hn. specialize (H s n Hp Hn). destruct o as [ts g ms|e].
  - destruct H as (s' & ks & E & P). exists s', ks.
    by rewrite (bind_Ret _ _ _ _ _ E).
  - destruct H as (s' & E & F). exists s'.
    by rewrite (bind_Raise _ _ _ _ _ E).
Qed.

Lemma component_regroup (m1 m2 m3 m4 : M unit) tag comp (body : nat → M unit)
    (k : M unit) s :
  (m1;; m2;; m3;; m4;;
   mmaps ← createElement tag; appendChild comp mmaps;; body mmaps;; k) s
  = ((m1;; m2;; m3;; m4;;
      mmaps ← createElement tag; appendChild comp mmaps;; body mmaps);; k) s.
Proof.
  unfold mbind, M_bind.
  destruct (m1 s) as [[] s1|]; [|done].
  destruct (m2 s1) as [[] s2|]; [|done].
  destruct (m3 s2) as [[] s3|]; [|done].
  destruct (m4 s3) as [[] s4|]; [|done].
  destruct (createElement tag s4) as [mmaps s5|]; [|done].
  destruct (appendChild comp mmaps s5) as [[] s6|]; [|done].
  by destruct (body mmaps s6).
Qed.

Lemma Spec_component comp node cn :
  Spec (add_value comp (NS "vendor") (vendor self);;
        add_value comp (NS "library") (library self);;
        add_value comp (NS "name") (py_or cn (inst_name (common node)));;
        add_value comp (NS "version") (version self);;
        mmaps ← createElement (NS "memoryMaps");
        appendChild comp mmaps;;
        (if explode node then
           mmap ← createElement (NS "memoryMap");
           add_nameGroup self mmap (inst_name (common node))
             (prop_name (common node)) (prop_desc (common node));;
           appendChild mmaps mmap;;
           for_ (children node) (λ child,
             if negb (is_AddressableNode child) then mret tt
             else add_addressBlock self mmap child)
         else
           mmap ← createElement (NS "memoryMap");
           add_nameGroup self mmap (inst_name (common node)) None None;;
           appendChild mmaps mmap;;
           add_addressBlock self mmap node)) comp (component_out self node cn).
Proof.
  unfold component_out.
  apply Spec_seq; [apply Spec_value_any|].
  apply Spec_seq; [apply Spec_value_any|].
  apply Spec_seq; [apply Spec_value_any|].
  apply Spec_seq; [apply Spec_value_any|].
  apply Spec_element. intros mmaps. apply Spec_memoryMap.
Qed.

(** What [export] does once its arguments have been accepted: it builds
    the component, opens the file and writes the document. *)
Lemma export_spec node path kw s cn tn :
  pop "component_name" PNone kw = (cn, []) →
  export_top node = Some tn →
  is_AddrmapNode tn || is_MemNode tn →
  known_standard self →
  match component_out self tn cn with
  | Built ts g ms =>
      ∃ s', messages s' = messages s ++ bridge_warning tn ++ ms ∧
        if writable path then
          match writexml_error (xml_indent self) (xml_newline self) with
          | None =>
              export self node path kw s = Ret tt s' ∧
              files s' = (path, {| written := Some (document_xml self ts);
                                   addindent := xml_indent self;
                                   newl := xml_newline self;
                                   encoding := "UTF-8" |}) :: files s
          | Some e =>
              export self node path kw s = Raise e s' ∧
              files s' = (path, {| written := None;
                                   addindent := xml_indent self;
                                   newl := xml_newline self;
                                   encoding := "UTF-8" |}) :: files s
          end
        else
          export self node path kw s = Raise OSError s' ∧ files s' = files s
  | Failed e =>
      ∃ s', export self node path kw s = Raise e s' ∧ files s' = files s
  end.
Proof.
  intros Hpop Htop Hkind Hstd. unfold export. rewrite Hpop.
  assert ((if is_RootNode node
           then match top node with
                | Some t => mret t
                | None => raise RuntimeError
                end
           else mret node) s = Ret tn s) as Etop.
  { unfold export_top in Htop. destruct (is_RootNode node).
    - by rewrite Htop.
    - by injection Htop as ->. }
  rewrite (bind_Ret _ _ _ _ _ Etop).
  destruct (is_AddrmapNode tn || is_MemNode tn) eqn:Ek; [clear Hkind|done].
  change (negb true) with false. cbv iota.
  set (sw := if is_AddrmapNode tn && has_bridge tn
             then add_message (Warning bridge_msg) s else s).
  assert (when (is_AddrmapNode tn && has_bridge tn) (msg_warning bridge_msg) s
          = Ret tt sw) as Ew.
  { unfold sw. by destruct (is_AddrmapNode tn && has_bridge tn). }
  rewrite (bind_Ret _ _ _ _ _ Ew).
  assert (files sw = files s ∧ messages sw = messages s ++ bridge_warning tn)
    as [Fw Mw].
  { unfold sw, bridge_warning.
    destruct (is_AddrmapNode tn && has_bridge tn); simpl; [done|].
    by rewrite app_nil_r. }
  set (sc := set_doc [Document [1%nat; 2%nat]; Comment generator_comment;
                      Element (NS "component") (component_attrs self) []] sw).
  set (tail := open_w path;;
               writexml path 0 (xml_indent self) (xml_newline self) "UTF-8").
  pose proof (Spec_component 2 tn cn) as Hc.
  match type of Hc with
  | Spec ?m _ _ =>
      match goal with
      | |- match _ with Built _ _ _ => _ | Failed _ => ∃ s', ?run = _ ∧ _ end =>
          assert (run = (m;; tail) sc) as Hrun
      end
  end.
  { unfold tail. rewrite <-component_regroup.
    unfold sc, component_attrs, known_standard in *.
    destruct Hstd as [H|H]; rewrite H; reflexivity. }
  rewrite Hrun. clear Hrun.
  assert (doc sc !! 2%nat = Some (Element (NS "component") (component_attrs self) []))
    as Hcomp by done.
  pose proof (Spec_then _ tail _ _ _ _ Hc Hcomp I) as Hthen.
  destruct (component_out self tn cn) as [ts g ms|e].
  2:{ destruct Hthen as (s' & E & F). exists s'. split; [done|]. by rewrite F. }
  destruct Hthen as (s' & ks & E & P). rewrite E.
  destruct P as [L Par Fr K W Ms F]. simpl in Par.
  assert (repr (doc s') 0 0 (document_xml self ts)) as Hrepr.
  { apply repr_document with (cs := [1%nat; 2%nat]); [done| |].
    - by rewrite Fr by (simpl; lia).
    - constructor; [|constructor; [|constructor]].
      + constructor; [done|]. by rewrite Fr by (simpl; lia).
      + econstructor; [lia | exact Par |]. exact K. }
  assert (messages s' = messages s ++ bridge_warning tn ++ ms) as Hms.
  { rewrite Ms. simpl. by rewrite Mw, app_assoc. }
  assert (files s' = files s) as Hfs by (by rewrite F).
  unfold tail, open_w. destruct (writable path).
  2:{ by exists s'. }
  erewrite (bind_Ret (mret tt)) by reflexivity. unfold writexml.
  erewrite (bind_Ret (gets doc)) by reflexivity.
  rewrite (repr_tree_of _ _ _ _ _ Hrepr) by lia.
  destruct (writexml_error (xml_indent self) (xml_newline self)) as [e|];
    eexists; (split; [|split; [reflexivity|]]); simpl; by rewrite ?Hms, ?Hfs.
Qed.

(** ** Outcomes of sequences *)

Lemma seq_Built_inv o1 o2 ts g ms :
  seq o1 o2 = Built ts g ms →
  ∃ ts1 g1 ms1 ts2 g2 ms2,
    o1 = Built ts1 g1 ms1 ∧ o2 = Built ts2 g2 ms2 ∧
    ts = ts1 ++ ts2 ∧ g = (λ mw, g2 (g1 mw)) ∧ ms = ms1 ++ ms2.
Proof.
  destruct o1 as [ts1 g1 ms1|], o2 as [ts2 g2 ms2|]; simpl; try done.
  intros [= <- <- <-]. by exists ts1, g1, ms1, ts2, g2, ms2.
Qed.

(** ** The algebra of the running maximum *)

Lemma opt_max_comm a b : opt_max a b = opt_max b a.
Proof. destruct a, b; simpl; try done. by rewrite Z.max_comm. Qed.

Lemma opt_max_assoc a b c : opt_max a (opt_max b c) = opt_max (opt_max a b) c.
Proof. destruct a, b, c; simpl; try done. by rewrite Z.max_assoc. Qed.

Lemma opt_max_None_r a : opt_max a None = a.
Proof. by destruct a. Qed.

Lemma widen_opt_max regwidth mw : widen regwidth mw = opt_max (Some regwidth) mw.
Proof. by destruct mw. Qed.

Lemma max_width_of_cons w l :
  max_width_of (w :: l) = opt_max (Some w) (max_width_of l).
Proof. done. Qed.

Lemma max_over_cons {A} (W : A → option Z) x l :
  max_over W (x :: l) = opt_max (W x) (max_over W l).
Proof. done. Qed.

Lemma max_width_of_app l1 l2 :
  max_width_of (l1 ++ l2) = opt_max (max_width_of l1) (max_width_of l2).
Proof.
  induction l1 as [|w l1 IH]; [done|].
  rewrite <-app_comm_cons, !max_width_of_cons. by rewrite IH, opt_max_assoc.
Qed.

Lemma max_width_of_flat_map {A} (f : A → Z) (h : A → list A) (l : list A) :
  max_width_of (map f (flat_map h l)) = max_over (λ x, max_width_of (map f (h x))) l.
Proof.
  induction l as [|x l IH]; [done|].
  rewrite max_over_cons. cbn [flat_map]. by rewrite map_app, max_width_of_app, IH.
Qed.

Lemma max_over_opt_max {A} (W1 W2 : A → option Z) (l : list A) :
  max_over (λ x, opt_max (W1 x) (W2 x)) l = opt_max (max_over W1 l) (max_over W2 l).
Proof.
  induction l as [|x l IH]; [done|]. rewrite !max_over_cons, IH.
  rewrite <-!opt_max_assoc. f_equal.
  rewrite !opt_max_assoc. f_equal. apply opt_max_comm.
Qed.

Lemma max_over_ext {A} (W1 W2 : A → option Z) (l : list A) :
  (∀ x, x ∈ l → W1 x = W2 x) → max_over W1 l = max_over W2 l.
Proof.
  induction l as [|x l IH]; intros H; [done|]. rewrite !max_over_cons.
  rewrite H by left. rewrite IH; [done|]. intros; apply H; by right.
Qed.

Lemma forallb_flat_map {A B} (f : B → bool) (h : A → list B) (l : list A) :
  forallb f (flat_map h l) = forallb (λ x, forallb f (h x)) l.
Proof.
  induction l as [|x l IH]; [done|]. simpl. by rewrite forallb_app, IH.
Qed.

Lemma forallb_andb {A} (f g : A → bool) (l : list A) :
  forallb (λ x, f x && g x) l = forallb f l && forallb g l.
Proof.
  induction l as [|x l IH]; [done|]. simpl. rewrite IH.
  destruct (f x), (g x), (forallb f l), (forallb g l); done.
Qed.

Lemma forallb_ext_in {A} (f g : A → bool) (l : list A) :
  (∀ x, x ∈ l → f x = g x) → forallb f l = forallb g l.
Proof.
  induction l as [|x l IH]; intros H; [done|]. simpl.
  rewrite H by left. rewrite IH; [done|]. intros; apply H; by right.
Qed.

(** ** Summaries *)

Lemma summary_skip ts ms : summary (Built ts id ms) true None.
Proof. done. Qed.

Lemma summary_seq o1 o2 b1 b2 W1 W2 :
  summary o1 b1 W1 → summary o2 b2 W2 →
  summary (seq o1 o2) (b1 && b2) (opt_max W1 W2).
Proof.
  destruct o1 as [ts1 g1 ms1|e1], o2 as [ts2 g2 ms2|e2]; simpl;
    intros [-> H1] [-> H2]; try done.
  split; [done|]. intros mw. rewrite H2, H1.
  rewrite (opt_max_comm W1 W2). by rewrite opt_max_assoc.
Qed.

Lemma summary_seqs {A} (f : A → Outcome) (b : A → bool) (W : A → option Z) l :
  (∀ x, x ∈ l → summary (f x) (b x) (W x)) →
  summary (seqs (map f l)) (forallb b l) (max_over W l).
Proof.
  induction l as [|x l IH]; intros H; [done|].
  rewrite max_over_cons. cbn [map seqs foldr forallb].
  apply summary_seq; [apply H; left | apply IH; intros; apply H; by right].
Qed.

Lemma summary_wrap tag o b W : summary o b W → summary (wrap tag o) b W.
Proof. by destruct o. Qed.

Lemma registers_beneath_unfold node :
  registers_beneath node =
  flat_map (λ child,
    if is_RegNode child then [child]
    else if is_AddrmapNode child || is_RegfileNode child
    then registers_beneath child
    else []) (children node).
Proof. by destruct node. Qed.

Lemma summary_register node :
  is_RegNode node →
  summary (register_out self node) (register_ok node) (Some (regwidth_of node)).
Proof.
  unfold is_RegNode, register_out, register_ok, regwidth_of, stride_ok.
  destruct (kind node) as [| | | |a regwidth| |]; try done. intros _.
  destruct (array a) as [arr|]; [destruct (8 * array_stride arr =? regwidth)|];
    simpl; try done; (split; [done|]); intros; apply widen_opt_max.
Qed.

Lemma group_addressable node :
  is_AddrmapNode node || is_RegfileNode node → is_Some (addressable node).
Proof.
  unfold is_AddrmapNode, is_RegfileNode, addressable.
  destruct (kind node); simpl; try done; by eexists.
Qed.

Lemma summary_registerFile node b W :
  is_AddrmapNode node || is_RegfileNode node →
  summary (registerData_out self node) b W →
  summary (registerFile_out self node) b W.
Proof.
  intros Hg H. rewrite registerFile_out_unfold.
  destruct (group_addressable _ Hg) as [a ->].
  apply summary_wrap.
  apply (summary_seq _ _ true b None W); [apply summary_skip | done].
Qed.

(** The registers one child adds beneath its parent. *)
Lemma summary_registerData node :
  known_standard self →
  summary (registerData_out self node)
    (forallb register_ok (registers_beneath node))
    (max_width_of (map regwidth_of (registers_beneath node))).
Proof.
  intros Hstd. induction node as [k c cs IH] using Node_ind'.
  rewrite registers_beneath_unfold, forallb_flat_map, max_width_of_flat_map.
  unfold registerData_out, registerData_out_. simpl children.
  rewrite Forall_forall in IH.
  assert (∀ x, x ∈ cs → is_AddrmapNode x || is_RegfileNode x →
               summary (registerFile_out self x)
                 (forallb register_ok (registers_beneath x))
                 (max_width_of (map regwidth_of (registers_beneath x)))) as Hgroup.
  { intros x Hin Hg. apply summary_registerFile; [done | by apply IH]. }
  assert (∀ x, is_RegNode x →
               summary (register_out self x) (forallb register_ok [x])
                 (max_width_of (map regwidth_of [x]))) as Hreg.
  { intros x Hx. simpl. rewrite andb_true_r. by apply summary_register. }
  destruct Hstd as [H|H]; rewrite H; simpl.
  - (* 2009: the registers, then the groups *)
    erewrite forallb_ext_in, max_over_ext; cycle 1.
    + intros x _.
      instantiate (1 := λ x, opt_max
        (max_width_of (map regwidth_of (if is_RegNode x then [x] else [])))
        (max_width_of (map regwidth_of
           (if is_AddrmapNode x || is_RegfileNode x
            then registers_beneath x else [])))).
      simpl. unfold is_RegNode, is_AddrmapNode, is_RegfileNode.
      destruct (kind x); simpl; by rewrite ?opt_max_None_r.
    + intros x _.
      instantiate (1 := λ x,
        forallb register_ok (if is_RegNode x then [x] else [])
        && forallb register_ok (if is_AddrmapNode x || is_RegfileNode x
                                then registers_beneath x else [])).
      simpl. unfold is_RegNode, is_AddrmapNode, is_RegfileNode.
      destruct (kind x); simpl; by rewrite ?andb_true_r.
    + rewrite forallb_andb, max_over_opt_max.
      apply summary_seq; apply summary_seqs; intros x Hin.
      * unfold child_reg_out. destruct (is_RegNode x) eqn:Ex;
          [by apply Hreg; rewrite Ex | done].
      * unfold child_group_out.
        destruct (is_AddrmapNode x || is_RegfileNode x) eqn:Ex;
          [by apply Hgroup; rewrite ?Ex|].
        by destruct (is_MemNode x).
  - (* 2014: in source order *)
    apply summary_seqs. intros x Hin. unfold child_out.
    destruct (is_RegNode x) eqn:Ex; [by apply Hreg; rewrite Ex|].
    destruct (is_AddrmapNode x || is_RegfileNode x) eqn:Eg;
      [by apply Hgroup; rewrite ?Eg|].
    by destruct (is_MemNode x).
Qed.

(** ** Tags *)

Lemma eqb_append pre a b : String.eqb (pre +:+ a) (pre +:+ b) = String.eqb a b.
Proof.
  induction pre as [|c pre IH]; [done|]. simpl. by rewrite Ascii.eqb_refl.
Qed.

Lemma has_tag_value tag tag' v :
  has_tag (NS tag) (value_xml self tag' v) = String.eqb tag' tag.
Proof. apply eqb_append. Qed.

Lemma has_tag_element tag tag' attrs kids :
  has_tag (NS tag) (XElement (NS tag') attrs kids) = String.eqb tag' tag.
Proof. apply eqb_append. Qed.

Lemma tagged_nil L : tagged (ns self) L [].
Proof. constructor. Qed.

Lemma tagged_mono L L' ts : tagged (ns self) L ts → L ⊆ L' → tagged (ns self) L' ts.
Proof.
  intros H Hsub. eapply Forall_impl; [exact H|].
  intros t (nm & Hin & Ht). exists nm. split; [by apply Hsub | done].
Qed.

Lemma tagged_app L ts1 ts2 :
  tagged (ns self) L ts1 → tagged (ns self) L ts2 → tagged (ns self) L (ts1 ++ ts2).
Proof. apply Forall_app_2. Qed.

Lemma tagged_cons L tag attrs kids ts :
  tag ∈ L → tagged (ns self) L ts →
  tagged (ns self) L (XElement (NS tag) attrs kids :: ts).
Proof.
  intros Hin H. constructor; [|done]. exists tag. split; [done|].
  simpl. by rewrite String.eqb_refl.
Qed.

Lemma filter_tagged L tag ts :
  tagged (ns self) L ts → tag ∉ L → List.filter (has_tag (NS tag)) ts = [].
Proof.
  intros H Hnot. induction H as [|t ts (nm & Hin & Ht) _ IH]; [done|].
  simpl. rewrite IH. destruct t as [|tag' attrs kids| |]; try done.
  simpl in *. apply Is_true_true, String.eqb_eq in Ht. subst tag'.
  rewrite eqb_append. destruct (String.eqb_spec nm tag); [by subst|done].
Qed.

Lemma tagged_nameGroup name displayName description :
  tagged (ns self) ["name"; "displayName"; "description"]
    (nameGroup_xml self name displayName description).
Proof.
  unfold nameGroup_xml, value_xml.
  destruct displayName, description; simpl;
    repeat (apply tagged_cons; [in_list|]); apply tagged_nil.
Qed.

Lemma tagged_isPresent c : tagged (ns self) ["isPresent"] (isPresent_xml self c).
Proof.
  unfold isPresent_xml, value_xml.
  destruct (_ && _); [apply tagged_cons; [in_list|]|]; apply tagged_nil.
Qed.

Lemma tagged_dims a : tagged (ns self) ["dim"] (dims_xml self a).
Proof.
  unfold dims_xml. destruct (array a) as [arr|]; [|apply tagged_nil].
  induction (array_dimensions arr); [apply tagged_nil|].
  simpl. apply tagged_cons; [in_list | done].
Qed.

Lemma tagged_usage node : tagged (ns self) ["usage"; "access"] (usage_xml self node).
Proof.
  unfold usage_xml, value_xml. destruct (kind node);
    repeat (apply tagged_cons; [in_list|]); apply tagged_nil.
Qed.

Lemma tagged_register_reset fs :
  tagged (ns self) ["reset"] (register_reset_xml self fs).
Proof.
  unfold register_reset_xml. destruct (standard self <=? _); [|apply tagged_nil].
  destruct (reset_and_mask fs) as [reset mask].
  destruct (negb _); [apply tagged_cons; [in_list|]|]; apply tagged_nil.
Qed.

Lemma tagged_fields (fs : list (Common * FieldInfo)) :
  tagged (ns self) ["field"] (map (λ f, field_xml self (fst f) (snd f)) fs).
Proof.
  induction fs; [apply tagged_nil|].
  simpl. unfold field_xml at 1. apply tagged_cons; [in_list | done].
Qed.

Lemma tagged_register node ts g ms :
  register_out self node = Built ts g ms → tagged (ns self) ["register"] ts.
Proof.
  unfold register_out. destruct (kind node); try done.
  destruct (stride_ok _ _); [|done]. intros [= <- _ _].
  apply tagged_cons; [in_list | apply tagged_nil].
Qed.

Lemma tagged_registerFile node ts g ms :
  registerFile_out self node = Built ts g ms → tagged (ns self) ["registerFile"] ts.
Proof.
  rewrite registerFile_out_unfold. destruct (addressable node); [|done].
  simpl. destruct (registerData_out self node); [|done]. intros [= <- _ _].
  apply tagged_cons; [in_list | apply tagged_nil].
Qed.

Lemma tagged_seqs {A} L (f : A → Outcome) (l : list A) ts g ms :
  (∀ x ts g ms, x ∈ l → f x = Built ts g ms → tagged (ns self) L ts) →
  seqs (map f l) = Built ts g ms → tagged (ns self) L ts.
Proof.
  revert ts g ms. induction l as [|x l IH]; intros ts g ms H; simpl.
  - intros [= <- _ _]. apply tagged_nil.
  - intros E. apply seq_Built_inv in E
      as (ts1 & g1 & ms1 & ts2 & g2 & ms2 & E1 & E2 & -> & _ & _).
    apply tagged_app.
    + eapply H; [left | exact E1].
    + eapply IH; [|exact E2]. intros; eapply H; [by right | done].
Qed.

Lemma tagged_registerData node ts g ms :
  registerData_out self node = Built ts g ms →
  tagged (ns self) ["register"; "registerFile"] ts.
Proof.
  unfold registerData_out, registerData_out_.
  assert (∀ x ts g ms, child_out self (registerFile_out self) x = Built ts g ms →
                       tagged (ns self) ["register"; "registerFile"] ts) as Hc.
  { intros x ts' g' ms'. unfold child_out.
    destruct (is_RegNode x).
    { intros E. eapply tagged_mono; [by eapply tagged_register | sub_list]. }
    destruct (_ || _).
    { intros E. eapply tagged_mono; [by eapply tagged_registerFile | sub_list]. }
    destruct (is_MemNode x); intros [= <- _ _]; apply tagged_nil. }
  destruct (standard self =? IEEE_1685_2014).
  { apply tagged_seqs. intros; by eapply Hc. }
  destruct (standard self =? IEEE_1685_2009); [|done].
  intros E. apply seq_Built_inv in E
    as (ts1 & g1 & ms1 & ts2 & g2 & ms2 & E1 & E2 & -> & _ & _).
  apply tagged_app.
  - eapply tagged_seqs; [|exact E1]. intros x ts' g' ms' _. unfold child_reg_out.
    destruct (is_RegNode x).
    + intros E. eapply tagged_mono; [by eapply tagged_register | sub_list].
    + intros [= <- _ _]; apply tagged_nil.
  - eapply tagged_seqs; [|exact E2]. intros x ts' g' ms' _. unfold child_group_out.
    destruct (_ || _).
    { intros E. eapply tagged_mono; [by eapply tagged_registerFile | sub_list]. }
    destruct (is_MemNode x); intros [= <- _ _]; apply tagged_nil.
Qed.

(** ** Claims *)

Lemma registerData_out_ok node :
  known_standard self →
  forallb register_ok (registers_beneath node) = true →
  ∃ ts g ms,
    registerData_out self node = Built ts g ms ∧
    (∀ mw, g mw = opt_max (max_width_of (map regwidth_of (registers_beneath node))) mw) ∧
    tagged (ns self) ["register"; "registerFile"] ts.
Proof.
  intros Hstd Hok. pose proof (summary_registerData node Hstd) as Hs.
  destruct (registerData_out self node) as [ts g ms|e] eqn:E.
  - exists ts, g, ms. destruct Hs as [_ Hg]. split_and!; [done|done|].
    by eapply tagged_registerData.
  - destruct Hs as [Hs _]. congruence.
Qed.

(** C1.  The width of an address block: the block has one width element,
    whose single text is the widest register rendered beneath the block,
    else the word width of the memory, else 32; this holds whatever the
    running maximum was when the block was started, and rendering the
    subtree leaves every older node but its parent, the empty width element
    among them, as it was. *)
Theorem address_block_width p node s n a :
  known_standard self →
  doc s !! p = Some n → is_container n →
  addressable node = Some a →
  forallb register_ok (registers_beneath node) = true →
  ∃ s' ab kids,
    add_addressBlock self p node s = Ret tt s' ∧
    doc s' !! p = Some (add_kids n [ab]) ∧
    repr (doc s') (length (doc s)) ab (XElement (NS "addressBlock") [] kids) ∧
    List.filter (has_tag (NS "width")) kids
      = [XElement (NS "width") [] [XText (fmt_d (block_width node))]] ∧
    (∀ parent w s1 s2 m,
       doc s1 !! parent = Some m → is_container m →
       (w < length (doc s1))%nat → w ≠ parent →
       add_registerData self parent node s1 = Ret tt s2 →
       doc s2 !! w = doc s1 !! w).
Proof.
  intros Hstd Hp Hn Ha Hok.
  destruct (registerData_out_ok node Hstd Hok) as (ts & g & ms & E & Hg & Ht).
  pose proof (Spec_add_addressBlock p node s n Hp Hn) as H.
  unfold addressBlock_out in H. rewrite Ha, E in H.
  destruct H as (s' & ks & Er & P). destruct P as [L Par Fr K W Ms F].
  apply Forall2_cons_inv_r in K as (ab & ks' & Hab & K & ->).
  apply Forall2_nil_inv_r in K as ->.
  eexists s', ab, _. split_and!; [done | done | exact Hab | |].
  - rewrite Hg, opt_max_None_r.
    change (resolved_width node
              (max_width_of (map regwidth_of (registers_beneath node))))
      with (block_width node).
    rewrite !List.filter_app.
    rewrite (filter_tagged _ "width" _ (tagged_nameGroup _ _ _)) by not_in_list.
    rewrite (filter_tagged _ "width" _ (tagged_isPresent _)) by not_in_list.
    rewrite (filter_tagged _ "width" _ (tagged_usage _)) by not_in_list.
    rewrite (filter_tagged _ "width" _ Ht) by not_in_list.
    cbn [List.filter app]. rewrite !has_tag_value. simpl. done.
  - intros parent w s1 s2 m Hpar Hm Hw Hne Hrun.
    pose proof (Spec_add_registerData parent node s1 m Hpar Hm) as H.
    rewrite E in H. destruct H as (s2' & ks2 & Er2 & P2).
    rewrite Hrun in Er2. injection Er2 as <-.
    by apply (post_frame _ _ _ _ _ _ _ _ P2).
Qed.

Lemma Spec_emits (m : nat → M unit) tag kids g ms (P : list xml → Prop) :
  (∀ p, Spec (m p) p (Built [XElement tag [] kids] g ms)) →
  P kids → emits m tag P.
Proof.
  intros H HP p s n Hp Hn. destruct (H p s n Hp Hn) as (s' & ks & E & Q).
  destruct Q as [L Par Fr K W Ms F].
  apply Forall2_cons_inv_r in K as (k & ks' & Hk & K & ->).
  apply Forall2_nil_inv_r in K as ->.
  by exists s', k, kids.
Qed.

Lemma register_out_built node a regwidth :
  kind node = RegNode a regwidth → register_ok node = true →
  register_out self node =
  Built [XElement (NS "register") []
           (nameGroup_xml self (get_name node)
              (prop_name (common node)) (prop_desc (common node))
            ++ isPresent_xml self (common node)
            ++ dims_xml self a
            ++ [value_xml self "addressOffset" (hex_str self (raw_address_offset a));
                value_xml self "size" (fmt_d regwidth)]
            ++ register_reset_xml self (fields node)
            ++ map (λ f, field_xml self (fst f) (snd f)) (fields node))]
        (widen regwidth) [].
Proof.
  unfold register_out, register_ok, stride_ok. intros -> Hok. by rewrite Hok.
Qed.

Lemma registerFile_out_built node a :
  known_standard self →
  addressable node = Some a →
  forallb register_ok (registers_beneath node) = true →
  ∃ ts g ms,
    tagged (ns self) ["register"; "registerFile"] ts ∧
    registerData_out self node = Built ts g ms ∧
    registerFile_out self node =
    Built [XElement (NS "registerFile") []
             (nameGroup_xml self (get_name node)
                (prop_name (common node)) (prop_desc (common node))
              ++ isPresent_xml self (common node)
              ++ dims_xml self a
              ++ [value_xml self "addressOffset" (hex_str self (raw_address_offset a));
                  value_xml self "range"
                    (hex_str self (match array a with
                                   | Some arr => array_stride arr
                                   | None => size a
                                   end))]
              ++ ts)] g ms.
Proof.
  intros Hstd Ha Hok.
  destruct (registerData_out_ok node Hstd Hok) as (ts & g & ms & E & Hg & Ht).
  exists ts, g, ms. split_and!; [done | done |].
  rewrite registerFile_out_unfold, Ha, E. simpl. by rewrite <-!app_assoc.
Qed.

Lemma addressBlock_out_built node a :
  known_standard self →
  addressable node = Some a →
  forallb register_ok (registers_beneath node) = true →
  ∃ ts g ms,
    tagged (ns self) ["register"; "registerFile"] ts ∧
    registerData_out self node = Built ts g ms ∧
    addressBlock_out self node =
    Built [XElement (NS "addressBlock") []
             (nameGroup_xml self (get_name node)
                (prop_name (common node)) (prop_desc (common node))
              ++ isPresent_xml self (common node)
              ++ [value_xml self "baseAddress" (hex_str self (absolute_address a));
                  value_xml self "range" (hex_str self (size a));
                  value_xml self "width" (fmt_d (block_width node))]
              ++ usage_xml self node
              ++ ts)]
          (λ _, final_max_width node
                  (max_width_of (map regwidth_of (registers_beneath node)))) ms.
Proof.
  intros Hstd Ha Hok.
  destruct (registerData_out_ok node Hstd Hok) as (ts & g & ms & E & Hg & Ht).
  exists ts, g, ms. split_and!; [done | done |].
  unfold addressBlock_out. rewrite Ha, E, Hg, opt_max_None_r. done.
Qed.

Lemma tagged_field_reset f : tagged (ns self) ["resets"] (field_reset_xml self f).
Proof.
  unfold field_reset_xml. destruct (_ <=? _); [|apply tagged_nil].
  destruct (prop_reset f); [apply tagged_cons; [in_list|]|]; apply tagged_nil.
Qed.

Lemma tagged_field_tail f :
  tagged (ns self)
    ["bitWidth"; "volatile"; "access"; "enumeratedValues";
     "modifiedWriteValue"; "readAction"; "testable"]
    (field_tail_xml self f).
Proof.
  unfold field_tail_xml, value_xml.
  destruct (is_volatile f), (prop_encode f), (prop_onwrite f), (prop_onread f),
    (prop_donttest f); simpl;
    repeat (apply tagged_cons; [in_list|]); apply tagged_nil.
Qed.

(** C7.  The presence marker.  Each of the four emitters (address block,
    register file, register, field) gives its element an isPresent child,
    with text 0, exactly when the dialect is 2014 or later and the node's
    ispresent property is false; otherwise the element has no isPresent
    child at all. *)
Theorem presence_marker (node : Node) (c : Common) (f : FieldInfo) a regwidth :
  known_standard self →
  addressable node = Some a →
  forallb register_ok (registers_beneath node) = true →
  let marker (c : Common) (kids : list xml) :=
    List.filter (has_tag (NS "isPresent")) kids =
    if (IEEE_1685_2014 <=? standard self) && negb (prop_ispresent c)
    then [XElement (NS "isPresent") [] [XText "0"]] else [] in
  emits (λ p, add_addressBlock self p node) (NS "addressBlock") (marker (common node)) ∧
  emits (λ p, add_registerFile self p node) (NS "registerFile") (marker (common node)) ∧
  (kind node = RegNode a regwidth → register_ok node = true →
   emits (λ p, add_register self p node) (NS "register") (marker (common node))) ∧
  emits (λ p, add_field self p c f) (NS "field") (marker c).
Proof.
  intros Hstd Ha Hok marker.
  assert (∀ c, List.filter (has_tag (NS "isPresent")) (isPresent_xml self c) =
               if (IEEE_1685_2014 <=? standard self) && negb (prop_ispresent c)
               then [XElement (NS "isPresent") [] [XText "0"]] else []) as Hip.
  { intros c'. unfold isPresent_xml. destruct (_ && _); [|done].
    cbn [List.filter]. rewrite has_tag_value. done. }
  split_and!.
  - destruct (addressBlock_out_built node a Hstd Ha Hok) as (ts & g & ms & Ht & _ & E).
    eapply Spec_emits.
    { intros p. rewrite <-E. apply Spec_add_addressBlock. }
    unfold marker. rewrite !List.filter_app, Hip.
    rewrite (filter_tagged _ "isPresent" _ (tagged_nameGroup _ _ _)) by not_in_list.
    rewrite (filter_tagged _ "isPresent" _ (tagged_usage _)) by not_in_list.
    rewrite (filter_tagged _ "isPresent" _ Ht) by not_in_list.
    cbn [List.filter app]. rewrite !has_tag_value. simpl. by rewrite app_nil_r.
  - destruct (registerFile_out_built node a Hstd Ha Hok) as (ts & g & ms & Ht & _ & E).
    eapply Spec_emits.
    { intros p. rewrite <-E. apply Spec_add_registerFile. }
    unfold marker. rewrite !List.filter_app, Hip.
    rewrite (filter_tagged _ "isPresent" _ (tagged_nameGroup _ _ _)) by not_in_list.
    rewrite (filter_tagged _ "isPresent" _ (tagged_dims _)) by not_in_list.
    rewrite (filter_tagged _ "isPresent" _ Ht) by not_in_list.
    cbn [List.filter app]. rewrite !has_tag_value. simpl. by rewrite app_nil_r.
  - intros Hk Hrok. eapply Spec_emits.
    { intros p. rewrite <-(register_out_built node a regwidth Hk Hrok).
      apply Spec_add_register. }
    unfold marker. rewrite !List.filter_app, Hip.
    rewrite (filter_tagged _ "isPresent" _ (tagged_nameGroup _ _ _)) by not_in_list.
    rewrite (filter_tagged _ "isPresent" _ (tagged_dims _)) by not_in_list.
    rewrite (filter_tagged _ "isPresent" _ (tagged_register_reset _)) by not_in_list.
    rewrite (filter_tagged _ "isPresent" _ (tagged_fields _)) by not_in_list.
    cbn [List.filter app]. rewrite !has_tag_value. simpl. by rewrite app_nil_r.
  - eapply Spec_emits.
    { intros p. apply Spec_add_field. }
    unfold marker. rewrite !List.filter_app, Hip.
    rewrite (filter_tagged _ "isPresent" _ (tagged_nameGroup _ _ _)) by not_in_list.
    rewrite (filter_tagged _ "isPresent" _ (tagged_field_reset _)) by not_in_list.
    rewrite (filter_tagged _ "isPresent" _ (tagged_field_tail _)) by not_in_list.
    cbn [List.filter app]. rewrite !has_tag_value. simpl. by rewrite app_nil_r.
Qed.

(** C10.  The range of a register file.  For an arrayed node the element
    holds, after the name group and the presence marker, one dim per array
    dimension in order, the address offset, and a range that is the array
    stride; for a node that is not arrayed there is no dim and the range is
    the size of the node.  The children after the range are registers and
    register files only. *)
Theorem register_file_range node a :
  known_standard self →
  addressable node = Some a →
  forallb register_ok (registers_beneath node) = true →
  emits (λ p, add_registerFile self p node) (NS "registerFile") (λ kids,
    ∃ rest,
      tagged (ns self) ["register"; "registerFile"] rest ∧
      kids =
        nameGroup_xml self (inst_name (common node))
          (prop_name (common node)) (prop_desc (common node))
        ++ isPresent_xml self (common node)
        ++ match array a with
           | Some arr =>
               map (λ dim, XElement (NS "dim") [] [XText (fmt_d dim)])
                 (array_dimensions arr)
               ++ [XElement (NS "addressOffset") []
                     [XText (hex_str self (raw_address_offset a))];
                   XElement (NS "range") []
                     [XText (hex_str self (array_stride arr))]]
           | None =>
               [XElement (NS "addressOffset") []
                  [XText (hex_str self (raw_address_offset a))];
                XElement (NS "range") [] [XText (hex_str self (size a))]]
           end
        ++ rest).
Proof.
  intros Hstd Ha Hok.
  destruct (registerFile_out_built node a Hstd Ha Hok) as (ts & g & ms & Ht & _ & E).
  eapply Spec_emits.
  { intros p. rewrite <-E. apply Spec_add_registerFile. }
  exists ts. split; [done|]. unfold dims_xml, get_name.
  destruct (array a); simpl; by rewrite <-?app_assoc.
Qed.

(** The loop of [add_register] computes the two ORs of the specification. *)
Lemma reset_and_mask_fold fs reset mask :
  fold_left reset_step fs (reset, mask)
  = (Z.lor reset (spec_reset fs), Z.lor mask (spec_mask fs)).
Proof.
  revert reset mask. induction fs as [|f fs IH]; intros reset mask.
  - simpl. by rewrite !Z.lor_0_r.
  - simpl. unfold spec_reset, spec_mask. simpl.
    destruct (prop_reset (snd f)) as [field_reset|]; simpl.
    + rewrite IH. unfold spec_reset, spec_mask, field_mask.
      by rewrite !Z.lor_assoc.
    + apply IH.
Qed.

Lemma reset_and_mask_spec fs : reset_and_mask fs = (spec_reset fs, spec_mask fs).
Proof. unfold reset_and_mask. by rewrite reset_and_mask_fold, !Z.lor_0_l. Qed.

Lemma filter_tagged_all tag ts :
  tagged (ns self) [tag] ts → List.filter (has_tag (NS tag)) ts = ts.
Proof.
  intros H. induction H as [|t ts (nm & Hin & Ht) _ IH]; [done|].
  apply list_elem_of_singleton in Hin as ->.
  simpl. rewrite IH. by destruct (has_tag (NS tag) t).
Qed.

Lemma field_resets c f :
  kids_with (NS "resets") (field_xml self c f) = field_reset_xml self f.
Proof.
  unfold kids_with, field_xml, kids_of. rewrite !List.filter_app.
  rewrite (filter_tagged _ "resets" _ (tagged_nameGroup _ _ _)) by not_in_list.
  rewrite (filter_tagged _ "resets" _ (tagged_isPresent _)) by not_in_list.
  rewrite (filter_tagged _ "resets" _ (tagged_field_tail _)) by not_in_list.
  rewrite (filter_tagged_all _ _ (tagged_field_reset _)).
  cbn [List.filter app]. rewrite !has_tag_value. simpl. by rewrite app_nil_r.
Qed.

Lemma register_kids_reset a regwidth node :
  List.filter (has_tag (NS "reset"))
    (nameGroup_xml self (get_name node)
       (prop_name (common node)) (prop_desc (common node))
     ++ isPresent_xml self (common node)
     ++ dims_xml self a
     ++ [value_xml self "addressOffset" (hex_str self (raw_address_offset a));
         value_xml self "size" (fmt_d regwidth)]
     ++ register_reset_xml self (fields node)
     ++ map (λ f, field_xml self (fst f) (snd f)) (fields node))
  = register_reset_xml self (fields node).
Proof.
  rewrite !List.filter_app.
  rewrite (filter_tagged _ "reset" _ (tagged_nameGroup _ _ _)) by not_in_list.
  rewrite (filter_tagged _ "reset" _ (tagged_isPresent _)) by not_in_list.
  rewrite (filter_tagged _ "reset" _ (tagged_dims _)) by not_in_list.
  rewrite (filter_tagged _ "reset" _ (tagged_fields _)) by not_in_list.
  rewrite (filter_tagged_all _ _ (tagged_register_reset _)).
  cbn [List.filter app]. rewrite !has_tag_value. simpl. by rewrite app_nil_r.
Qed.

Lemma register_kids_field a regwidth node :
  List.filter (has_tag (NS "field"))
    (nameGroup_xml self (get_name node)
       (prop_name (common node)) (prop_desc (common node))
     ++ isPresent_xml self (common node)
     ++ dims_xml self a
     ++ [value_xml self "addressOffset" (hex_str self (raw_address_offset a));
         value_xml self "size" (fmt_d regwidth)]
     ++ register_reset_xml self (fields node)
     ++ map (λ f, field_xml self (fst f) (snd f)) (fields node))
  = map (λ f, field_xml self (fst f) (snd f)) (fields node).
Proof.
  rewrite !List.filter_app.
  rewrite (filter_tagged _ "field" _ (tagged_nameGroup _ _ _)) by not_in_list.
  rewrite (filter_tagged _ "field" _ (tagged_isPresent _)) by not_in_list.
  rewrite (filter_tagged _ "field" _ (tagged_dims _)) by not_in_list.
  rewrite (filter_tagged _ "field" _ (tagged_register_reset _)) by not_in_list.
  rewrite (filter_tagged_all _ _ (tagged_fields _)).
  cbn [List.filter app]. rewrite !has_tag_value. simpl. done.
Qed.

Lemma fields_resets (fs : list (Common * FieldInfo)) (expected : FieldInfo → list xml) :
  (∀ f, field_reset_xml self f = expected f) →
  Forall2 (λ f t, has_tag (NS "field") t ∧
                  kids_with (NS "resets") t = expected (snd f))
    fs (map (λ f, field_xml self (fst f) (snd f)) fs).
Proof.
  intros H. induction fs as [|f fs IH]; constructor; [|done].
  split; [|by rewrite field_resets]. unfold field_xml.
  rewrite has_tag_element. done.
Qed.

(** C3.  Resets in the two dialects.  Under 1685-2009 a register has one
    reset child, holding the OR of the shifted and masked field resets and
    the OR of the field masks in 0x notation, exactly when that mask is not
    zero, and its fields have no resets child.  Under 1685-2014 a register
    has no reset child, and each field has a resets child, holding its own
    reset in 'h notation, exactly when it declares a reset.  For the fields
    F1 (reset 3, width 2, lsb 0) and F2 (reset 1, width 1, lsb 2) the 2009
    reset is value 0x7 with mask 0x7. *)
Theorem reset_representation node a regwidth :
  kind node = RegNode a regwidth →
  register_ok node = true →
  (standard self = IEEE_1685_2009 →
   emits (λ p, add_register self p node) (NS "register") (λ kids,
     List.filter (has_tag (NS "reset")) kids =
       (if spec_mask (fields node) =? 0 then []
        else [XElement (NS "reset") []
                [XElement (NS "value") []
                   [XText ("0x" +:+ fmt_x (spec_reset (fields node)))];
                 XElement (NS "mask") []
                   [XText ("0x" +:+ fmt_x (spec_mask (fields node)))]]]) ∧
     Forall2 (λ f t, has_tag (NS "field") t ∧ kids_with (NS "resets") t = [])
       (fields node) (List.filter (has_tag (NS "field")) kids))) ∧
  (standard self = IEEE_1685_2014 →
   emits (λ p, add_register self p node) (NS "register") (λ kids,
     List.filter (has_tag (NS "reset")) kids = [] ∧
     Forall2 (λ f t, has_tag (NS "field") t ∧
                     kids_with (NS "resets") t =
                       match prop_reset (snd f) with
                       | Some reset =>
                           [XElement (NS "resets") []
                              [XElement (NS "reset") []
                                 [XElement (NS "value") []
                                    [XText ("'h" +:+ fmt_x reset)]]]]
                       | None => []
                       end)
       (fields node) (List.filter (has_tag (NS "field")) kids))) ∧
  (standard self = IEEE_1685_2009 →
   ∀ c1 f1 c2 f2,
     fields node = [(c1, f1); (c2, f2)] →
     prop_reset f1 = Some 3 → width f1 = 2 → lsb f1 = 0 →
     prop_reset f2 = Some 1 → width f2 = 1 → lsb f2 = 2 →
     emits (λ p, add_register self p node) (NS "register") (λ kids,
       List.filter (has_tag (NS "reset")) kids =
         [XElement (NS "reset") []
            [XElement (NS "value") [] [XText "0x7"];
             XElement (NS "mask") [] [XText "0x7"]]])).
Proof.
  intros Hk Hok.
  assert (∀ P, P (nameGroup_xml self (get_name node)
                    (prop_name (common node)) (prop_desc (common node))
                  ++ isPresent_xml self (common node)
                  ++ dims_xml self a
                  ++ [value_xml self "addressOffset"
                        (hex_str self (raw_address_offset a));
                      value_xml self "size" (fmt_d regwidth)]
                  ++ register_reset_xml self (fields node)
                  ++ map (λ f, field_xml self (fst f) (snd f)) (fields node)) →
               emits (λ p, add_register self p node) (NS "register") P) as Hemit.
  { intros P HP. eapply Spec_emits; [|exact HP].
    intros p. rewrite <-(register_out_built node a regwidth Hk Hok).
    apply Spec_add_register. }
  assert (standard self = IEEE_1685_2009 →
          register_reset_xml self (fields node) =
          (if spec_mask (fields node) =? 0 then []
           else [XElement (NS "reset") []
                   [XElement (NS "value") []
                      [XText ("0x" +:+ fmt_x (spec_reset (fields node)))];
                    XElement (NS "mask") []
                      [XText ("0x" +:+ fmt_x (spec_mask (fields node)))]]]))
    as Hreset.
  { intros H. unfold register_reset_xml, value_xml, hex_str.
    rewrite reset_and_mask_spec, H. simpl.
    by destruct (spec_mask (fields node) =? 0). }
  split_and!.
  - intros H. apply Hemit. rewrite register_kids_reset, register_kids_field.
    split; [by apply Hreset|].
    apply (fields_resets _ (λ _, [])). intros f. unfold field_reset_xml. by rewrite H.
  - intros H. apply Hemit. rewrite register_kids_reset, register_kids_field.
    split.
    + unfold register_reset_xml. by rewrite H.
    + apply (fields_resets _ (λ f, match prop_reset f with
                                   | Some reset => _
                                   | None => []
                                   end)).
      intros f. unfold field_reset_xml, value_xml, hex_str.
      rewrite H. simpl. by destruct (prop_reset f).
  - intros H c1 f1 c2 f2 Hfs R1 W1 L1 R2 W2 L2. apply Hemit.
    rewrite register_kids_reset, (Hreset H), Hfs.
    unfold spec_mask, spec_reset, field_mask. simpl.
    rewrite R1, R2, W1, W2, L1, L2. done.
Qed.

(** ** When an export fails *)

Lemma verdict_seq o1 o2 b1 b2 :
  verdict o1 b1 → verdict o2 b2 → verdict (seq o1 o2) (b1 && b2).
Proof.
  destruct o1, o2; simpl; try done.
  - by intros -> ->.
  - by intros -> [-> ->].
  - by intros [-> ->].
  - by intros [-> ->].
Qed.

Lemma verdict_built ts o b : verdict o b → verdict (seq (built ts) o) b.
Proof. intros H. by apply (verdict_seq (built ts) o true b). Qed.

Lemma verdict_wrap tag o b : verdict o b → verdict (wrap tag o) b.
Proof. by destruct o. Qed.

Lemma verdict_seqs {A} (f : A → Outcome) (b : A → bool) l :
  (∀ x, x ∈ l → verdict (f x) (b x)) →
  verdict (seqs (map f l)) (forallb b l).
Proof.
  induction l as [|x l IH]; intros H; [done|]. cbn [map seqs foldr forallb].
  apply verdict_seq; [apply H; left | apply IH; intros; apply H; by right].
Qed.

Lemma verdict_addressBlock node :
  known_standard self → is_AddressableNode node →
  verdict (addressBlock_out self node) (forallb register_ok (registers_beneath node)).
Proof.
  intros Hstd Ha. unfold is_AddressableNode in Ha.
  apply bool_decide_unpack in Ha as [a Ha].
  pose proof (summary_registerData node Hstd) as Hs.
  unfold addressBlock_out. rewrite Ha.
  destruct (registerData_out self node); simpl in *; [by destruct Hs | done].
Qed.

Lemma top_kind_addressable node :
  is_AddrmapNode node || is_MemNode node → is_AddressableNode node.
Proof.
  unfold is_AddrmapNode, is_MemNode, is_AddressableNode, addressable.
  destruct (kind node); simpl; try done; intros _; apply bool_decide_pack; by eexists.
Qed.

Lemma forallb_filter_flat_map {A B} (P : A → bool) (f : B → bool)
    (h : A → list B) (l : list A) :
  forallb (λ x, if negb (P x) then true else forallb f (h x)) l
  = forallb f (flat_map h (List.filter P l)).
Proof.
  induction l as [|x l IH]; [done|]. simpl. rewrite IH.
  destruct (P x); simpl; [by rewrite forallb_app | done].
Qed.

Lemma verdict_component tn cn :
  known_standard self →
  config_is_text self cn →
  is_AddrmapNode tn || is_MemNode tn →
  verdict (component_out self tn cn) (forallb register_ok (rendered_registers tn)).
Proof.
  intros Hstd Hcfg Hk. unfold component_out, config_is_text in *.
  destruct (vendor self) as [|v|]; try done.
  destruct (library self) as [|l|]; try done.
  destruct (version self) as [|ver|]; try done.
  assert (∃ nm, py_or cn (inst_name (common tn)) = PStr nm) as [nm ->].
  { unfold py_or. destruct cn as [|c|z]; simpl in *.
    - by eexists.
    - destruct (negb (String.eqb c "")); by eexists.
    - destruct (negb (z =? 0)); [done | by eexists]. }
  simpl value_out. do 4 apply verdict_built.
  apply verdict_wrap. unfold memoryMap_out. apply verdict_wrap.
  unfold rendered_registers, addressable_children.
  destruct (explode tn); apply verdict_built.
  - unfold exploded_out. rewrite <-forallb_filter_flat_map.
    apply verdict_seqs. intros x _.
    destruct (is_AddressableNode x) eqn:Ex; simpl; [|done].
    apply verdict_addressBlock; [done | by rewrite Ex].
  - apply verdict_addressBlock; [done | by apply top_kind_addressable].
Qed.

(** C4.  The stride of an arrayed register.  When the stride is not the
    size of the register in bytes, rendering the register raises the fatal
    error, and so does every export that renders it: no file is written.
    When the stride is the size in bytes, the register is rendered with one
    dim child for each array dimension, in order. *)
Theorem array_stride_check node a regwidth arr :
  kind node = RegNode a regwidth →
  array a = Some arr →
  (8 * array_stride arr ≠ regwidth →
   (∀ p s n, doc s !! p = Some n → is_container n →
      ∃ s', add_register self p node s = Raise (RDLCompileError stride_msg) s' ∧
            files s' = files s) ∧
   (∀ top path kw s cn tn,
      known_standard self →
      pop "component_name" PNone kw = (cn, []) →
      export_top top = Some tn →
      is_AddrmapNode tn || is_MemNode tn →
      config_is_text self cn →
      node ∈ rendered_registers tn →
      ∃ s', export self top path kw s = Raise (RDLCompileError stride_msg) s' ∧
            files s' = files s)) ∧
  (8 * array_stride arr = regwidth →
   emits (λ p, add_register self p node) (NS "register") (λ kids,
     List.filter (has_tag (NS "dim")) kids =
     map (λ dim, XElement (NS "dim") [] [XText (fmt_d dim)])
       (array_dimensions arr))).
Proof.
  intros Hk Harr. split.
  - intros Hne.
    assert (register_ok node = false) as Hbad.
    { unfold register_ok. rewrite Hk, Harr. by apply Z.eqb_neq. }
    split.
    + intros p s n Hp Hn. pose proof (Spec_add_register p node s n Hp Hn) as H.
      unfold register_out, stride_ok in H. rewrite Hk, Harr in H.
      apply Z.eqb_neq in Hne. by rewrite Hne in H.
    + intros top path kw s cn tn Hstd Hpop Htop Hkind Hcfg Hin.
      pose proof (export_spec top path kw s cn tn Hpop Htop Hkind Hstd) as H.
      pose proof (verdict_component tn cn Hstd Hcfg Hkind) as Hv.
      destruct (component_out self tn cn) as [ts g ms|e].
      * simpl in Hv. rewrite forallb_forall in Hv.
        apply list_elem_of_In, Hv in Hin. congruence.
      * by destruct Hv as [_ ->].
  - intros Heq.
    assert (register_ok node = true) as Hok.
    { unfold register_ok. rewrite Hk, Harr. by apply Z.eqb_eq. }
    eapply Spec_emits.
    { intros p. rewrite <-(register_out_built node a regwidth Hk Hok).
      apply Spec_add_register. }
    rewrite !List.filter_app.
    rewrite (filter_tagged _ "dim" _ (tagged_nameGroup _ _ _)) by not_in_list.
    rewrite (filter_tagged _ "dim" _ (tagged_isPresent _)) by not_in_list.
    rewrite (filter_tagged _ "dim" _ (tagged_register_reset _)) by not_in_list.
    rewrite (filter_tagged _ "dim" _ (tagged_fields _)) by not_in_list.
    rewrite (filter_tagged_all _ _ (tagged_dims _)).
    cbn [List.filter app]. rewrite !has_tag_value. simpl. rewrite app_nil_r.
    unfold dims_xml. by rewrite Harr.
Qed.

Lemma RegNode_kind node :
  is_RegNode node → ∃ a regwidth, kind node = RegNode a regwidth.
Proof. unfold is_RegNode. destruct (kind node); try done. by eexists _, _. Qed.

Lemma RegNode_not_group node :
  is_RegNode node → is_AddrmapNode node || is_RegfileNode node = false.
Proof. unfold is_RegNode, is_AddrmapNode, is_RegfileNode. by destruct (kind node). Qed.

(** C5.  The order of the children.  For a container whose children are,
    in source order, a register A, a group B (a register file or an
    addrmap) and a register C, the elements appended to the parent are
    A, B, C in this order under 1685-2014, and A, C, B under 1685-2009:
    the registers first, then the register files. *)
Theorem child_order node A B C :
  known_standard self →
  children node = [A; B; C] →
  is_RegNode A → is_AddrmapNode B || is_RegfileNode B → is_RegNode C →
  register_ok A = true → register_ok C = true →
  forallb register_ok (registers_beneath B) = true →
  ∀ p s n, doc s !! p = Some n → is_container n →
    ∃ s' kids ts a b c,
      add_registerData self p node s = Ret tt s' ∧
      doc s' !! p = Some (add_kids n kids) ∧
      Forall2 (repr (doc s') (length (doc s))) kids ts ∧
      let named (tag : string) (x : Node) (rest : list xml) :=
        XElement (NS tag) []
          (XElement (NS "name") [] [XText (inst_name (common x))] :: rest) in
      (standard self = IEEE_1685_2014 →
       ts = [named "register" A a; named "registerFile" B b; named "register" C c]) ∧
      (standard self = IEEE_1685_2009 →
       ts = [named "register" A a; named "register" C c; named "registerFile" B b]).
Proof.
  intros Hstd Hcs HA HB HC HokA HokC HokB p s n Hp Hn.
  destruct (RegNode_kind A HA) as (aA & wA & HkA).
  destruct (RegNode_kind C HC) as (aC & wC & HkC).
  destruct (group_addressable B HB) as [aB HaB].
  pose proof (register_out_built A aA wA HkA HokA) as EA.
  pose proof (register_out_built C aC wC HkC HokC) as EC.
  destruct (registerFile_out_built B aB Hstd HaB HokB)
    as (tsB & gB & msB & _ & _ & EB).
  assert (is_RegNode B = false) as HBr.
  { unfold is_RegNode, is_AddrmapNode, is_RegfileNode in *. by destruct (kind B). }
  pose proof (RegNode_not_group A HA) as HAg.
  pose proof (RegNode_not_group C HC) as HCg.
  assert (is_MemNode A = false ∧ is_MemNode C = false) as [HAm HCm].
  { unfold is_RegNode, is_MemNode in *. by destruct (kind A), (kind C). }
  apply Is_true_true in HA, HB, HC.
  pose proof (Spec_add_registerData p node s n Hp Hn) as H.
  unfold registerData_out, registerData_out_ in H. rewrite Hcs in H.
  unfold nameGroup_xml, value_xml in EA, EB, EC.
  destruct Hstd as [Hs|Hs]; rewrite Hs in H; simpl in H;
    unfold child_out, child_reg_out, child_group_out in H;
    rewrite ?HA, ?HBr, ?HB, ?HC, ?HAg, ?HCg, ?HAm, ?HCm, ?EA, ?EB, ?EC in H; simpl in H;
    destruct H as (s' & kids & Er & P); destruct P as [L Par Fr K W Ms F];
    eexists s', kids, _, _, _, _;
    (split; [exact Er|]); (split; [exact Par|]); (split; [exact K|]);
    cbv zeta; split; intros Hs';
    try (rewrite Hs in Hs'; discriminate); reflexivity.
Qed.

(** ** A memory among the children *)

Lemma drops_mid w a b : drops w (seq a (seq (Built [] id [w]) b)) (seq a b).
Proof.
  destruct a as [ts1 g1 ms1|e1], b as [ts2 g2 ms2|e2]; simpl; try done.
  split_and!; [done | done |]. rewrite !elem_of_app. right. by left.
Qed.

Lemma drops_seq_r w x o o' : drops w o o' → drops w (seq x o) (seq x o').
Proof.
  destruct x as [ts g ms|e]; [|done].
  destruct o as [ts1 g1 ms1|e1], o' as [ts2 g2 ms2|e2]; simpl; try done.
  intros (-> & Hg & Hin). split_and!; [done | intros; apply Hg |].
  rewrite elem_of_app. by right.
Qed.

Lemma MemNode_other node :
  is_MemNode node →
  is_RegNode node = false ∧ is_AddrmapNode node || is_RegfileNode node = false ∧
  is_MemNode node = true.
Proof.
  unfold is_MemNode, is_RegNode, is_AddrmapNode, is_RegfileNode.
  by destruct (kind node).
Qed.

Lemma seqs_cons o os : seqs (o :: os) = seq o (seqs os).
Proof. done. Qed.

Lemma registerData_drops k c pre m post :
  is_MemNode m →
  drops (Warning (mem_msg m))
    (registerData_out self (mkNode k c (pre ++ m :: post)))
    (registerData_out self (mkNode k c (pre ++ post))).
Proof.
  intros Hm. destruct (MemNode_other m Hm) as (Hr & Hg & Hm').
  unfold registerData_out, registerData_out_. cbn [children].
  destruct (standard self =? IEEE_1685_2014).
  { rewrite !map_app, !seqs_app. cbn [map]. rewrite seqs_cons.
    unfold child_out at 2. rewrite Hr, Hg, Hm'. apply drops_mid. }
  destruct (standard self =? IEEE_1685_2009); [|done].
  rewrite !map_app, !seqs_app. cbn [map]. rewrite !seqs_cons.
  unfold child_reg_out at 2. rewrite Hr, seq_skip_l.
  apply drops_seq_r.
  unfold child_group_out at 2. rewrite Hg, Hm'. apply drops_mid.
Qed.

(** ** Keyword arguments *)

Lemma kw_get_None_del k (kw : kwargs) : kw_get k kw = None → kw_del k kw = kw.
Proof.
  unfold kw_get, kw_del. induction kw as [|[k' v] kw IH]; [done|]. simpl.
  destruct (String.eqb k' k); simpl; [done|]. intros H. by rewrite IH.
Qed.

Lemma pop_snd k default kw : snd (pop k default kw) = kw_del k kw.
Proof.
  unfold pop. destruct (kw_get k kw) eqn:E; [done|].
  simpl. by rewrite kw_get_None_del.
Qed.

Lemma pop_eq k default kw : pop k default kw = (fst (pop k default kw), kw_del k kw).
Proof.
  rewrite <-(pop_snd k default kw). by destruct (pop k default kw).
Qed.

Lemma elem_of_kw_del k k' (kw : kwargs) :
  k' ∈ map fst (kw_del k kw) ↔ k' ∈ map fst kw ∧ k' ≠ k.
Proof.
  unfold kw_del. induction kw as [|[k0 v] kw IH]; simpl.
  - rewrite elem_of_nil. set_aside. tauto.
  - destruct (String.eqb_spec k0 k) as [->|Hne]; simpl;
      rewrite ?elem_of_cons, IH; set_aside; intuition congruence.
Qed.

Lemma first_key (kw : kwargs) k :
  k ∈ map fst kw → ∃ k' v rest, kw = (k', v) :: rest.
Proof. destruct kw as [|[k' v] rest]; [by rewrite elem_of_nil | by eexists _, _, _]. Qed.

(** C8.  Errors of the caller.  A keyword argument outside vendor,
    library, version, standard, xml_indent and xml_newline makes the
    constructor raise TypeError.  A keyword argument other than
    component_name makes [export] raise TypeError, and so does a node that
    is neither the root nor an addrmap or a mem; in both cases the state is
    the one [export] was called in: no document, no message, no file. *)
Theorem caller_errors :
  (∀ kw k, k ∈ map fst kw → k ∉ init_keys →
     ∃ k', k' ∈ map fst kw ∧ (k' ∉ init_keys) ∧
           __init__ kw = inl (unexpected_kwarg k')) ∧
  (∀ node path kw s k, k ∈ map fst kw → k ≠ "component_name" →
     ∃ k', k' ∈ map fst kw ∧ k' ≠ "component_name" ∧
           export self node path kw s = Raise (unexpected_kwarg k') s) ∧
  (∀ node path kw s,
     (∀ k, k ∈ map fst kw → k = "component_name") →
     is_RootNode node = false → is_AddrmapNode node = false →
     is_MemNode node = false →
     export self node path kw s =
     Raise (TypeError ("'node' argument expects type AddrmapNode or MemNode. Got '"
                       +:+ type_name node +:+ "'")) s).
Proof.
  split_and!.
  - intros kw k Hin Hnot. unfold __init__.
    rewrite (pop_eq "vendor"); cbv beta iota.
    rewrite (pop_eq "library"); cbv beta iota.
    rewrite (pop_eq "version"); cbv beta iota.
    rewrite (pop_eq "standard"); cbv beta iota.
    rewrite (pop_eq "xml_indent"); cbv beta iota.
    rewrite (pop_eq "xml_newline"); cbv beta iota.
    set (rest := kw_del "xml_newline" _).
    assert (∀ k', k' ∈ map fst rest ↔ k' ∈ map fst kw ∧ (k' ∉ init_keys)) as Hrest.
    { intros k'. unfold rest. rewrite !elem_of_kw_del. unfold init_keys.
      rewrite !not_elem_of_cons. rewrite elem_of_nil. set_aside. tauto. }
    destruct (first_key rest k) as (k' & v & rest' & E); [by apply Hrest|].
    rewrite E. exists k'.
    assert (k' ∈ map fst rest) as Hk' by (rewrite E; left).
    apply Hrest in Hk' as [? ?]. done.
  - intros node path kw s k Hin Hne. unfold export.
    rewrite (pop_eq "component_name"); cbv beta iota.
    set (rest := kw_del "component_name" kw).
    destruct (first_key rest k) as (k' & v & rest' & E);
      [by apply elem_of_kw_del|].
    rewrite E. exists k'.
    assert (k' ∈ map fst rest) as Hk' by (rewrite E; left).
    apply elem_of_kw_del in Hk' as [? ?]. done.
  - intros node path kw s Hall Hroot Hmap Hmem. unfold export.
    rewrite (pop_eq "component_name"); cbv beta iota.
    destruct (kw_del "component_name" kw) as [|[k v] rest] eqn:E.
    + rewrite Hroot. erewrite bind_Ret by reflexivity.
      by rewrite Hmap, Hmem.
    + assert (k ∈ map fst (kw_del "component_name" kw)) as Hk by (rewrite E; left).
      apply elem_of_kw_del in Hk as [Hk Hne]. by apply Hall in Hk.
Qed.

(** ** The whole export *)

Lemma export_cases node path kw :
  (∃ e, ∀ s, ∃ s', export self node path kw s = Raise e s' ∧ files s' = files s) ∨
  (∃ e, ∀ s, ∃ s',
     export self node path kw s = Raise e s' ∧
     files s' = (path, {| written := None;
                          addindent := xml_indent self;
                          newl := xml_newline self;
                          encoding := "UTF-8" |}) :: files s) ∨
  (∃ cn tn ts g ms,
     pop "component_name" PNone kw = (cn, []) ∧
     export_top node = Some tn ∧
     is_AddrmapNode tn || is_MemNode tn ∧
     known_standard self ∧
     component_out self tn cn = Built ts g ms ∧
     ∀ s, ∃ s',
       export self node path kw s = Ret tt s' ∧
       files s' = (path, {| written := Some (document_xml self ts);
                            addindent := xml_indent self;
                            newl := xml_newline self;
                            encoding := "UTF-8" |}) :: files s ∧
       messages s' = messages s ++ bridge_warning tn ++ ms).
Proof.
  destruct (pop "component_name" PNone kw) as [cn rest] eqn:Hpop.
  destruct rest as [|[k v] rest].
  2:{ left. exists (unexpected_kwarg k). intros s. exists s.
      unfold export. by rewrite Hpop. }
  destruct (export_top node) as [tn|] eqn:Htop.
  2:{ left. exists RuntimeError. intros s. exists s.
      unfold export, export_top in *. rewrite Hpop.
      destruct (is_RootNode node); [|done]. by rewrite Htop. }
  assert (∀ s, (if is_RootNode node
                then match top node with
                     | Some t => mret t
                     | None => raise RuntimeError
                     end
                else mret node) s = Ret tn s) as Etop.
  { intros s. unfold export_top in Htop. destruct (is_RootNode node).
    - by rewrite Htop.
    - by injection Htop as ->. }
  destruct (is_AddrmapNode tn || is_MemNode tn) eqn:Hk.
  2:{ left. eexists. intros s. exists s. unfold export. rewrite Hpop.
      rewrite (bind_Ret _ _ _ _ _ (Etop s)), Hk. done. }
  match goal with |- ?G => assert (known_standard self → G) as Hknown end.
  { intros Hstd.
    assert (∀ s, _) as H
      by (intros s; exact (export_spec node path kw s cn tn Hpop Htop
                             (Is_true_true_2 _ Hk) Hstd)).
    destruct (component_out self tn cn) as [ts g ms|e] eqn:Ec.
    2:{ left. exists e. exact H. }
    destruct (writable path).
    2:{ left. exists OSError. intros s. destruct (H s) as (s' & _ & E & F).
        by exists s'. }
    destruct (writexml_error (xml_indent self) (xml_newline self)) as [e|].
    - right. left. exists e. intros s. destruct (H s) as (s' & _ & E & F).
      by exists s'.
    - right. right. exists cn, tn, ts, g, ms.
      split_and!; [done | done | by rewrite Hk | done | done |]. intros s.
      destruct (H s) as (s' & Ms & E & F). by exists s'. }
  destruct (standard self =? IEEE_1685_2014) eqn:E14.
  { apply Z.eqb_eq in E14. apply Hknown. by right. }
  destruct (standard self =? IEEE_1685_2009) eqn:E09.
  { apply Z.eqb_eq in E09. apply Hknown. by left. }
  clear Hknown.
  left. exists RuntimeError. intros s. unfold export. rewrite Hpop.
  rewrite (bind_Ret _ _ _ _ _ (Etop s)), Hk.
  change (negb true) with false. cbv iota.
  set (sw := if is_AddrmapNode tn && has_bridge tn
             then add_message (Warning bridge_msg) s else s).
  assert (when (is_AddrmapNode tn && has_bridge tn) (msg_warning bridge_msg) s
          = Ret tt sw) as Ew.
  { unfold sw. by destruct (is_AddrmapNode tn && has_bridge tn). }
  assert (files sw = files s) as Fw.
  { unfold sw. by destruct (is_AddrmapNode tn && has_bridge tn). }
  rewrite (bind_Ret _ _ _ _ _ Ew).
  erewrite (bind_Ret createDocument) by reflexivity.
  erewrite (bind_Ret (createComment _)) by reflexivity.
  erewrite (bind_Ret (appendChild _ _)) by reflexivity.
  erewrite (bind_Ret (createElement _)) by reflexivity.
  rewrite E14, E09. eexists. split; [reflexivity|]. exact Fw.
Qed.

(** C9.  Determinism.  What an export does to the files does not depend
    on the state it starts in (the document, the running maximum and the
    messages that an earlier export has left): two runs with the same
    exporter and the same arguments either both return and have written
    the same content to the path, or both raise the same exception.  When
    they raise, either neither has touched a file, or [writexml] has failed
    in both and each leaves at the path the same file, which does not hold
    the document. *)
Theorem export_deterministic node path kw s1 s2 :
  match export self node path kw s1, export self node path kw s2 with
  | Ret _ s1', Ret _ s2' =>
      ∃ content, files s1' = (path, content) :: files s1 ∧
                 files s2' = (path, content) :: files s2
  | Raise e1 s1', Raise e2 s2' =>
      e1 = e2 ∧
      ((files s1' = files s1 ∧ files s2' = files s2) ∨
       ∃ content, written content = None ∧
                  files s1' = (path, content) :: files s1 ∧
                  files s2' = (path, content) :: files s2)
  | _, _ => False
  end.
Proof.
  destruct (export_cases node path kw)
    as [(e & H)|[(e & H)|(cn & tn & ts & g & ms & _ & _ & _ & _ & _ & H)]].
  - destruct (H s1) as (s1' & -> & F1), (H s2) as (s2' & -> & F2).
    split; [done|]. by left.
  - destruct (H s1) as (s1' & -> & F1), (H s2) as (s2' & -> & F2).
    split; [done|]. right. eexists. split_and!; [|exact F1 | exact F2]. done.
  - destruct (H s1) as (s1' & -> & F1 & _), (H s2) as (s2' & -> & F2 & _).
    by eexists.
Qed.

(** ** Explode or wrap *)

Lemma count_children_fold cs a n :
  fold_left (λ '(addrblockable_children, non_addrblockable_children) child,
    match addressable child with
    | None => (addrblockable_children, non_addrblockable_children)
    | Some a =>
        if (is_AddrmapNode child || is_MemNode child) && negb (is_array a)
        then (addrblockable_children + 1, non_addrblockable_children)
        else (addrblockable_children, non_addrblockable_children + 1)
    end) cs (a, n)
  = (a + Z.of_nat (length (List.filter addrblockable
                             (List.filter is_AddressableNode cs))),
     n + Z.of_nat (length (List.filter (λ c, negb (addrblockable c))
                             (List.filter is_AddressableNode cs)))).
Proof.
  revert a n. induction cs as [|c cs IH]; intros a n.
  - simpl. f_equal; lia.
  - destruct (addressable c) as [a0|] eqn:Ea.
    + assert (is_AddressableNode c = true) as Hc.
      { unfold is_AddressableNode. rewrite Ea. apply bool_decide_eq_true. by eexists. }
      assert (addrblockable c
              = (is_AddrmapNode c || is_MemNode c) && negb (is_array a0)) as Hb.
      { unfold addrblockable, is_array_node. by rewrite Ea. }
      cbn [fold_left List.filter]. rewrite Ea, Hc. cbn [List.filter]. rewrite Hb.
      destruct ((is_AddrmapNode c || is_MemNode c) && negb (is_array a0));
        rewrite IH; simpl length; f_equal; lia.
    + assert (is_AddressableNode c = false) as Hc.
      { unfold is_AddressableNode. rewrite Ea. apply bool_decide_eq_false.
        by intros [? ?]. }
      cbn [fold_left List.filter]. rewrite Ea, Hc. apply IH.
Qed.

Lemma filter_all_true {A} (f : A → bool) l :
  forallb f l = true → List.filter f l = l ∧ List.filter (λ x, negb (f x)) l = [].
Proof.
  induction l as [|x l IH]; [done|]. simpl.
  destruct (f x); simpl; [|done]. intros H. destruct (IH H) as [-> ->]. done.
Qed.

Lemma filter_some_false {A} (f : A → bool) l :
  forallb f l = false → List.filter (λ x, negb (f x)) l ≠ [].
Proof.
  induction l as [|x l IH]; [done|]. simpl.
  destruct (f x); simpl; [exact IH | done].
Qed.

Lemma explode_spec node : explode node = spec_explode node.
Proof.
  unfold explode, spec_explode, count_children.
  rewrite count_children_fold. fold (addressable_children node).
  fold addrblockable. destruct (is_AddrmapNode node); [|done]. simpl.
  destruct (forallb addrblockable (addressable_children node)) eqn:E.
  - destruct (filter_all_true _ _ E) as [-> ->]. simpl.
    destruct (addressable_children node); [done|].
    simpl length. apply Z.leb_le. lia.
  - apply filter_some_false in E.
    destruct (List.filter _ (addressable_children node)); [done|].
    simpl length. rewrite andb_false_l.
    destruct (Z.of_nat (S (length l)) =? 0) eqn:E0; [|done].
    apply Z.eqb_eq in E0. lia.
Qed.

Lemma addressBlock_out_block node ts g ms :
  addressBlock_out self node = Built ts g ms →
  ∃ t, ts = [t] ∧ block_of self node t.
Proof.
  unfold addressBlock_out. destruct (addressable node); [|done].
  destruct (registerData_out self node); [|done]. intros [= <- _ _].
  eexists. split; [done|]. unfold nameGroup_xml, value_xml. by eexists.
Qed.

Lemma exploded_out_blocks node ts g ms :
  exploded_out self node = Built ts g ms →
  Forall2 (block_of self) (addressable_children node) ts.
Proof.
  unfold exploded_out, addressable_children.
  revert ts g ms. induction (children node) as [|c cs IH]; intros ts g ms; simpl.
  - intros [= <- _ _]. constructor.
  - intros E. apply seq_Built_inv in E
      as (ts1 & g1 & ms1 & ts2 & g2 & ms2 & E1 & E2 & -> & _ & _).
    specialize (IH _ _ _ E2).
    destruct (is_AddressableNode c); simpl in *.
    + apply addressBlock_out_block in E1 as (t & -> & Ht). by constructor.
    + by injection E1 as <- _ _.
Qed.

(** C2.  Explode or wrap.  An export that returns has written one
    document, whose component holds one memoryMaps element with one
    memoryMap.  When the top node is an addrmap, each of its addressable
    children is an addrmap or a mem that is not an array, and there is such
    a child, the memoryMap holds the name, display name and description of
    the top node and one address block for each addressable child, in
    order; otherwise it holds the instance name of the top node only, and
    the top node as its one address block. *)
Theorem explode_or_wrap node path kw s s' :
  export self node path kw s = Ret tt s' →
  ∃ tn head mm,
    export_top node = Some tn ∧
    files s' =
      (path,
       {| written :=
            Some (XDocument
                    [XComment generator_comment;
                     XElement (NS "component") (component_attrs self)
                       (head ++ [XElement (NS "memoryMaps") []
                                   [XElement (NS "memoryMap") [] mm]])]);
          addindent := xml_indent self;
          newl := xml_newline self;
          encoding := "UTF-8" |}) :: files s ∧
    tagged (ns self) ["vendor"; "library"; "name"; "version"] head ∧
    explode tn = spec_explode tn ∧
    if spec_explode tn
    then ∃ blocks,
           mm = nameGroup_xml self (inst_name (common tn))
                  (prop_name (common tn)) (prop_desc (common tn)) ++ blocks ∧
           Forall2 (block_of self) (addressable_children tn) blocks
    else ∃ block,
           mm = [XElement (NS "name") [] [XText (inst_name (common tn))]; block] ∧
           block_of self tn block.
Proof.
  intros Hrun.
  destruct (export_cases node path kw)
    as [(e & H)|[(e & H)|(cn & tn & ts & g & ms & _ & Htop & _ & _ & Ec & H)]].
  { destruct (H s) as (s1 & E & _). congruence. }
  { destruct (H s) as (s1 & E & _). congruence. }
  destruct (H s) as (s1 & E & F & _). rewrite Hrun in E. injection E as <-.
  unfold component_out in Ec.
  apply seq_Built_inv in Ec
    as (t1 & ? & ? & ? & ? & ? & E1 & Ec & -> & _ & _).
  apply seq_Built_inv in Ec
    as (t2 & ? & ? & ? & ? & ? & E2 & Ec & -> & _ & _).
  apply seq_Built_inv in Ec
    as (t3 & ? & ? & ? & ? & ? & E3 & Ec & -> & _ & _).
  apply seq_Built_inv in Ec
    as (t4 & ? & ? & ? & ? & ? & E4 & Ec & -> & _ & _).
  assert (∀ tag v ts g ms, tag ∈ ["vendor"; "library"; "name"; "version"] →
            value_out self tag v = Built ts g ms →
            tagged (ns self) ["vendor"; "library"; "name"; "version"] ts) as Hval.
  { intros tag v ts' g' ms' Hin. destruct v; simpl; try done.
    intros [= <- _ _]. apply tagged_cons; [done | apply tagged_nil]. }
  unfold memoryMap_out in Ec. rewrite explode_spec in Ec.
  exists tn, (t1 ++ t2 ++ t3 ++ t4).
  destruct (spec_explode tn) eqn:Ex.
  - destruct (exploded_out self tn) as [blocks gb msb|] eqn:Eb; [|done].
    simpl in Ec. injection Ec as <- _ _. eexists. split_and!.
    + done.
    + rewrite F. unfold document_xml. by rewrite <-!app_assoc.
    + repeat apply tagged_app; eapply Hval; try eassumption; in_list.
    + by rewrite explode_spec.
    + exists blocks. split; [|by eapply exploded_out_blocks].
      unfold nameGroup_xml. simpl. by rewrite <-!app_assoc.
  - destruct (addressBlock_out self tn) as [blocks gb msb|] eqn:Eb; [|done].
    simpl in Ec. injection Ec as <- _ _.
    apply addressBlock_out_block in Eb as (t & -> & Ht). eexists. split_and!.
    + done.
    + rewrite F. unfold document_xml. by rewrite <-!app_assoc.
    + repeat apply tagged_app; eapply Hval; try eassumption; in_list.
    + by rewrite explode_spec.
    + by exists t.
Qed.

(** * Further properties of the exporter *)

(** ** The aggregated reset, bit by bit *)

Lemma field_mask_ones f :
  0 ≤ width f → field_mask f = Z.shiftl (Z.ones (width f)) (lsb f).
Proof.
  intros Hw. unfold field_mask.
  by rewrite Z.ones_equiv, Z.shiftl_1_l, Z.sub_1_r.
Qed.

Lemma field_mask_testbit f i :
  0 ≤ width f → 0 ≤ i →
  Z.testbit (field_mask f) i = (lsb f <=? i) && (i <? lsb f + width f).
Proof.
  intros Hw Hi. rewrite field_mask_ones, Z.shiftl_spec, Z.testbit_ones by done.
  destruct (Z.leb_spec 0 (i - lsb f)), (Z.leb_spec (lsb f) i); try lia;
    destruct (Z.ltb_spec (i - lsb f) (width f)),
             (Z.ltb_spec i (lsb f + width f)); simpl; try done; lia.
Qed.

Lemma field_mask_nonneg f : 0 ≤ width f → 0 ≤ field_mask f.
Proof.
  intros Hw. rewrite field_mask_ones by done. apply Z.shiftl_nonneg.
  rewrite Z.ones_equiv. pose proof (Z.pow_pos_nonneg 2 (width f)). lia.
Qed.

Lemma land_lor_absorb a m r M :
  Z.land a m = a → Z.land r M = r →
  Z.land (Z.lor a r) (Z.lor m M) = Z.lor a r.
Proof.
  intros Ha Hr. apply Z.bits_inj'. intros i Hi.
  apply (f_equal (λ z, Z.testbit z i)) in Ha, Hr.
  rewrite Z.land_spec in Ha, Hr. rewrite Z.land_spec, !Z.lor_spec.
  destruct (Z.testbit a i), (Z.testbit m i), (Z.testbit r i), (Z.testbit M i);
    simpl in *; congruence.
Qed.

Lemma land_le_mask a m : 0 ≤ m → Z.land a m = a → a ≤ m.
Proof.
  intros Hm Ha.
  assert (0 ≤ a) as Hpos by (rewrite <-Ha; apply Z.land_nonneg; by right).
  assert (Z.lor a (Z.ldiff m a) = m) as <-.
  { apply Z.bits_inj'. intros i Hi.
    apply (f_equal (λ z, Z.testbit z i)) in Ha. rewrite Z.land_spec in Ha.
    rewrite Z.lor_spec, Z.ldiff_spec.
    destruct (Z.testbit a i), (Z.testbit m i); simpl in *; congruence. }
  assert (Z.land a (Z.ldiff m a) = 0) as Hdisj.
  { apply Z.bits_inj'. intros i Hi.
    rewrite Z.land_spec, Z.ldiff_spec, Z.bits_0.
    destruct (Z.testbit a i), (Z.testbit m i); done. }
  rewrite <-Z.lxor_lor, <-Z.add_nocarry_lxor by done.
  assert (0 ≤ Z.ldiff m a) by (apply Z.ldiff_nonneg; by left).
  lia.
Qed.

Lemma spec_reset_mask_cons f (fs : list (Common * FieldInfo)) :
  spec_reset (f :: fs) =
    match prop_reset (snd f) with
    | Some v => Z.lor (Z.land (Z.shiftl v (lsb (snd f))) (field_mask (snd f)))
                      (spec_reset fs)
    | None => spec_reset fs
    end ∧
  spec_mask (f :: fs) =
    match prop_reset (snd f) with
    | Some v => Z.lor (field_mask (snd f)) (spec_mask fs)
    | None => spec_mask fs
    end.
Proof. unfold spec_reset, spec_mask. simpl. by destruct (prop_reset (snd f)). Qed.

Lemma spec_reset_within_mask (fs : list (Common * FieldInfo)) :
  Forall (λ f, 0 ≤ width (snd f)) fs →
  Z.land (spec_reset fs) (spec_mask fs) = spec_reset fs ∧ 0 ≤ spec_mask fs.
Proof.
  induction 1 as [|f fs Hw _ [IH1 IH2]]; [done|].
  destruct (spec_reset_mask_cons f fs) as [-> ->].
  destruct (prop_reset (snd f)) as [v|]; [|done]. split.
  - apply land_lor_absorb; [|done].
    by rewrite <-Z.land_assoc, Z.land_diag.
  - apply Z.lor_nonneg. split; [by apply field_mask_nonneg | done].
Qed.

(** X1.  The aggregated reset of the 2009 dialect stays inside its mask:
    for fields whose width and position are not negative, every bit of
    the reset value is a bit of the mask, and so the value lies between 0
    and the mask, whatever the declared resets are (a reset wider than its
    field is cut to the field, a negative one to its low bits). *)
Theorem reset_within_mask (fs : list (Common * FieldInfo)) reset mask :
  Forall (λ f, 0 ≤ width (snd f) ∧ 0 ≤ lsb (snd f)) fs →
  reset_and_mask fs = (reset, mask) →
  Z.land reset mask = reset ∧ 0 ≤ reset ≤ mask.
Proof.
  intros Hfs. rewrite reset_and_mask_spec. intros [= <- <-].
  destruct (spec_reset_within_mask fs) as [Hl Hm].
  { eapply Forall_impl; [exact Hfs|]. by intros f [? _]. }
  split; [done|]. split.
  - rewrite <-Hl. apply Z.land_nonneg. by right.
  - by apply land_le_mask.
Qed.

Lemma spec_reset_testbit (fs : list (Common * FieldInfo)) i :
  Z.testbit (spec_reset fs) i = existsb (reset_bit i) fs ∧
  Z.testbit (spec_mask fs) i = existsb (mask_bit i) fs.
Proof.
  induction fs as [|g fs [IH1 IH2]].
  - unfold spec_reset, spec_mask. simpl. by rewrite Z.bits_0.
  - destruct (spec_reset_mask_cons g fs) as [-> ->].
    unfold reset_bit, mask_bit. simpl.
    destruct (prop_reset (snd g)) as [v|]; simpl; [|done].
    by rewrite !Z.lor_spec, Z.land_spec, IH1, IH2.
Qed.

Lemma disjoint_bits_clear (gs : list (Common * FieldInfo)) l w i :
  Forall (λ g, 0 ≤ width (snd g) ∧ 0 ≤ lsb (snd g) ∧
               (lsb (snd g) + width (snd g) ≤ l ∨ l + w ≤ lsb (snd g))) gs →
  0 ≤ i → l ≤ i < l + w →
  existsb (reset_bit i) gs = false ∧ existsb (mask_bit i) gs = false.
Proof.
  intros Hgs Hi Hin. induction Hgs as [|g gs (Hw & Hl & Hd) _ [IH1 IH2]]; [done|].
  simpl. rewrite IH1, IH2. unfold reset_bit, mask_bit.
  destruct (prop_reset (snd g)); [|done].
  rewrite field_mask_testbit by done.
  destruct (Z.leb_spec (lsb (snd g)) i), (Z.ltb_spec i (lsb (snd g) + width (snd g)));
    simpl; rewrite ?andb_false_r; try done; lia.
Qed.

(** X2.  The aggregated reset can be taken apart again.  When the bit
    range of a field that declares a reset overlaps no other field of the
    register, the bits of the aggregated value at that range are the
    field's reset (cut to the field's width), and the bits of the mask
    there are all set. *)
Theorem reset_field_recovered (pre post : list (Common * FieldInfo)) c f v reset mask :
  prop_reset f = Some v →
  0 ≤ width f → 0 ≤ lsb f →
  Forall (λ g, 0 ≤ width (snd g) ∧ 0 ≤ lsb (snd g) ∧
               (lsb (snd g) + width (snd g) ≤ lsb f ∨
                lsb f + width f ≤ lsb (snd g))) (pre ++ post) →
  reset_and_mask (pre ++ (c, f) :: post) = (reset, mask) →
  Z.land (Z.shiftr reset (lsb f)) (Z.ones (width f)) = v mod 2 ^ width f ∧
  Z.land (Z.shiftr mask (lsb f)) (Z.ones (width f)) = Z.ones (width f).
Proof.
  intros Hv Hw Hl Hothers. rewrite reset_and_mask_spec. intros [= <- <-].
  apply Forall_app in Hothers as [Hpre Hpost].
  assert (∀ j, 0 ≤ j → j < width f →
            Z.testbit (spec_reset (pre ++ (c, f) :: post)) (j + lsb f) = Z.testbit v j ∧
            Z.testbit (spec_mask (pre ++ (c, f) :: post)) (j + lsb f) = true) as Hbits.
  { intros j Hj Hjw.
    destruct (spec_reset_testbit (pre ++ (c, f) :: post) (j + lsb f)) as [-> ->].
    rewrite !existsb_app. simpl.
    destruct (disjoint_bits_clear pre (lsb f) (width f) (j + lsb f)) as [-> ->];
      [done | lia | lia |].
    destruct (disjoint_bits_clear post (lsb f) (width f) (j + lsb f)) as [-> ->];
      [done | lia | lia |].
    unfold reset_bit, mask_bit. simpl. rewrite Hv.
    rewrite field_mask_testbit, Z.shiftl_spec by lia.
    replace (j + lsb f - lsb f) with j by lia.
    destruct (Z.leb_spec (lsb f) (j + lsb f)); [|lia].
    destruct (Z.ltb_spec (j + lsb f) (lsb f + width f)); [|lia].
    simpl. by rewrite !orb_false_r, andb_true_r. }
  split; apply Z.bits_inj'; intros j Hj;
    rewrite Z.land_spec, Z.shiftr_spec, Z.testbit_ones_nonneg by done.
  - rewrite Z.testbit_mod_pow2 by done.
    destruct (Z.ltb_spec j (width f)); [|by rewrite andb_false_r].
    destruct (Hbits j) as [-> _]; [done | done |]. by rewrite andb_true_r.
  - destruct (Z.ltb_spec j (width f)); [|by rewrite andb_false_r].
    by destruct (Hbits j) as [_ ->].
Qed.

(** ** Numbers as text *)

Lemma fmt_x_inj v1 v2 : fmt_x v1 = fmt_x v2 → v1 = v2.
Proof.
  unfold fmt_x. intros E.
  assert (∀ v, NilZero.int_of_string (NilZero.string_of_int (Z.to_hex_int v))
               = Some (Z.to_hex_int v)) as Hisi.
  { intros v. apply NilZero.isi; destruct v; simpl; try discriminate;
      intros [= H]; by apply HexadecimalPos.Unsigned.to_uint_nonnil in H. }
  apply HexadecimalZ.to_int_inj.
  apply (f_equal NilZero.int_of_string) in E. rewrite !Hisi in E. congruence.
Qed.

(** X3.  Numbers are written without loss: two different values never get
    the same hexadecimal text from [hex_str], in either dialect, nor the
    same decimal text. *)
Theorem hex_str_inj v1 v2 :
  v1 ≠ v2 → hex_str self v1 ≠ hex_str self v2 ∧ fmt_d v1 ≠ fmt_d v2.
Proof.
  intros Hne. split.
  - unfold hex_str. intros E. apply Hne, fmt_x_inj.
    destruct (IEEE_1685_2014 <=? standard self);
      by apply (inj (String.append _)) in E.
  - unfold fmt_d. intros E. by apply Hne, (inj pretty).
Qed.

(** ** The constructor *)

Lemma pop_fst k d kw : fst (pop k d kw) = default d (kw_get k kw).
Proof. unfold pop. by destruct (kw_get k kw). Qed.

Lemma kw_get_del_ne k k' (kw : kwargs) :
  k ≠ k' → kw_get k (kw_del k' kw) = kw_get k kw.
Proof.
  intros Hne. unfold kw_get, kw_del. induction kw as [|[k0 v] kw IH]; [done|].
  simpl. destruct (String.eqb_spec k0 k') as [->|Hne']; simpl.
  - destruct (String.eqb_spec k' k); [congruence | done].
  - destruct (String.eqb_spec k0 k); [done | exact IH].
Qed.

(** X4.  What the constructor keeps.  When every key is one of the six
    accepted ones, each attribute of the new exporter is the value passed
    under its key, or its default when the key is absent, whatever the order
    of the keys; the namespace prefix is [ipxact:] for a standard of 2014
    or later and [spirit:] below.  A [standard] that is not a number makes
    the constructor raise TypeError. *)
Theorem init_attributes (kw : kwargs) :
  (∀ k, k ∈ map fst kw → k ∈ init_keys) →
  match default (PInt IEEE_1685_2014) (kw_get "standard" kw) with
  | PInt std =>
      __init__ kw =
      inr {| vendor := default (PStr "example.org") (kw_get "vendor" kw);
             library := default (PStr "mylibrary") (kw_get "library" kw);
             version := default (PStr "1.0") (kw_get "version" kw);
             standard := std;
             xml_indent := default (PStr "  ") (kw_get "xml_indent" kw);
             xml_newline := default (PStr (String (Ascii.ascii_of_nat 10) EmptyString))
                              (kw_get "xml_newline" kw);
             ns := if IEEE_1685_2014 <=? std then "ipxact:" else "spirit:" |}
  | _ => ∃ m, __init__ kw = inl (TypeError m)
  end.
Proof.
  intros Hkeys. unfold __init__.
  rewrite (pop_eq "vendor"); cbv beta iota.
  rewrite (pop_eq "library"); cbv beta iota.
  rewrite (pop_eq "version"); cbv beta iota.
  rewrite (pop_eq "standard"); cbv beta iota.
  rewrite (pop_eq "xml_indent"); cbv beta iota.
  rewrite (pop_eq "xml_newline"); cbv beta iota.
  rewrite !pop_fst. rewrite !kw_get_del_ne by discriminate.
  destruct (kw_del "xml_newline" _) as [|[k v] rest] eqn:E.
  - destruct (default (PInt IEEE_1685_2014) (kw_get "standard" kw)); by eauto.
  - exfalso.
    assert (k ∈ map fst (kw_del "xml_newline"
              (kw_del "xml_indent" (kw_del "standard" (kw_del "version"
                 (kw_del "library" (kw_del "vendor" kw))))))) as Hk
      by (rewrite E; left).
    rewrite !elem_of_kw_del in Hk.
    destruct Hk as [[[[[[Hk ?] ?] ?] ?] ?] ?].
    apply Hkeys in Hk. unfold init_keys in Hk.
    rewrite !elem_of_cons, elem_of_nil in Hk. set_aside. intuition congruence.
Qed.

(** ** Errors of an export *)

Lemma export_top_Ret node tn s :
  export_top node = Some tn →
  (if is_RootNode node
   then match top node with
        | Some t => mret t
        | None => raise RuntimeError
        end
   else mret node) s = Ret tn s.
Proof.
  unfold export_top. destruct (is_RootNode node).
  - by intros ->.
  - by intros [= ->].
Qed.

Lemma export_unknown_raises node path kw s cn tn :
  pop "component_name" PNone kw = (cn, []) →
  export_top node = Some tn →
  is_AddrmapNode tn || is_MemNode tn →
  standard self ≠ IEEE_1685_2009 → standard self ≠ IEEE_1685_2014 →
  ∃ s', export self node path kw s = Raise RuntimeError s' ∧
        files s' = files s ∧
        messages s' = messages s ++ bridge_warning tn.
Proof.
  intros Hpop Htop Hk H09 H14. unfold export. rewrite Hpop.
  rewrite (bind_Ret _ _ _ _ _ (export_top_Ret node tn s Htop)).
  apply Is_true_true in Hk. rewrite Hk.
  change (negb true) with false. cbv iota.
  set (sw := if is_AddrmapNode tn && has_bridge tn
             then add_message (Warning bridge_msg) s else s).
  assert (when (is_AddrmapNode tn && has_bridge tn) (msg_warning bridge_msg) s
          = Ret tt sw) as Ew.
  { unfold sw. by destruct (is_AddrmapNode tn && has_bridge tn). }
  assert (files sw = files s ∧ messages sw = messages s ++ bridge_warning tn)
    as [Fw Mw].
  { unfold sw, bridge_warning.
    destruct (is_AddrmapNode tn && has_bridge tn); simpl; [done|].
    by rewrite app_nil_r. }
  rewrite (bind_Ret _ _ _ _ _ Ew).
  erewrite (bind_Ret createDocument) by reflexivity.
  erewrite (bind_Ret (createComment _)) by reflexivity.
  erewrite (bind_Ret (appendChild _ _)) by reflexivity.
  erewrite (bind_Ret (createElement _)) by reflexivity.
  apply Z.eqb_neq in H09, H14. rewrite H14, H09.
  eexists. split; [reflexivity|]. by split.
Qed.

(** X5.  A standard that is neither 2009 nor 2014 (the constructor takes
    any number) makes [export] raise RuntimeError when it reaches the
    attributes of the component: no file is written, and the only message
    is the warning about a bridge. *)
Theorem export_unknown_standard node path kw s cn tn :
  pop "component_name" PNone kw = (cn, []) →
  export_top node = Some tn →
  is_AddrmapNode tn || is_MemNode tn →
  standard self ≠ IEEE_1685_2009 → standard self ≠ IEEE_1685_2014 →
  ∃ s', export self node path kw s = Raise RuntimeError s' ∧
        files s' = files s ∧
        messages s' = messages s ++ bridge_warning tn.
Proof. apply export_unknown_raises. Qed.


Lemma component_out_not_text tn cn :
  config_is_text self cn = false →
  component_out self tn cn = Failed (TypeError "node contents must be a string").
Proof.
  unfold config_is_text, component_out, py_or.
  destruct (vendor self) as [|v|z1]; try done.
  destruct (library self) as [|l|z2]; try done.
  destruct (version self) as [|ver|z3]; destruct cn as [|c|z]; simpl; try done;
    try (by destruct (negb (String.eqb c "")));
    by destruct (z =? 0).
Qed.

(** X7.  Identifiers that are not text.  The constructor keeps whatever
    it is given; when the vendor, the library or the version is not a
    string, or the component name is a number other than 0, the export
    raises the TypeError of the DOM for the first of them and writes no file,
    even when a register would fail the stride check later. *)
Theorem export_non_text_config node path kw s cn tn :
  pop "component_name" PNone kw = (cn, []) →
  export_top node = Some tn →
  is_AddrmapNode tn || is_MemNode tn →
  known_standard self →
  config_is_text self cn = false →
  ∃ s', export self node path kw s
          = Raise (TypeError "node contents must be a string") s' ∧
        files s' = files s.
Proof.
  intros Hpop Htop Hk Hstd Hcfg.
  pose proof (export_spec node path kw s cn tn Hpop Htop Hk Hstd) as H.
  by rewrite (component_out_not_text tn cn Hcfg) in H.
Qed.

Lemma value_out_Built tag v ts g ms :
  value_out self tag v = Built ts g ms →
  ∃ t, v = PStr t ∧ ts = [value_xml self tag t].
Proof. destruct v as [|t|]; simpl; try done. intros [= <- _ _]. by exists t. Qed.

Lemma py_or_text cn tn nm :
  py_or cn (PStr (inst_name (common tn))) = PStr nm → nm = component_name_text cn tn.
Proof.
  unfold py_or, component_name_text. destruct cn as [|c|z]; simpl.
  - by intros [= <-].
  - destruct (String.eqb c ""); simpl; by intros [= <-].
  - destruct (z =? 0); simpl; [by intros [= <-] | done].
Qed.

(** X8.  The head of the component.  An export that returns has written
    a document that starts with the generator comment and holds one
    component, whose first four children are the vendor, the library, the
    name and the version, in this order.  The name is the [component_name]
    argument when it is a string that is not empty, and the instance name
    of the top node when the argument is absent, [None], empty or 0. *)
Theorem component_header node path kw s s' :
  export self node path kw s = Ret tt s' →
  ∃ cn tn v l ver rest,
    pop "component_name" PNone kw = (cn, []) ∧
    export_top node = Some tn ∧
    vendor self = PStr v ∧ library self = PStr l ∧ version self = PStr ver ∧
    files s' =
      (path,
       {| written :=
            Some (XDocument
                    [XComment generator_comment;
                     XElement (NS "component") (component_attrs self)
                       (XElement (NS "vendor") [] [XText v]
                        :: XElement (NS "library") [] [XText l]
                        :: XElement (NS "name") [] [XText (component_name_text cn tn)]
                        :: XElement (NS "version") [] [XText ver]
                        :: rest)]);
          addindent := xml_indent self;
          newl := xml_newline self;
          encoding := "UTF-8" |}) :: files s.
Proof.
  intros Hrun.
  destruct (export_cases node path kw)
    as [(e & H)|[(e & H)|(cn & tn & ts & g & ms & Hpop & Htop & _ & _ & Ec & H)]].
  { destruct (H s) as (s1 & E & _). congruence. }
  { destruct (H s) as (s1 & E & _). congruence. }
  destruct (H s) as (s1 & E & F & _). rewrite Hrun in E. injection E as <-.
  unfold component_out in Ec.
  apply seq_Built_inv in Ec
    as (t1 & ? & ? & ? & ? & ? & E1 & Ec & -> & _ & _).
  apply seq_Built_inv in Ec
    as (t2 & ? & ? & ? & ? & ? & E2 & Ec & -> & _ & _).
  apply seq_Built_inv in Ec
    as (t3 & ? & ? & ? & ? & ? & E3 & Ec & -> & _ & _).
  apply seq_Built_inv in Ec
    as (t4 & ? & ? & rest & ? & ? & E4 & Ec & -> & _ & _).
  apply value_out_Built in E1 as (v & Hv & ->).
  apply value_out_Built in E2 as (l & Hl & ->).
  apply value_out_Built in E3 as (nm & Hnm & ->).
  apply value_out_Built in E4 as (ver & Hver & ->).
  apply py_or_text in Hnm as ->.
  exists cn, tn, v, l, ver, rest. split_and!; try done.
Qed.

(** ** The messages of an export *)

Lemma reports_seq o1 o2 M1 M2 :
  reports o1 M1 → reports o2 M2 → reports (seq o1 o2) (M1 ++ M2).
Proof. destruct o1, o2; simpl; try done. by intros -> ->. Qed.

Lemma reports_wrap tag o M : reports o M → reports (wrap tag o) M.
Proof. by destruct o. Qed.

Lemma reports_seqs {A} (f : A → Outcome) (h : A → list Message) (l : list A) :
  (∀ x, x ∈ l → reports (f x) (h x)) →
  reports (seqs (map f l)) (flat_map h l).
Proof.
  induction l as [|x l IH]; intros H; [done|].
  cbn [map flat_map]. rewrite seqs_cons.
  apply reports_seq; [apply H; left | apply IH; intros; apply H; by right].
Qed.

Lemma reports_value tag v : reports (value_out self tag v) [].
Proof. by destruct v. Qed.

Lemma reports_register node : reports (register_out self node) [].
Proof.
  unfold register_out. destruct (kind node); try done.
  by destruct (stride_ok _ _).
Qed.

Lemma nested_mems_unfold node :
  nested_mems node =
  flat_map (λ child,
    if is_RegNode child then []
    else if is_AddrmapNode child || is_RegfileNode child
    then nested_mems child
    else if is_MemNode child then [child]
    else []) (children node).
Proof. by destruct node. Qed.

Lemma flat_map_nil {A B} (l : list A) : flat_map (λ _, @nil B) l = [].
Proof. by induction l. Qed.

Lemma map_flat_map {A B C} (g : B → C) (h : A → list B) (l : list A) :
  map g (flat_map h l) = flat_map (λ x, map g (h x)) l.
Proof.
  induction l as [|x l IH]; [done|]. simpl. by rewrite map_app, IH.
Qed.

Lemma flat_map_ext_in {A B} (h1 h2 : A → list B) (l : list A) :
  (∀ x, x ∈ l → h1 x = h2 x) → flat_map h1 l = flat_map h2 l.
Proof.
  induction l as [|x l IH]; intros H; [done|]. simpl.
  rewrite H by left. rewrite IH; [done|]. intros; apply H; by right.
Qed.

Lemma flat_map_filter {A B} (P : A → bool) (h : A → list B) (l : list A) :
  flat_map (λ x, if P x then h x else []) l = flat_map h (List.filter P l).
Proof.
  induction l as [|x l IH]; [done|]. simpl. rewrite IH. by destruct (P x).
Qed.

Lemma reports_registerData node :
  reports (registerData_out self node) (mem_warnings (nested_mems node)).
Proof.
  induction node as [k c cs IH] using Node_ind'.
  rewrite nested_mems_unfold. unfold mem_warnings. rewrite map_flat_map.
  unfold registerData_out, registerData_out_. simpl children.
  rewrite Forall_forall in IH.
  assert (∀ x, x ∈ cs →
            reports (registerFile_out self x) (mem_warnings (nested_mems x)))
    as Hgroup.
  { intros x Hin. rewrite registerFile_out_unfold.
    destruct (addressable x); [|done]. apply reports_wrap.
    apply (reports_seq _ _ [] _); [done | by apply IH]. }
  destruct (standard self =? IEEE_1685_2014).
  { apply reports_seqs. intros x Hin. unfold child_out.
    destruct (is_RegNode x); [apply reports_register|].
    destruct (is_AddrmapNode x || is_RegfileNode x); [by apply Hgroup|].
    by destruct (is_MemNode x). }
  destruct (standard self =? IEEE_1685_2009); [|done].
  set (W := flat_map _ cs).
  apply (reports_seq _ _ [] W); subst W.
  - rewrite <-(flat_map_nil cs). apply reports_seqs. intros x _.
    unfold child_reg_out. destruct (is_RegNode x); [apply reports_register | done].
  - rewrite (flat_map_ext_in _ (λ x,
               if is_AddrmapNode x || is_RegfileNode x
               then mem_warnings (nested_mems x)
               else if is_MemNode x then [Warning (mem_msg x)] else []) cs).
    + apply reports_seqs. intros x Hin. unfold child_group_out.
      destruct (is_AddrmapNode x || is_RegfileNode x); [by apply Hgroup|].
      by destruct (is_MemNode x).
    + intros x _. unfold mem_warnings.
      unfold is_RegNode, is_AddrmapNode, is_RegfileNode, is_MemNode.
      by destruct (kind x).
Qed.

Lemma reports_addressBlock node :
  reports (addressBlock_out self node) (mem_warnings (nested_mems node)).
Proof.
  pose proof (reports_registerData node) as H. unfold addressBlock_out.
  destruct (addressable node); [|done].
  by destruct (registerData_out self node).
Qed.

Lemma reports_component tn cn :
  reports (component_out self tn cn) (mem_warnings (dropped_mems tn)).
Proof.
  unfold component_out. set (W := mem_warnings (dropped_mems tn)).
  repeat (apply (reports_seq _ _ [] W); [apply reports_value|]).
  apply reports_wrap. unfold memoryMap_out. apply reports_wrap.
  subst W. unfold dropped_mems.
  destruct (explode tn); set (W := mem_warnings _);
    apply (reports_seq _ _ [] W); subst W; try done.
  - unfold exploded_out, addressable_children, mem_warnings.
    rewrite <-flat_map_filter, map_flat_map.
    rewrite (flat_map_ext_in _ (λ x, if is_AddressableNode x
                                     then mem_warnings (nested_mems x) else []) _).
    + apply reports_seqs. intros x _.
      destruct (is_AddressableNode x); simpl; [apply reports_addressBlock | done].
    + intros x _. by destruct (is_AddressableNode x).
  - apply reports_addressBlock.
Qed.

(** X9.  The messages of an export that returns: the warning about the
    bridge property, when the top addrmap has it, and then one warning for
    each mem node nested in the hierarchy, in source order in both
    dialects, naming the path of the node.  Nothing else is reported; a mem
    that becomes an address block of its own is not reported. *)
Theorem export_messages node path kw s s' :
  export self node path kw s = Ret tt s' →
  ∃ tn, export_top node = Some tn ∧
        messages s' = messages s ++ bridge_warning tn
                      ++ map (λ m, Warning (mem_msg m)) (dropped_mems tn).
Proof.
  intros Hrun.
  destruct (export_cases node path kw)
    as [(e & H)|[(e & H)|(cn & tn & ts & g & ms & _ & Htop & _ & _ & Ec & H)]].
  { destruct (H s) as (s1 & E & _). congruence. }
  { destruct (H s) as (s1 & E & _). congruence. }
  destruct (H s) as (s1 & E & _ & Ms). rewrite Hrun in E. injection E as <-.
  pose proof (reports_component tn cn) as Hr. rewrite Ec in Hr. simpl in Hr.
  exists tn. split; [done|]. by rewrite Ms, Hr.
Qed.

Lemma component_out_bridge a c cs cn b1 b2 :
  component_out self (mkNode (AddrmapNode a b1) c cs) cn
  = component_out self (mkNode (AddrmapNode a b2) c cs) cn.
Proof. reflexivity. Qed.

(** X10.  The bridge property is ignored.  For every known standard,
    exporting an addrmap that has the bridge property does to the files
    what exporting the same addrmap without it does: when the two return
    they have written the same file, and the only difference is one
    warning, reported before all others; and the one fails exactly when the
    other fails, with the same exception and the same files. *)
Theorem bridge_ignored a c cs path kw s cn :
  pop "component_name" PNone kw = (cn, []) →
  known_standard self →
  match export self (mkNode (AddrmapNode a false) c cs) path kw s,
        export self (mkNode (AddrmapNode a true) c cs) path kw s with
  | Ret _ s1, Ret _ s2 =>
      files s2 = files s1 ∧
      ∃ ms, messages s1 = messages s ++ ms ∧
            messages s2 = messages s ++ Warning bridge_msg :: ms
  | Raise e1 s1, Raise e2 s2 =>
      e1 = e2 ∧ files s2 = files s1
  | _, _ => False
  end.
Proof.
  intros Hpop Hstd.
  pose proof (export_spec (mkNode (AddrmapNode a false) c cs) path kw s cn _
                Hpop eq_refl I Hstd) as H1.
  pose proof (export_spec (mkNode (AddrmapNode a true) c cs) path kw s cn _
                Hpop eq_refl I Hstd) as H2.
  rewrite (component_out_bridge a c cs cn true false) in H2.
  destruct (component_out self (mkNode (AddrmapNode a false) c cs) cn)
    as [ts g ms|e].
  - destruct H1 as (s1 & M1 & R1), H2 as (s2 & M2 & R2).
    destruct (writable path);
      [destruct (writexml_error (xml_indent self) (xml_newline self))|];
      destruct R1 as [-> F1], R2 as [-> F2]; try (by rewrite F1, F2).
    split; [by rewrite F1, F2|]. exists ms. by rewrite M1, M2.
  - destruct H1 as (s1 & -> & F1), H2 as (s2 & -> & F2). by rewrite F1, F2.
Qed.

(** ** The element names of the document *)

Lemma in_vocabulary_NS nm :
  in_vocabulary (ns self) (NS nm) = existsb (String.eqb nm) vocabulary.
Proof.
  unfold in_vocabulary. induction vocabulary as [|x l IH]; [done|].
  simpl. by rewrite eqb_append, IH.
Qed.

Lemma well_tagged_app ts1 ts2 :
  well_tagged (ns self) (ts1 ++ ts2)
  = well_tagged (ns self) ts1 && well_tagged (ns self) ts2.
Proof. apply forallb_app. Qed.

Lemma well_tagged_cons t ts :
  well_tagged (ns self) (t :: ts)
  = all_tags (in_vocabulary (ns self)) t && well_tagged (ns self) ts.
Proof. done. Qed.

Lemma well_tagged_element nm attrs kids :
  existsb (String.eqb nm) vocabulary = true →
  well_tagged (ns self) kids = true →
  all_tags (in_vocabulary (ns self)) (XElement (NS nm) attrs kids) = true.
Proof.
  intros Hnm Hkids. cbn [all_tags]. rewrite in_vocabulary_NS, Hnm. exact Hkids.
Qed.

Lemma well_tagged_value nm v :
  existsb (String.eqb nm) vocabulary = true →
  all_tags (in_vocabulary (ns self)) (value_xml self nm v) = true.
Proof. intros Hnm. by apply well_tagged_element. Qed.

Ltac tags :=
  repeat first
    [ done
    | apply well_tagged_value; reflexivity
    | apply well_tagged_element; [reflexivity|]
    | rewrite well_tagged_app
    | rewrite well_tagged_cons
    | apply andb_true_intro; split ].

Lemma well_tagged_nameGroup name displayName description :
  well_tagged (ns self) (nameGroup_xml self name displayName description) = true.
Proof. unfold nameGroup_xml. destruct displayName, description; tags. Qed.

Lemma well_tagged_isPresent c : well_tagged (ns self) (isPresent_xml self c) = true.
Proof. unfold isPresent_xml. destruct (_ && _); tags. Qed.

Lemma well_tagged_dims a : well_tagged (ns self) (dims_xml self a) = true.
Proof.
  unfold dims_xml. destruct (array a) as [arr|]; [|done].
  induction (array_dimensions arr); [done|]. simpl map. tags.
Qed.

Lemma well_tagged_enumeratedValues (encode : list EnumValue) :
  well_tagged (ns self) (map (enumeratedValue_xml self) encode) = true.
Proof.
  induction encode as [|ev encode IH]; [done|]. simpl map.
  rewrite well_tagged_cons, IH, andb_true_r. unfold enumeratedValue_xml.
  apply well_tagged_element; [reflexivity|].
  rewrite well_tagged_app, well_tagged_nameGroup. tags.
Qed.

Lemma well_tagged_field c f : well_tagged (ns self) [field_xml self c f] = true.
Proof.
  unfold field_xml. rewrite well_tagged_cons, andb_true_r.
  apply well_tagged_element; [reflexivity|].
  rewrite !well_tagged_app, well_tagged_nameGroup, well_tagged_isPresent.
  cbn [andb]. apply andb_true_intro. split; [tags|].
  apply andb_true_intro. split.
  { unfold field_reset_xml. destruct (_ <=? _); [|done].
    destruct (prop_reset f); tags. }
  unfold field_tail_xml.
  pose proof (well_tagged_enumeratedValues) as He.
  destruct (is_volatile f), (prop_encode f), (prop_onwrite f), (prop_onread f),
    (prop_donttest f); cbn [app]; tags.
Qed.

Lemma well_tagged_fields (fs : list (Common * FieldInfo)) :
  well_tagged (ns self) (map (λ f, field_xml self (fst f) (snd f)) fs) = true.
Proof.
  induction fs as [|f fs IH]; [done|]. simpl map.
  change (?x :: ?l) with ([x] ++ l). by rewrite well_tagged_app, well_tagged_field, IH.
Qed.

Lemma well_tagged_register_reset fs :
  well_tagged (ns self) (register_reset_xml self fs) = true.
Proof.
  unfold register_reset_xml. destruct (_ <=? _); [|done].
  destruct (reset_and_mask fs) as [reset mask]. destruct (negb _); tags.
Qed.

Lemma builds_seq o1 o2 :
  builds (λ ts, well_tagged (ns self) ts = true) o1 →
  builds (λ ts, well_tagged (ns self) ts = true) o2 →
  builds (λ ts, well_tagged (ns self) ts = true) (seq o1 o2).
Proof.
  destruct o1, o2; cbn [seq builds]; try done. intros H1 H2.
  by rewrite well_tagged_app, H1, H2.
Qed.

Lemma builds_seqs {A} (f : A → Outcome) (l : list A) :
  (∀ x, x ∈ l → builds (λ ts, well_tagged (ns self) ts = true) (f x)) →
  builds (λ ts, well_tagged (ns self) ts = true) (seqs (map f l)).
Proof.
  induction l as [|x l IH]; intros H; [done|]. cbn [map]. rewrite seqs_cons.
  apply builds_seq; [apply H; left | apply IH; intros; apply H; by right].
Qed.

Lemma builds_wrap nm o :
  existsb (String.eqb nm) vocabulary = true →
  builds (λ ts, well_tagged (ns self) ts = true) o →
  builds (λ ts, well_tagged (ns self) ts = true) (wrap (NS nm) o).
Proof.
  intros Hnm. destruct o; cbn [wrap builds]; [|done]. intros H.
  rewrite well_tagged_cons. apply andb_true_intro.
  split; [by apply well_tagged_element | done].
Qed.

Lemma builds_value nm v :
  existsb (String.eqb nm) vocabulary = true →
  builds (λ ts, well_tagged (ns self) ts = true) (value_out self nm v).
Proof.
  intros Hnm. destruct v; unfold value_out, built; cbn [builds]; try done.
  rewrite well_tagged_cons. apply andb_true_intro.
  split; [by apply well_tagged_value | done].
Qed.

Lemma builds_register node :
  builds (λ ts, well_tagged (ns self) ts = true) (register_out self node).
Proof.
  unfold register_out. destruct (kind node); try done.
  destruct (stride_ok _ _); [|done]. cbn [builds].
  rewrite well_tagged_cons. apply andb_true_intro. split; [|done].
  apply well_tagged_element; [reflexivity|].
  rewrite !well_tagged_app, well_tagged_nameGroup, well_tagged_isPresent,
    well_tagged_dims, well_tagged_register_reset, well_tagged_fields.
  tags.
Qed.

Lemma builds_registerData node :
  builds (λ ts, well_tagged (ns self) ts = true) (registerData_out self node).
Proof.
  induction node as [k c cs IH] using Node_ind'.
  unfold registerData_out, registerData_out_. simpl children.
  rewrite Forall_forall in IH.
  assert (∀ x, x ∈ cs →
            builds (λ ts, well_tagged (ns self) ts = true) (registerFile_out self x))
    as Hgroup.
  { intros x Hin. rewrite registerFile_out_unfold.
    destruct (addressable x); [|done].
    apply builds_wrap; [reflexivity|]. apply builds_seq; [|by apply IH].
    unfold built. cbn [builds]. rewrite !well_tagged_app, well_tagged_nameGroup, well_tagged_isPresent,
      well_tagged_dims. tags. }
  destruct (standard self =? IEEE_1685_2014).
  { apply builds_seqs. intros x Hin. unfold child_out.
    destruct (is_RegNode x); [apply builds_register|].
    destruct (is_AddrmapNode x || is_RegfileNode x); [by apply Hgroup|].
    by destruct (is_MemNode x). }
  destruct (standard self =? IEEE_1685_2009); [|done].
  apply builds_seq; apply builds_seqs; intros x Hin.
  - unfold child_reg_out. destruct (is_RegNode x); [apply builds_register | done].
  - unfold child_group_out.
    destruct (is_AddrmapNode x || is_RegfileNode x); [by apply Hgroup|].
    by destruct (is_MemNode x).
Qed.

Lemma builds_addressBlock node :
  builds (λ ts, well_tagged (ns self) ts = true) (addressBlock_out self node).
Proof.
  pose proof (builds_registerData node) as H. unfold addressBlock_out.
  destruct (addressable node); [|done].
  destruct (registerData_out self node) as [ts g ms|]; [|done]. cbn [builds] in *.
  rewrite well_tagged_cons. apply andb_true_intro. split; [|done].
  apply well_tagged_element; [reflexivity|].
  rewrite !well_tagged_app, well_tagged_nameGroup, well_tagged_isPresent, H.
  assert (well_tagged (ns self) (usage_xml self node) = true) as ->.
  { unfold usage_xml. destruct (kind node); tags. }
  tags.
Qed.

Lemma builds_component tn cn :
  builds (λ ts, well_tagged (ns self) ts = true) (component_out self tn cn).
Proof.
  unfold component_out.
  repeat (apply builds_seq; [by apply builds_value|]).
  apply builds_wrap; [reflexivity|]. unfold memoryMap_out.
  apply builds_wrap; [reflexivity|].
  destruct (explode tn); (apply builds_seq; [apply well_tagged_nameGroup|]).
  - unfold exploded_out. apply builds_seqs. intros x _.
    destruct (negb (is_AddressableNode x)); [done | apply builds_addressBlock].
  - apply builds_addressBlock.
Qed.

Lemma init_ns kw0 :
  __init__ kw0 = inr self →
  ns self = if IEEE_1685_2014 <=? standard self then "ipxact:" else "spirit:".
Proof.
  unfold __init__.
  rewrite (pop_eq "vendor"); cbv beta iota.
  rewrite (pop_eq "library"); cbv beta iota.
  rewrite (pop_eq "version"); cbv beta iota.
  rewrite (pop_eq "standard"); cbv beta iota.
  rewrite (pop_eq "xml_indent"); cbv beta iota.
  rewrite (pop_eq "xml_newline"); cbv beta iota.
  destruct (kw_del "xml_newline" _) as [|[k v] rest]; [|done].
  destruct (fst (pop "standard" _ _)); try done. by intros [= <-].
Qed.

(** X11.  The names in the document.  An export by an exporter that the
    constructor has built writes a document in one namespace: every
    element, at any depth, has the prefix of the dialect ([ipxact] for
    2014, [spirit] for 2009) followed by one of the names of the
    vocabulary, and the component declares that very prefix.  No
    vendorExtensions element is ever written: the hooks of this class add
    nothing, and an empty element is not attached. *)
Theorem export_namespace kw0 node path kw s s' :
  __init__ kw0 = inr self →
  export self node path kw s = Ret tt s' →
  ∃ pfx attrs kids,
    (pfx = "ipxact" ∧ standard self = IEEE_1685_2014 ∨
     pfx = "spirit" ∧ standard self = IEEE_1685_2009) ∧
    files s' =
      (path,
       {| written :=
            Some (XDocument [XComment generator_comment;
                             XElement (pfx +:+ ":component") attrs kids]);
          addindent := xml_indent self;
          newl := xml_newline self;
          encoding := "UTF-8" |}) :: files s ∧
    "xmlns:" +:+ pfx ∈ map fst attrs ∧
    well_tagged (pfx +:+ ":") kids = true ∧
    in_vocabulary (pfx +:+ ":") (pfx +:+ ":vendorExtensions") = false.
Proof.
  intros Hinit Hrun. apply init_ns in Hinit.
  destruct (export_cases node path kw)
    as [(e & H)|[(e & H)|(cn & tn & ts & g & ms & _ & _ & _ & Hstd & Ec & H)]].
  { destruct (H s) as (s1 & E & _). congruence. }
  { destruct (H s) as (s1 & E & _). congruence. }
  destruct (H s) as (s1 & E & F & _). rewrite Hrun in E. injection E as <-.
  pose proof (builds_component tn cn) as Hb. rewrite Ec in Hb. cbn [builds] in Hb.
  unfold document_xml, component_attrs in F.
  destruct Hstd as [Hs|Hs]; rewrite Hs in Hinit, F; simpl in Hinit, F.
  - rewrite Hinit in F, Hb. eexists "spirit", _, ts.
    split_and!; [by right | exact F | in_list | exact Hb | reflexivity].
  - rewrite Hinit in F, Hb. eexists "ipxact", _, ts.
    split_and!; [by left | exact F | in_list | exact Hb | reflexivity].
Qed.

(** ** The children of a field *)

Lemma named_app names1 names2 ts1 ts2 :
  named (ns self) names1 ts1 → named (ns self) names2 ts2 →
  named (ns self) (names1 ++ names2) (ts1 ++ ts2).
Proof. apply Forall2_app. Qed.

Lemma named_nameGroup name displayName description :
  ∃ names, names `sublist_of` ["name"; "displayName"; "description"] ∧
           "name" ∈ names ∧
           named (ns self) names (nameGroup_xml self name displayName description).
Proof.
  unfold nameGroup_xml, value_xml, named.
  destruct displayName, description; cbn [app];
    (eexists; split_and!; [..|named_list]; first [by sublist_list | in_list]).
Qed.

Lemma named_isPresent c :
  ∃ names, names `sublist_of` ["isPresent"] ∧
           named (ns self) names (isPresent_xml self c).
Proof.
  unfold isPresent_xml, value_xml, named.
  destruct (_ && _); (eexists; split; [|named_list]; by sublist_list).
Qed.

Lemma named_field_reset f :
  ∃ names, names `sublist_of` ["resets"] ∧
           named (ns self) names (field_reset_xml self f).
Proof.
  unfold field_reset_xml, named.
  destruct (_ <=? _); [destruct (prop_reset f)|];
    (eexists; split; [|named_list]; by sublist_list).
Qed.

Lemma named_field_tail f :
  ∃ names, names `sublist_of` ["bitWidth"; "volatile"; "access"; "enumeratedValues";
                               "modifiedWriteValue"; "readAction"; "testable"] ∧
           "bitWidth" ∈ names ∧ "access" ∈ names ∧
           named (ns self) names (field_tail_xml self f).
Proof.
  unfold field_tail_xml, value_xml, named.
  destruct (is_volatile f), (prop_encode f), (prop_onwrite f), (prop_onread f),
    (prop_donttest f); cbn [app];
    (eexists; split_and!; [..|named_list]; first [by sublist_list | in_list]).
Qed.

Lemma field_children_named c f :
  emits (λ p, add_field self p c f) (NS "field") (λ kids,
    ∃ names,
      names `sublist_of` field_order ∧
      named (ns self) names kids ∧
      "name" ∈ names ∧ "bitOffset" ∈ names ∧
      "bitWidth" ∈ names ∧ "access" ∈ names).
Proof.
  eapply Spec_emits.
  { intros p. apply Spec_add_field. }
  destruct (named_nameGroup (inst_name c) (prop_name c) (prop_desc c))
    as (n1 & S1 & I1 & N1).
  destruct (named_isPresent c) as (n2 & S2 & N2).
  destruct (named_field_reset f) as (n4 & S4 & N4).
  destruct (named_field_tail f) as (n5 & S5 & I5 & I5' & N5).
  exists (n1 ++ n2 ++ ["bitOffset"] ++ n4 ++ n5). split_and!.
  - change field_order with
      (["name"; "displayName"; "description"] ++ ["isPresent"] ++ ["bitOffset"]
       ++ ["resets"] ++ ["bitWidth"; "volatile"; "access"; "enumeratedValues";
                         "modifiedWriteValue"; "readAction"; "testable"]).
    repeat (apply sublist_app; [done|]). done.
  - apply named_app; [done|]. apply named_app; [done|].
    apply named_app; [unfold named, value_xml; named_list|].
    by apply named_app.
  - rewrite elem_of_app. by left.
  - rewrite !elem_of_app. right. right. left. in_list.
  - rewrite !elem_of_app. by do 4 right.
  - rewrite !elem_of_app. by do 4 right.
Qed.

(** X12.  The order of a field's children.  When [add_field] returns, it
    has appended one field element to the parent, and the children of that
    element are elements whose names follow the fixed order name,
    displayName, description, isPresent, bitOffset, resets, bitWidth,
    volatile, access, enumeratedValues, modifiedWriteValue, readAction,
    testable: each at most once, none out of order, and name, bitOffset,
    bitWidth and access always there. *)
Theorem field_children_order c f p s n s' :
  doc s !! p = Some n → is_container n →
  add_field self p c f s = Ret tt s' →
  ∃ k kids names,
    doc s' !! p = Some (add_kids n [k]) ∧
    repr (doc s') (length (doc s)) k (XElement (NS "field") [] kids) ∧
    names `sublist_of` field_order ∧
    named (ns self) names kids ∧
    "name" ∈ names ∧ "bitOffset" ∈ names ∧
    "bitWidth" ∈ names ∧ "access" ∈ names.
Proof.
  intros Hp Hn Hrun.
  destruct (field_children_named c f p s n Hp Hn)
    as (s1 & k & kids & E & Par & _ & R & _ & names & Hnames).
  rewrite Hrun in E. injection E as <-.
  exists k, kids, names. split; [done|]. split; [done|]. exact Hnames.
Qed.

(** X13.  The enumeration of a field.  A field with an [encode] property
    gets one enumeratedValues child that holds one enumeratedValue for
    each member, in the order of the enumeration, with the member's name
    group and its value in the hexadecimal notation of the dialect; an
    enumeration without members still gets the (empty) enumeratedValues
    element; a field without [encode] gets none. *)
Theorem field_enumerated_values c f :
  emits (λ p, add_field self p c f) (NS "field") (λ kids,
    List.filter (has_tag (NS "enumeratedValues")) kids =
    match prop_encode f with
    | Some encode =>
        [XElement (NS "enumeratedValues") []
           (map (λ ev,
              XElement (NS "enumeratedValue") []
                (nameGroup_xml self (ev_name ev) (rdl_name ev) (rdl_desc ev)
                 ++ [XElement (NS "value") [] [XText (hex_str self (ev_value ev))]]))
              encode)]
    | None => []
    end).
Proof.
  eapply Spec_emits.
  { intros p. apply Spec_add_field. }
  rewrite !List.filter_app.
  rewrite (filter_tagged _ "enumeratedValues" _ (tagged_nameGroup _ _ _)) by not_in_list.
  rewrite (filter_tagged _ "enumeratedValues" _ (tagged_isPresent _)) by not_in_list.
  rewrite (filter_tagged _ "enumeratedValues" _ (tagged_field_reset _)) by not_in_list.
  unfold field_tail_xml.
  destruct (is_volatile f), (prop_encode f), (prop_onwrite f), (prop_onread f),
    (prop_donttest f); cbn [List.filter app];
    rewrite ?has_tag_value, ?has_tag_element; reflexivity.
Qed.

(** ** The order of the children, in general *)

Lemma Forall2_seqs {A B} (R : B → xml → Prop) (f : A → Outcome) (h : A → list B)
    (l : list A) ts g ms :
  (∀ x ts g ms, x ∈ l → f x = Built ts g ms → Forall2 R (h x) ts) →
  seqs (map f l) = Built ts g ms → Forall2 R (flat_map h l) ts.
Proof.
  revert ts g ms. induction l as [|x l IH]; intros ts g ms H; simpl.
  - intros [= <- _ _]. constructor.
  - intros E. apply seq_Built_inv in E
      as (ts1 & g1 & ms1 & ts2 & g2 & ms2 & E1 & E2 & -> & _ & _).
    apply Forall2_app.
    + eapply H; [left | exact E1].
    + eapply IH; [|exact E2]. intros; eapply H; [by right | done].
Qed.

Lemma flat_map_singleton_filter {A} (P : A → bool) (l : list A) :
  flat_map (λ x, if P x then [x] else []) l = List.filter P l.
Proof.
  induction l as [|x l IH]; [done|]. simpl. rewrite IH. by destruct (P x).
Qed.

Lemma rendered_register x ts g ms :
  is_RegNode x → register_out self x = Built ts g ms →
  Forall2 (rendered_as self) [x] ts.
Proof.
  unfold register_out. intros Hx. apply Is_true_true in Hx.
  destruct (kind x); try done. destruct (stride_ok _ _); [|done].
  intros [= <- _ _]. constructor; [|constructor].
  unfold rendered_as. rewrite Hx. unfold nameGroup_xml, value_xml, get_name.
  by eexists.
Qed.

Lemma rendered_registerFile x ts g ms :
  is_RegNode x = false → registerFile_out self x = Built ts g ms →
  Forall2 (rendered_as self) [x] ts.
Proof.
  rewrite registerFile_out_unfold. intros Hx.
  destruct (addressable x); [|done].
  destruct (registerData_out self x); [|done].
  intros [= <- _ _]. constructor; [|constructor].
  unfold rendered_as. rewrite Hx.
  unfold nameGroup_xml, value_xml, get_name. by eexists.
Qed.

Lemma rendered_registerData node ts g ms :
  registerData_out self node = Built ts g ms →
  Forall2 (rendered_as self) (render_order self node) ts.
Proof.
  unfold registerData_out, registerData_out_, render_order, is_group.
  destruct (standard self =? IEEE_1685_2014).
  { rewrite <-flat_map_singleton_filter. apply Forall2_seqs.
    intros x ts' g' ms' _. unfold child_out.
    destruct (is_RegNode x) eqn:Ex; simpl.
    { apply rendered_register. by rewrite Ex. }
    destruct (is_AddrmapNode x || is_RegfileNode x); simpl.
    { by apply rendered_registerFile. }
    destruct (is_MemNode x); intros [= <- _ _]; constructor. }
  destruct (standard self =? IEEE_1685_2009); [|done].
  intros E. apply seq_Built_inv in E
    as (ts1 & g1 & ms1 & ts2 & g2 & ms2 & E1 & E2 & -> & _ & _).
  apply Forall2_app.
  - rewrite <-flat_map_singleton_filter. eapply Forall2_seqs; [|exact E1].
    intros x ts' g' ms' _. unfold child_reg_out.
    destruct (is_RegNode x) eqn:Ex.
    + apply rendered_register. by rewrite Ex.
    + intros [= <- _ _]; constructor.
  - rewrite <-flat_map_singleton_filter. eapply Forall2_seqs; [|exact E2].
    intros x ts' g' ms' _. unfold child_group_out.
    destruct (is_AddrmapNode x || is_RegfileNode x) eqn:Eg.
    + apply rendered_registerFile.
      unfold is_RegNode, is_AddrmapNode, is_RegfileNode in *.
      by destruct (kind x).
    + destruct (is_MemNode x); intros [= <- _ _]; constructor.
Qed.

(** X14.  The order of the children of any container.  When every
    register beneath the node passes the stride check, [add_registerData]
    returns and appends to the parent one element for each child that is a
    register, an addrmap or a regfile, and nothing for any other child:
    under 2014 in source order, registers and register files interleaved;
    under 2009 all the registers in source order and then all the register
    files in source order.  Each element is a register or a registerFile
    according to the kind of its child, and begins with the child's name. *)
Theorem child_order_general p node s n :
  known_standard self →
  forallb register_ok (registers_beneath node) = true →
  doc s !! p = Some n → is_container n →
  ∃ s' ks ts,
    add_registerData self p node s = Ret tt s' ∧
    doc s' !! p = Some (add_kids n ks) ∧
    Forall2 (repr (doc s') (length (doc s))) ks ts ∧
    Forall2 (rendered_as self) (render_order self node) ts.
Proof.
  intros Hstd Hok Hp Hn.
  destruct (registerData_out_ok node Hstd Hok) as (ts & g & ms & E & _ & _).
  pose proof (Spec_add_registerData p node s n Hp Hn) as H. rewrite E in H.
  destruct H as (s' & ks & Er & P). destruct P as [L Par Fr K W Ms F].
  exists s', ks, ts. split_and!; try done. by eapply rendered_registerData.
Qed.

(** ** The siblings of a dropped memory *)

Lemma renders_Built (m : nat → M unit) t g ms :
  (∀ q, Spec (m q) q (Built [t] g ms)) → renders m t.
Proof.
  intros H q s n Hq Hn. destruct (H q s n Hq Hn) as (s' & ks & E & P).
  destruct P as [_ Par _ K _ _ _].
  apply Forall2_cons_inv_r in K as (k & ks' & Hk & K & ->).
  apply Forall2_nil_inv_r in K as ->. by exists s', k.
Qed.

Lemma sibling_register x ts g ms :
  is_RegNode x → register_out self x = Built ts g ms →
  Forall2 (λ child t, rendered_as self child t ∧ renders (render_child self child) t)
    [x] ts.
Proof.
  intros Hx E. pose proof (rendered_register x ts g ms Hx E) as Hr.
  apply Forall2_cons_inv_l in Hr as (t & ts' & Ht & Hnil & ->).
  apply Forall2_nil_inv_l in Hnil as ->.
  constructor; [|constructor]. split; [done|].
  apply (renders_Built _ t g ms). intros q. rewrite <-E.
  unfold render_child. apply Is_true_true in Hx. rewrite Hx.
  apply Spec_add_register.
Qed.

Lemma sibling_registerFile x ts g ms :
  is_RegNode x = false → registerFile_out self x = Built ts g ms →
  Forall2 (λ child t, rendered_as self child t ∧ renders (render_child self child) t)
    [x] ts.
Proof.
  intros Hx E. pose proof (rendered_registerFile x ts g ms Hx E) as Hr.
  apply Forall2_cons_inv_l in Hr as (t & ts' & Ht & Hnil & ->).
  apply Forall2_nil_inv_l in Hnil as ->.
  constructor; [|constructor]. split; [done|].
  apply (renders_Built _ t g ms). intros q. rewrite <-E.
  unfold render_child. rewrite Hx. apply Spec_add_registerFile.
Qed.

Lemma siblings_registerData node ts g ms :
  registerData_out self node = Built ts g ms →
  Forall2 (λ child t, rendered_as self child t ∧ renders (render_child self child) t)
    (render_order self node) ts.
Proof.
  unfold registerData_out, registerData_out_, render_order, is_group.
  destruct (standard self =? IEEE_1685_2014).
  { rewrite <-flat_map_singleton_filter. apply Forall2_seqs.
    intros x ts' g' ms' _. unfold child_out.
    destruct (is_RegNode x) eqn:Ex; simpl.
    { apply sibling_register. by rewrite Ex. }
    destruct (is_AddrmapNode x || is_RegfileNode x); simpl.
    { by apply sibling_registerFile. }
    destruct (is_MemNode x); intros [= <- _ _]; constructor. }
  destruct (standard self =? IEEE_1685_2009); [|done].
  intros E. apply seq_Built_inv in E
    as (ts1 & g1 & ms1 & ts2 & g2 & ms2 & E1 & E2 & -> & _ & _).
  apply Forall2_app.
  - rewrite <-flat_map_singleton_filter. eapply Forall2_seqs; [|exact E1].
    intros x ts' g' ms' _. unfold child_reg_out.
    destruct (is_RegNode x) eqn:Ex.
    + apply sibling_register. by rewrite Ex.
    + intros [= <- _ _]; constructor.
  - rewrite <-flat_map_singleton_filter. eapply Forall2_seqs; [|exact E2].
    intros x ts' g' ms' _. unfold child_group_out.
    destruct (is_AddrmapNode x || is_RegfileNode x) eqn:Eg.
    + apply sibling_registerFile.
      unfold is_RegNode, is_AddrmapNode, is_RegfileNode in *.
      by destruct (kind x).
    + destruct (is_MemNode x); intros [= <- _ _]; constructor.
Qed.

(** C6.  A memory nested in a register hierarchy.  Rendering the children
    of a container that has a mem child reports the warning for that child
    and goes on: when it returns, the elements appended to the parent are
    the renderings of the other children, one for each sibling that is a
    register, an addrmap or a regfile, in the order of the dialect, each
    being the very tree that [add_register] or [add_registerFile] builds
    for that sibling and bearing its kind and name; they are the elements,
    and the running maximum is the one, of the container without the mem.
    It fails only where rendering without the child fails, which is for a
    register stride and never for the memory. *)
Theorem nested_mem_dropped k c pre m post :
  known_standard self →
  is_MemNode m →
  ∀ p s n, doc s !! p = Some n → is_container n →
    match add_registerData self p (mkNode k c (pre ++ m :: post)) s with
    | Ret _ s1 =>
        ∃ s2 ks1 ks2 ts,
          add_registerData self p (mkNode k c (pre ++ post)) s = Ret tt s2 ∧
          doc s1 !! p = Some (add_kids n ks1) ∧
          doc s2 !! p = Some (add_kids n ks2) ∧
          Forall2 (repr (doc s1) (length (doc s))) ks1 ts ∧
          Forall2 (repr (doc s2) (length (doc s))) ks2 ts ∧
          Forall2 (λ child t, rendered_as self child t ∧
                              renders (render_child self child) t)
            (render_order self (mkNode k c (pre ++ post))) ts ∧
          forallb register_ok (registers_beneath (mkNode k c (pre ++ post))) = true ∧
          _max_width s1 = _max_width s2 ∧
          Warning (mem_msg m) ∈ messages s1 ∧
          files s1 = files s
    | Raise e s1 =>
        e = RDLCompileError stride_msg ∧
        forallb register_ok (registers_beneath (mkNode k c (pre ++ post))) = false ∧
        ∃ s2, add_registerData self p (mkNode k c (pre ++ post)) s = Raise e s2
    end.
Proof.
  intros Hstd Hm p s n Hp Hn.
  pose proof (registerData_drops k c pre m post Hm) as Hd.
  pose proof (Spec_add_registerData p (mkNode k c (pre ++ m :: post)) s n Hp Hn) as H1.
  pose proof (Spec_add_registerData p (mkNode k c (pre ++ post)) s n Hp Hn) as H2.
  pose proof (summary_registerData (mkNode k c (pre ++ post)) Hstd) as Hs.
  pose proof (siblings_registerData (mkNode k c (pre ++ post))) as Hsib.
  destruct (registerData_out self (mkNode k c (pre ++ m :: post))) as [ts g ms|e],
    (registerData_out self (mkNode k c (pre ++ post))) as [ts' g' ms'|e'];
    simpl in Hd; try done.
  - destruct Hd as (<- & Hg & Hin).
    destruct H1 as (s1 & ks1 & E1 & P1), H2 as (s2 & ks2 & E2 & P2).
    rewrite E1. exists s2, ks1, ks2, ts.
    destruct P1 as [L1 Par1 Fr1 K1 W1 M1 F1], P2 as [L2 Par2 Fr2 K2 W2 M2 F2].
    destruct Hs as [Hok _].
    split_and!; try done.
    + by eapply Hsib.
    + by rewrite W1, W2.
    + rewrite M1, elem_of_app. by right.
  - subst e'. destruct H1 as (s1 & E1 & F1), H2 as (s2 & E2 & F2).
    rewrite E1. destruct Hs as [Hs ->]. split_and!; [done | done | by exists s2].
Qed.

(** ** The elements of an address block and of a register *)

(** X15.  What an address block holds.  After the name group and the
    presence marker come the base address (the absolute address of the
    node, not its offset) and the range (its size) in the hexadecimal
    notation of the dialect, then the width; a mem adds the usage
    [memory] and its access, any other node adds neither; registers and
    register files are all that follows.  The array dimensions of the node
    are not written. *)
Theorem address_block_shape node a :
  known_standard self →
  addressable node = Some a →
  forallb register_ok (registers_beneath node) = true →
  emits (λ p, add_addressBlock self p node) (NS "addressBlock") (λ kids,
    ∃ rest,
      tagged (ns self) ["register"; "registerFile"] rest ∧
      kids =
        nameGroup_xml self (inst_name (common node))
          (prop_name (common node)) (prop_desc (common node))
        ++ isPresent_xml self (common node)
        ++ [XElement (NS "baseAddress") [] [XText (hex_str self (absolute_address a))];
            XElement (NS "range") [] [XText (hex_str self (size a))];
            XElement (NS "width") [] [XText (fmt_d (block_width node))]]
        ++ match kind node with
           | MemNode _ _ sw =>
               [XElement (NS "usage") [] [XText "memory"];
                XElement (NS "access") [] [XText (access_from_sw sw)]]
           | _ => []
           end
        ++ rest).
Proof.
  intros Hstd Ha Hok.
  destruct (addressBlock_out_built node a Hstd Ha Hok) as (ts & g & ms & Ht & _ & E).
  eapply Spec_emits.
  { intros p. rewrite <-E. apply Spec_add_addressBlock. }
  exists ts. split; [done|]. unfold usage_xml, get_name. by destruct (kind node).
Qed.

(** X16.  What a register holds.  After the name group, the presence
    marker and the dimensions come the address offset (the raw offset of
    the node) in hexadecimal and the size (the regwidth) in decimal, then
    at most one register-level reset, then one field element for each
    field of the register, in the order of the fields, each beginning
    with the name of its field. *)
Theorem register_shape node a regwidth :
  kind node = RegNode a regwidth →
  register_ok node = true →
  emits (λ p, add_register self p node) (NS "register") (λ kids,
    ∃ reset field_elements,
      kids =
        nameGroup_xml self (inst_name (common node))
          (prop_name (common node)) (prop_desc (common node))
        ++ isPresent_xml self (common node)
        ++ dims_xml self a
        ++ [XElement (NS "addressOffset") []
              [XText (hex_str self (raw_address_offset a))];
            XElement (NS "size") [] [XText (fmt_d regwidth)]]
        ++ reset ++ field_elements ∧
      tagged (ns self) ["reset"] reset ∧ (length reset ≤ 1)%nat ∧
      Forall2 (λ f t, ∃ rest,
                 t = XElement (NS "field") []
                       (XElement (NS "name") [] [XText (inst_name (fst f))] :: rest))
        (fields node) field_elements).
Proof.
  intros Hk Hrok. eapply Spec_emits.
  { intros p. rewrite <-(register_out_built node a regwidth Hk Hrok).
    apply Spec_add_register. }
  exists (register_reset_xml self (fields node)),
         (map (λ f, field_xml self (fst f) (snd f)) (fields node)).
  split_and!.
  - done.
  - apply tagged_register_reset.
  - unfold register_reset_xml. destruct (_ <=? _); [|simpl; lia].
    destruct (reset_and_mask _). destruct (negb _); simpl; lia.
  - induction (fields node) as [|f fs IH]; constructor; [|done].
    unfold field_xml, nameGroup_xml, value_xml. by eexists.
Qed.

Lemma registerData_built_known node ts g ms :
  registerData_out self node = Built ts g ms → known_standard self.
Proof.
  unfold registerData_out, registerData_out_, known_standard.
  destruct (Z.eqb_spec (standard self) IEEE_1685_2014); [by right|].
  destruct (Z.eqb_spec (standard self) IEEE_1685_2009); [by left | done].
Qed.

Lemma max_width_of_attained (l : list Z) w :
  max_width_of l = Some w → w ∈ l.
Proof.
  revert w. induction l as [|y l IH]; intros w; [done|].
  rewrite max_width_of_cons.
  destruct (max_width_of l) as [m|]; simpl; intros [= <-]; [|left].
  destruct (Z.max_spec y m) as [[_ ->]|[_ ->]]; [right; by apply IH | left].
Qed.

Lemma max_width_of_covers (l : list Z) x :
  x ∈ l → ∃ w, max_width_of l = Some w ∧ x ≤ w ∧ w ∈ l.
Proof.
  intros Hin.
  assert (∃ w, max_width_of l = Some w ∧ x ≤ w) as (w & Hw & Hle).
  { induction l as [|y l IH]; [by apply elem_of_nil in Hin|].
    rewrite max_width_of_cons. apply elem_of_cons in Hin as [->|Hin].
    - destruct (max_width_of l) as [m|]; simpl; eexists; (split; [done|]); lia.
    - destruct (IH Hin) as (w & -> & Hle). simpl. eexists. split; [done|]. lia. }
  exists w. split_and!; [done | done | by apply max_width_of_attained].
Qed.

(** X17.  The running maximum covers every register.  When
    [add_addressBlock] returns, [_max_width] is a number that is at least
    the regwidth of each register rendered beneath the block, and is the
    regwidth of one of them; so the width written for the block is wide
    enough for all of its registers. *)
Theorem max_width_covers_registers p node s n s' reg :
  doc s !! p = Some n → is_container n →
  add_addressBlock self p node s = Ret tt s' →
  reg ∈ registers_beneath node →
  ∃ w reg',
    _max_width s' = Some w ∧ regwidth_of reg ≤ w ∧
    reg' ∈ registers_beneath node ∧ w = regwidth_of reg'.
Proof.
  intros Hp Hn Hrun Hreg.
  pose proof (Spec_add_addressBlock p node s n Hp Hn) as H.
  unfold addressBlock_out in H.
  destruct (addressable node) as [a|].
  2:{ destruct H as (s1 & E & _). congruence. }
  destruct (registerData_out self node) as [ts g ms|e] eqn:E.
  2:{ destruct H as (s1 & E1 & _). congruence. }
  destruct H as (s1 & ks & E1 & P). rewrite Hrun in E1. injection E1 as <-.
  destruct P as [_ _ _ _ W _ _].
  pose proof (summary_registerData node (registerData_built_known _ _ _ _ E)) as Hs.
  rewrite E in Hs. destruct Hs as [_ Hg]. rewrite Hg, opt_max_None_r in W.
  destruct (max_width_of_covers (map regwidth_of (registers_beneath node))
              (regwidth_of reg)) as (w & Hw & Hle & Hin).
  { apply list_elem_of_fmap. by exists reg. }
  apply list_elem_of_fmap in Hin as (reg' & -> & Hin).
  exists (regwidth_of reg'), reg'. rewrite W, Hw. done.
Qed.

(** ** When the 2009 reset is written *)

Lemma ones_zero w : 0 ≤ w → Z.ones w = 0 ↔ w = 0.
Proof.
  intros Hw. rewrite Z.ones_equiv. split; [|by intros ->].
  intros H. destruct (decide (w = 0)) as [|Hne]; [done|].
  pose proof (Z.pow_gt_1 2 w). lia.
Qed.

Lemma field_mask_zero f :
  0 ≤ width f → 0 ≤ lsb f → field_mask f = 0 ↔ width f = 0.
Proof.
  intros Hw Hl. rewrite field_mask_ones, Z.shiftl_eq_0_iff by done.
  by apply ones_zero.
Qed.

Lemma spec_mask_zero (fs : list (Common * FieldInfo)) :
  Forall (λ f, 0 ≤ width (snd f) ∧ 0 ≤ lsb (snd f)) fs →
  spec_mask fs = 0 ↔
  Forall (λ f, prop_reset (snd f) = None ∨ width (snd f) = 0) fs.
Proof.
  induction 1 as [|f fs [Hw Hl] _ IH].
  - split; [constructor | done].
  - destruct (spec_reset_mask_cons f fs) as [_ ->]. rewrite Forall_cons.
    destruct (prop_reset (snd f)) as [v|].
    + rewrite Z.lor_eq_0_iff, IH, field_mask_zero by done.
      set_aside. intuition congruence.
    + rewrite IH. set_aside. intuition.
Qed.

(** X18.  When the 2009 register has a reset.  Under 1685-2009 a
    register gets no reset element exactly when none of its fields
    declares a reset, fields of width 0 apart; so a field of positive
    width that declares a reset, be it a reset of 0, is enough for the
    element to be there. *)
Theorem register_reset_presence node a regwidth :
  kind node = RegNode a regwidth →
  register_ok node = true →
  standard self = IEEE_1685_2009 →
  Forall (λ f, 0 ≤ width (snd f) ∧ 0 ≤ lsb (snd f)) (fields node) →
  emits (λ p, add_register self p node) (NS "register") (λ kids,
    List.filter (has_tag (NS "reset")) kids = [] ↔
    Forall (λ f, prop_reset (snd f) = None ∨ width (snd f) = 0) (fields node)).
Proof.
  intros Hk Hrok Hstd Hwf. eapply Spec_emits.
  { intros p. rewrite <-(register_out_built node a regwidth Hk Hrok).
    apply Spec_add_register. }
  rewrite register_kids_reset by done.
  rewrite <-(spec_mask_zero _ Hwf).
  unfold register_reset_xml. rewrite Hstd, reset_and_mask_spec. simpl.
  destruct (Z.eqb_spec (spec_mask (fields node)) 0) as [->|Hne]; simpl.
  - done.
  - split; [done | by intros ?].
Qed.

(** ** The root and its top addrmap *)

Lemma top_not_root node t : top node = Some t → is_RootNode t = false.
Proof.
  unfold top. intros H. apply find_some in H as [_ H].
  unfold is_AddrmapNode, is_RootNode in *. by destruct (kind t).
Qed.

(** X19.  Exporting the root is exporting its top addrmap: from any
    state, the two calls end in the same way, with the same state. *)
Theorem export_root_is_top node t path kw s :
  is_RootNode node → top node = Some t →
  export self node path kw s = export self t path kw s.
Proof.
  intros Hroot Htop. apply Is_true_true in Hroot.
  pose proof (top_not_root node t Htop) as Ht.
  unfold export. destruct (pop "component_name" PNone kw) as [cn rest].
  destruct rest as [|[k v] rest]; [|done].
  rewrite Hroot, Htop, Ht. reflexivity.
Qed.

(** ** A value that is not text *)

(** X20.  [add_value] with a value that is not a string raises the
    TypeError of [createTextNode].  The element it has created by then is
    attached nowhere: every node of the document, the parent among them, is
    as it was, and so are the files and the messages. *)
Theorem add_value_non_text parent tag v s :
  is_str v = false →
  ∃ s', add_value parent tag v s
          = Raise (TypeError "node contents must be a string") s' ∧
        (∀ j, (j < length (doc s))%nat → doc s' !! j = doc s !! j) ∧
        files s' = files s ∧ messages s' = messages s ∧
        _max_width s' = _max_width s.
Proof.
  intros Hv. exists (set_doc (doc s ++ [Element tag [] []]) s).
  split_and!; try done.
  - unfold add_value. erewrite (bind_Ret (createElement tag)) by reflexivity.
    by destruct v.
  - intros j Hj. simpl. by rewrite lookup_app_l.
Qed.

(** ** The fatal error in the message sink *)

(** X21.  The stride error is reported before it is raised.  When the
    stride of an arrayed register is not its size in bytes, [add_register]
    ends with the fatal error, and the message sink has received exactly
    one more message: the fatal message itself.  No file is touched. *)
Theorem stride_fatal_reported p node s n a regwidth arr :
  kind node = RegNode a regwidth →
  array a = Some arr →
  8 * array_stride arr ≠ regwidth →
  doc s !! p = Some n → is_container n →
  ∃ s', add_register self p node s = Raise (RDLCompileError stride_msg) s' ∧
        messages s' = messages s ++ [Fatal stride_msg] ∧
        files s' = files s.
Proof.
  intros Hk Harr Hbad Hp Hn. unfold add_register.
  pose proof (lookup_lt_Some _ _ _ Hp) as Hlt.
  erewrite (bind_Ret (createElement _)) by reflexivity.
  set (register := length (doc s)).
  set (s1 := set_doc (doc s ++ [Element (NS "register") [] []]) s).
  assert (doc s1 !! p = Some n) as Hp1 by (simpl; by rewrite lookup_app_l).
  rewrite (bind_Ret _ _ _ _ _ (appendChild_Ret p register s1 n Hp1 Hn)).
  set (s2 := set_doc _ s1).
  assert (doc s2 !! register = Some (Element (NS "register") [] [])) as Hr2.
  { simpl. rewrite list_lookup_insert_ne by (unfold register; lia).
    unfold register. by rewrite lookup_app_r, Nat.sub_diag by lia. }
  destruct (Spec_add_nameGroup register (get_name node) (prop_name (common node))
              (prop_desc (common node)) s2 _ Hr2 I) as (s3 & ks3 & E3 & P3).
  rewrite (bind_Ret _ _ _ _ _ E3).
  destruct (Spec_add_isPresent register (common node) s3 _
              (post_parent _ _ _ _ _ _ _ _ P3) I) as (s4 & ks4 & E4 & P4).
  rewrite (bind_Ret _ _ _ _ _ E4). rewrite Hk, Harr.
  apply Z.eqb_neq in Hbad. rewrite Hbad. simpl negb.
  exists (add_message (Fatal stride_msg) s4). split; [reflexivity|].
  simpl. rewrite (post_messages _ _ _ _ _ _ _ _ P4), (post_messages _ _ _ _ _ _ _ _ P3).
  rewrite (post_files _ _ _ _ _ _ _ _ P4), (post_files _ _ _ _ _ _ _ _ P3).
  simpl. by rewrite !app_nil_r.
Qed.

End MethodSpecs.

End Exporter.

(** * Witnesses: the theorems at the example inputs *)

Lemma address_block_width_witness :
  block_width example_top = 64 ∧
  ∃ s' ab kids,
    add_addressBlock example_access_from_sw example_mwv_from_onwrite
      example_readaction_from_onread (example_exporter 2014) 0 example_top
      example_state = Ret tt s' ∧
    repr (doc s') 1 ab (XElement "ipxact:addressBlock" [] kids) ∧
    List.filter (has_tag "ipxact:width") kids
      = [XElement "ipxact:width" [] [XText "64"]].
Proof.
  split; [reflexivity|].
  destruct (address_block_width example_access_from_sw example_mwv_from_onwrite
              example_readaction_from_onread (example_exporter 2014) 0
              example_top example_state (Element "parent" [] [])
              (example_address 0 512 None)
              (or_intror eq_refl) eq_refl I eq_refl eq_refl)
    as (s' & ab & kids & H1 & _ & H3 & H4 & _).
  exists s', ab, kids. split; [exact H1|]. split; [exact H3 | exact H4].
Defined.

Lemma explode_or_wrap_witness :
  spec_explode example_soc = true ∧
  ∃ s' tn,
    export example_access_from_sw example_mwv_from_onwrite
      example_readaction_from_onread example_writable (example_exporter 2014)
      example_soc "out.xml" [] example_state = Ret tt s' ∧
    export_top example_soc = Some tn ∧
    explode tn = spec_explode tn.
Proof.
  split; [reflexivity|].
  assert (∃ s', export example_access_from_sw example_mwv_from_onwrite
                  example_readaction_from_onread example_writable
                  (example_exporter 2014)
                  example_soc "out.xml" [] example_state = Ret tt s') as [s' H].
  { eexists. vm_compute. reflexivity. }
  destruct (explode_or_wrap _ _ _ _ _ _ _ _ _ _ H)
    as (tn & head & mm & Htop & _ & _ & Hex & _).
  exists s', tn. split; [exact H|]. split; [exact Htop | exact Hex].
Defined.

Lemma reset_representation_witness :
  ∃ s' k kids,
    add_register example_access_from_sw example_mwv_from_onwrite
      example_readaction_from_onread (example_exporter 2009) 0 example_A
      example_state = Ret tt s' ∧
    repr (doc s') 1 k (XElement "spirit:register" [] kids) ∧
    List.filter (has_tag "spirit:reset") kids =
      [XElement "spirit:reset" []
         [XElement "spirit:value" [] [XText "0x7"];
          XElement "spirit:mask" [] [XText "0x7"]]].
Proof.
  destruct (proj1 (reset_representation example_access_from_sw
                     example_mwv_from_onwrite example_readaction_from_onread
                     (example_exporter 2009) example_A
                     (example_address 0 4 None) 32 eq_refl eq_refl)
              eq_refl 0%nat example_state (Element "parent" [] []) eq_refl I)
    as (s' & k & kids & H1 & _ & _ & H3 & _ & H5 & _).
  exists s', k, kids. split; [exact H1|]. split; [exact H3 | exact H5].
Defined.

Lemma array_stride_check_witness :
  (∃ s', add_register example_access_from_sw example_mwv_from_onwrite
           example_readaction_from_onread (example_exporter 2014) 0
           example_array_bad example_state
         = Raise (RDLCompileError stride_msg) s' ∧ files s' = []) ∧
  (∃ s', export example_access_from_sw example_mwv_from_onwrite
           example_readaction_from_onread example_writable (example_exporter 2014)
           example_top_bad "out.xml" [] example_state
         = Raise (RDLCompileError stride_msg) s' ∧ files s' = []) ∧
  (∃ s' kids,
     add_register example_access_from_sw example_mwv_from_onwrite
       example_readaction_from_onread (example_exporter 2014) 0
       example_array_ok example_state = Ret tt s' ∧
     List.filter (has_tag "ipxact:dim") kids =
       [XElement "ipxact:dim" [] [XText "2"];
        XElement "ipxact:dim" [] [XText "3"]]).
Proof.
  pose proof (array_stride_check example_access_from_sw example_mwv_from_onwrite
                example_readaction_from_onread example_writable (example_exporter 2014)
                example_array_bad (example_address 64 4
                   (Some {| array_dimensions := [4]; array_stride := 8 |})) 32
                {| array_dimensions := [4]; array_stride := 8 |}
                eq_refl eq_refl) as [Hbad _].
  pose proof (array_stride_check example_access_from_sw example_mwv_from_onwrite
                example_readaction_from_onread example_writable (example_exporter 2014)
                example_array_ok (example_address 16 4
                   (Some {| array_dimensions := [2; 3]; array_stride := 4 |})) 32
                {| array_dimensions := [2; 3]; array_stride := 4 |}
                eq_refl eq_refl) as [_ Hok].
  destruct (Hbad ltac:(discriminate)) as [Hreg Hexp].
  split; [|split].
  - exact (Hreg 0%nat example_state (Element "parent" [] []) eq_refl I).
  - apply (Hexp example_top_bad "out.xml" [] example_state PNone example_top_bad
             (or_intror eq_refl) eq_refl eq_refl I I).
    apply list_elem_of_further, list_elem_of_here.
  - destruct (Hok eq_refl 0%nat example_state (Element "parent" [] []) eq_refl I)
      as (s' & k & kids & H1 & _ & _ & _ & _ & H5).
    exists s', kids. split; [exact H1 | exact H5].
Defined.

Lemma child_order_witness :
  (∃ s' kids a b c,
     add_registerData example_access_from_sw example_mwv_from_onwrite
       example_readaction_from_onread (example_exporter 2014) 0 example_group
       example_state = Ret tt s' ∧
     Forall2 (repr (doc s') 1) kids
       [XElement "ipxact:register" [] (XElement "ipxact:name" [] [XText "A"] :: a);
        XElement "ipxact:registerFile" [] (XElement "ipxact:name" [] [XText "B"] :: b);
        XElement "ipxact:register" [] (XElement "ipxact:name" [] [XText "C"] :: c)]) ∧
  (∃ s' kids a b c,
     add_registerData example_access_from_sw example_mwv_from_onwrite
       example_readaction_from_onread (example_exporter 2009) 0 example_group
       example_state = Ret tt s' ∧
     Forall2 (repr (doc s') 1) kids
       [XElement "spirit:register" [] (XElement "spirit:name" [] [XText "A"] :: a);
        XElement "spirit:register" [] (XElement "spirit:name" [] [XText "C"] :: c);
        XElement "spirit:registerFile" [] (XElement "spirit:name" [] [XText "B"] :: b)]).
Proof.
  split.
  - destruct (child_order example_access_from_sw example_mwv_from_onwrite
                example_readaction_from_onread (example_exporter 2014)
                example_group example_A example_B example_C
                (or_intror eq_refl) eq_refl I I I eq_refl eq_refl eq_refl
                0%nat example_state (Element "parent" [] []) eq_refl I)
      as (s' & kids & ts & a & b & c & H1 & _ & H3 & H4 & _).
    exists s', kids, a, b, c. split; [exact H1|].
    rewrite (H4 eq_refl) in H3. exact H3.
  - destruct (child_order example_access_from_sw example_mwv_from_onwrite
                example_readaction_from_onread (example_exporter 2009)
                example_group example_A example_B example_C
                (or_introl eq_refl) eq_refl I I I eq_refl eq_refl eq_refl
                0%nat example_state (Element "parent" [] []) eq_refl I)
      as (s' & kids & ts & a & b & c & H1 & _ & H3 & _ & H5).
    exists s', kids, a, b, c. split; [exact H1|].
    rewrite (H5 eq_refl) in H3. exact H3.
Defined.

Lemma nested_mem_dropped_witness :
  ∃ s1 ks ts,
    add_registerData example_access_from_sw example_mwv_from_onwrite
      example_readaction_from_onread (example_exporter 2014) 0
      (mkNode (RegfileNode (example_address 0 12 None)) (example_common "G" true)
         ([example_A] ++ example_mem :: [example_C]))
      example_state = Ret tt s1 ∧
    doc s1 !! 0%nat = Some (Element "parent" [] ks) ∧
    Forall2 (repr (doc s1) 1) ks ts ∧
    Forall2 (rendered_as (example_exporter 2014)) [example_A; example_C] ts ∧
    Warning (mem_msg example_mem) ∈ messages s1 ∧
    files s1 = [].
Proof.
  pose proof (nested_mem_dropped example_access_from_sw example_mwv_from_onwrite
                example_readaction_from_onread (example_exporter 2014)
                (RegfileNode (example_address 0 12 None)) (example_common "G" true)
                [example_A] example_mem [example_C] (or_intror eq_refl) I
                0%nat example_state (Element "parent" [] []) eq_refl I) as H.
  destruct (add_registerData _ _ _ _ _ _ _) as [[] s1|e s1].
  - destruct H as (s2 & ks1 & ks2 & ts & _ & Par & _ & K & _ & Sib & _ & _ & Hw & Hf).
    exists s1, ks1, ts. split; [reflexivity|]. split; [exact Par|].
    split; [exact K|]. split; [|split; [exact Hw | exact Hf]].
    eapply Forall2_impl; [exact Sib|]. intros child t [Hr _]. exact Hr.
  - destruct H as (_ & Hbad & _). discriminate Hbad.
Defined.

Lemma presence_marker_witness :
  ∃ s' k kids,
    add_registerFile example_access_from_sw example_mwv_from_onwrite
      example_readaction_from_onread (example_exporter 2014) 0 example_B
      example_state = Ret tt s' ∧
    repr (doc s') 1 k (XElement "ipxact:registerFile" [] kids) ∧
    List.filter (has_tag "ipxact:isPresent") kids =
      [XElement "ipxact:isPresent" [] [XText "0"]].
Proof.
  destruct (proj1 (proj2
              (presence_marker example_access_from_sw example_mwv_from_onwrite
                 example_readaction_from_onread (example_exporter 2014)
                 example_B (example_common "F" true)
                 (example_field_info 0 1 None) (example_address 4 4 None) 32
                 (or_intror eq_refl) eq_refl eq_refl))
              0%nat example_state (Element "parent" [] []) eq_refl I)
    as (s' & k & kids & H1 & _ & _ & H3 & _ & H5).
  exists s', k, kids. split; [exact H1|]. split; [exact H3 | exact H5].
Defined.

Lemma register_file_range_witness :
  ∃ s' k rest,
    add_registerFile example_access_from_sw example_mwv_from_onwrite
      example_readaction_from_onread (example_exporter 2014) 0
      example_group_array example_state = Ret tt s' ∧
    repr (doc s') 1 k
      (XElement "ipxact:registerFile" []
         (XElement "ipxact:name" [] [XText "GA"]
          :: XElement "ipxact:dim" [] [XText "4"]
          :: XElement "ipxact:addressOffset" [] [XText "'h0"]
          :: XElement "ipxact:range" [] [XText "'h10"]
          :: rest)).
Proof.
  destruct (register_file_range example_access_from_sw example_mwv_from_onwrite
              example_readaction_from_onread (example_exporter 2014)
              example_group_array
              (example_address 0 12
                 (Some {| array_dimensions := [4]; array_stride := 16 |}))
              (or_intror eq_refl) eq_refl eq_refl
              0%nat example_state (Element "parent" [] []) eq_refl I)
    as (s' & k & kids & H1 & _ & _ & H3 & _ & rest & _ & Hk).
  exists s', k, rest. split; [exact H1|]. rewrite Hk in H3. exact H3.
Defined.

Lemma reset_within_mask_witness :
  Z.land 7 7 = 7 ∧ 0 ≤ 7 ≤ 7.
Proof.
  apply (reset_within_mask (fields example_A) 7 7).
  - repeat constructor; simpl; lia.
  - reflexivity.
Defined.

Lemma reset_field_recovered_witness :
  Z.land (Z.shiftr 7 2) (Z.ones 1) = 1 mod 2 ^ 1 ∧
  Z.land (Z.shiftr 7 2) (Z.ones 1) = Z.ones 1.
Proof.
  apply (reset_field_recovered
           [(example_common "F1" true, example_field_info 0 2 (Some 3))] []
           (example_common "F2" true) (example_field_info 2 1 (Some 1)) 1 7 7).
  - reflexivity.
  - simpl; lia.
  - simpl; lia.
  - repeat constructor; simpl; lia.
  - reflexivity.
Defined.

Lemma hex_str_inj_witness :
  hex_str (example_exporter 2014) 10 ≠ hex_str (example_exporter 2014) 16 ∧
  fmt_d 10 ≠ fmt_d 16.
Proof. apply (hex_str_inj (example_exporter 2014) 10 16). lia. Defined.

Lemma init_attributes_witness :
  __init__ [("standard", PInt 2009); ("vendor", PStr "acme.com")] =
  inr {| vendor := PStr "acme.com"; library := PStr "mylibrary";
         version := PStr "1.0"; standard := 2009;
         xml_indent := PStr "  ";
         xml_newline := PStr (String (Ascii.ascii_of_nat 10) EmptyString);
         ns := "spirit:" |}.
Proof.
  apply (init_attributes [("standard", PInt 2009); ("vendor", PStr "acme.com")]).
  intros k. unfold init_keys. simpl. rewrite !elem_of_cons, elem_of_nil.
  intuition (subst; auto).
Defined.

Lemma export_unknown_standard_witness :
  ∃ s', export example_access_from_sw example_mwv_from_onwrite
          example_readaction_from_onread example_writable (example_exporter 2020) example_top
          "out.xml" [] example_state = Raise RuntimeError s' ∧
        files s' = [].
Proof.
  destruct (export_unknown_standard example_access_from_sw example_mwv_from_onwrite
              example_readaction_from_onread example_writable (example_exporter 2020) example_top
              "out.xml" [] example_state PNone example_top
              eq_refl eq_refl I) as (s' & H & F & _).
  - discriminate.
  - discriminate.
  - exists s'. split; [exact H | exact F].
Defined.

Lemma export_non_text_config_witness :
  ∃ s', export example_access_from_sw example_mwv_from_onwrite
          example_readaction_from_onread example_writable (example_exporter 2014) example_top
          "out.xml" [("component_name", PInt 7)] example_state
          = Raise (TypeError "node contents must be a string") s' ∧
        files s' = [].
Proof.
  apply (export_non_text_config example_access_from_sw example_mwv_from_onwrite
           example_readaction_from_onread example_writable (example_exporter 2014) example_top
           "out.xml" [("component_name", PInt 7)] example_state (PInt 7) example_top
           eq_refl eq_refl I (or_intror eq_refl) eq_refl).
Defined.

Lemma component_header_witness :
  ∃ s' rest,
    export example_access_from_sw example_mwv_from_onwrite
      example_readaction_from_onread example_writable (example_exporter 2009) example_top
      "out.xml" [("component_name", PStr "")] example_state = Ret tt s' ∧
    files s' =
      [("out.xml",
        {| written :=
             Some (XDocument
                     [XComment generator_comment;
                      XElement "spirit:component"
                        (component_attrs (example_exporter 2009))
                        (XElement "spirit:vendor" [] [XText "example.org"]
                         :: XElement "spirit:library" [] [XText "mylibrary"]
                         :: XElement "spirit:name" [] [XText "top"]
                         :: XElement "spirit:version" [] [XText "1.0"]
                         :: rest)]);
           addindent := PStr "  ";
           newl := PStr (String (Ascii.ascii_of_nat 10) EmptyString);
           encoding := "UTF-8" |})].
Proof.
  assert (∃ s', export example_access_from_sw example_mwv_from_onwrite
                  example_readaction_from_onread example_writable (example_exporter 2009)
                  example_top "out.xml" [("component_name", PStr "")]
                  example_state = Ret tt s') as [s' H].
  { eexists. vm_compute. reflexivity. }
  destruct (component_header _ _ _ _ _ _ _ _ _ _ H)
    as (cn & tn & v & l & ver & rest & Hpop & Htop & Hv & Hl & Hver & F).
  injection Hpop as <-. injection Htop as <-.
  injection Hv as <-. injection Hl as <-. injection Hver as <-.
  exists s', rest. split; [exact H | exact F].
Defined.

Lemma export_messages_witness :
  ∃ s', export example_access_from_sw example_mwv_from_onwrite
          example_readaction_from_onread example_writable (example_exporter 2009) example_top
          "out.xml" [] example_state = Ret tt s' ∧
        messages s' = [Warning (mem_msg example_mem)].
Proof.
  assert (∃ s', export example_access_from_sw example_mwv_from_onwrite
                  example_readaction_from_onread example_writable (example_exporter 2009)
                  example_top "out.xml" [] example_state = Ret tt s') as [s' H].
  { eexists. vm_compute. reflexivity. }
  destruct (export_messages _ _ _ _ _ _ _ _ _ _ H) as (tn & Htop & Ms).
  injection Htop as <-. exists s'. split; [exact H | exact Ms].
Defined.

Lemma bridge_ignored_witness :
  match export example_access_from_sw example_mwv_from_onwrite
          example_readaction_from_onread example_writable (example_exporter 2014)
          (mkNode (AddrmapNode (example_address 0 512 None) false)
             (example_common "top" true) [example_A; example_mem])
          "out.xml" [] example_state,
        export example_access_from_sw example_mwv_from_onwrite
          example_readaction_from_onread example_writable (example_exporter 2014)
          (mkNode (AddrmapNode (example_address 0 512 None) true)
             (example_common "top" true) [example_A; example_mem])
          "out.xml" [] example_state with
  | Ret _ s1, Ret _ s2 =>
      files s2 = files s1 ∧
      ∃ ms, messages s1 = [] ++ ms ∧ messages s2 = [] ++ Warning bridge_msg :: ms
  | Raise e1 s1, Raise e2 s2 => e1 = e2 ∧ files s2 = files s1
  | _, _ => False
  end.
Proof.
  apply (bridge_ignored example_access_from_sw example_mwv_from_onwrite
           example_readaction_from_onread example_writable (example_exporter 2014)
           (example_address 0 512 None) (example_common "top" true)
           [example_A; example_mem] "out.xml" [] example_state PNone
           eq_refl (or_intror eq_refl)).
Defined.

Lemma export_namespace_witness :
  ∃ s' attrs kids,
    files s' =
      [("out.xml",
        {| written :=
             Some (XDocument [XComment generator_comment;
                              XElement "spirit:component" attrs kids]);
           addindent := PStr "  ";
           newl := PStr (String (Ascii.ascii_of_nat 10) EmptyString);
           encoding := "UTF-8" |})] ∧
    "xmlns:spirit" ∈ map fst attrs ∧
    well_tagged "spirit:" kids = true.
Proof.
  assert (∃ s', export example_access_from_sw example_mwv_from_onwrite
                  example_readaction_from_onread example_writable (example_exporter 2009)
                  example_top "out.xml" [] example_state = Ret tt s') as [s' H].
  { eexists. vm_compute. reflexivity. }
  destruct (export_namespace example_access_from_sw example_mwv_from_onwrite
              example_readaction_from_onread example_writable (example_exporter 2009)
              [("standard", PInt 2009)] example_top "out.xml" [] example_state s'
              eq_refl H)
    as (pfx & attrs & kids & [[-> Hs]|[-> Hs]] & F & Ha & Hk & _).
  - discriminate Hs.
  - exists s', attrs, kids. split; [exact F|]. split; [exact Ha | exact Hk].
Defined.

Lemma field_children_order_witness :
  ∃ s' k kids,
    add_field example_access_from_sw example_mwv_from_onwrite
      example_readaction_from_onread (example_exporter 2014) 0
      (example_common "STATE" false) example_field_enum example_state = Ret tt s' ∧
    repr (doc s') 1 k (XElement "ipxact:field" [] kids) ∧
    ∃ names, names `sublist_of` field_order ∧ named "ipxact:" names kids.
Proof.
  assert (∃ s', add_field example_access_from_sw example_mwv_from_onwrite
                  example_readaction_from_onread (example_exporter 2014) 0
                  (example_common "STATE" false) example_field_enum
                  example_state = Ret tt s') as [s' H].
  { eexists. vm_compute. reflexivity. }
  destruct (field_children_order example_access_from_sw example_mwv_from_onwrite
              example_readaction_from_onread (example_exporter 2014)
              (example_common "STATE" false) example_field_enum
              0%nat example_state (Element "parent" [] []) s' eq_refl I H)
    as (k & kids & names & _ & H3 & S & N & _).
  exists s', k, kids. split; [exact H|]. split; [exact H3|].
  exists names. split; [exact S | exact N].
Defined.

Lemma field_enumerated_values_witness :
  ∃ s' k kids,
    add_field example_access_from_sw example_mwv_from_onwrite
      example_readaction_from_onread (example_exporter 2009) 0
      (example_common "STATE" true) example_field_enum example_state = Ret tt s' ∧
    repr (doc s') 1 k (XElement "spirit:field" [] kids) ∧
    List.filter (has_tag "spirit:enumeratedValues") kids =
      [XElement "spirit:enumeratedValues" []
         [XElement "spirit:enumeratedValue" []
            [XElement "spirit:name" [] [XText "IDLE"];
             XElement "spirit:description" [] [XText "idle"];
             XElement "spirit:value" [] [XText "0x0"]];
          XElement "spirit:enumeratedValue" []
            [XElement "spirit:name" [] [XText "BUSY"];
             XElement "spirit:displayName" [] [XText "Busy"];
             XElement "spirit:value" [] [XText "0x1"]]]].
Proof.
  destruct (field_enumerated_values example_access_from_sw example_mwv_from_onwrite
              example_readaction_from_onread (example_exporter 2009)
              (example_common "STATE" true) example_field_enum
              0%nat example_state (Element "parent" [] []) eq_refl I)
    as (s' & k & kids & H1 & _ & _ & H3 & _ & H5).
  exists s', k, kids. split; [exact H1|]. split; [exact H3 | exact H5].
Defined.

Lemma child_order_general_witness :
  render_order (example_exporter 2009) example_mixed
    = [example_A; example_C; example_B; example_group] ∧
  ∃ s' ks ts,
    add_registerData example_access_from_sw example_mwv_from_onwrite
      example_readaction_from_onread (example_exporter 2009) 0 example_mixed
      example_state = Ret tt s' ∧
    doc s' !! 0%nat = Some (Element "parent" [] ks) ∧
    Forall2 (repr (doc s') 1) ks ts ∧
    Forall2 (rendered_as (example_exporter 2009))
      [example_A; example_C; example_B; example_group] ts.
Proof.
  split; [reflexivity|].
  destruct (child_order_general example_access_from_sw example_mwv_from_onwrite
              example_readaction_from_onread (example_exporter 2009) 0
              example_mixed example_state (Element "parent" [] [])
              (or_introl eq_refl) eq_refl eq_refl I)
    as (s' & ks & ts & H1 & H2 & H3 & H4).
  exists s', ks, ts. split; [exact H1|]. split; [exact H2|].
  split; [exact H3 | exact H4].
Defined.

Lemma address_block_shape_witness :
  ∃ s' k rest,
    add_addressBlock example_access_from_sw example_mwv_from_onwrite
      example_readaction_from_onread (example_exporter 2009) 0 example_mem
      example_state = Ret tt s' ∧
    repr (doc s') 1 k
      (XElement "spirit:addressBlock" []
         ([XElement "spirit:name" [] [XText "M"];
           XElement "spirit:baseAddress" [] [XText "0x100"];
           XElement "spirit:range" [] [XText "0x40"];
           XElement "spirit:width" [] [XText "16"];
           XElement "spirit:usage" [] [XText "memory"];
           XElement "spirit:access" [] [XText "read-write"]] ++ rest)).
Proof.
  destruct (address_block_shape example_access_from_sw example_mwv_from_onwrite
              example_readaction_from_onread (example_exporter 2009)
              example_mem (example_address 256 64 None)
              (or_introl eq_refl) eq_refl eq_refl
              0%nat example_state (Element "parent" [] []) eq_refl I)
    as (s' & k & kids & H1 & _ & _ & H3 & _ & rest & _ & Hk).
  exists s', k, rest. split; [exact H1|]. rewrite Hk in H3. exact H3.
Defined.

Lemma register_shape_witness :
  ∃ s' k reset field_elements,
    add_register example_access_from_sw example_mwv_from_onwrite
      example_readaction_from_onread (example_exporter 2014) 0 example_A
      example_state = Ret tt s' ∧
    repr (doc s') 1 k
      (XElement "ipxact:register" []
         ([XElement "ipxact:name" [] [XText "A"];
           XElement "ipxact:addressOffset" [] [XText "'h0"];
           XElement "ipxact:size" [] [XText "32"]]
          ++ reset ++ field_elements)) ∧
    (length reset ≤ 1)%nat ∧ length field_elements = 2%nat.
Proof.
  destruct (register_shape example_access_from_sw example_mwv_from_onwrite
              example_readaction_from_onread (example_exporter 2014)
              example_A (example_address 0 4 None) 32 eq_refl eq_refl
              0%nat example_state (Element "parent" [] []) eq_refl I)
    as (s' & k & kids & H1 & _ & _ & H3 & _ & reset & fs & Hk & _ & Hl & Hf).
  exists s', k, reset, fs. split; [exact H1|]. rewrite Hk in H3.
  split; [exact H3|]. split; [exact Hl|].
  symmetry. exact (Forall2_length _ _ _ Hf).
Defined.

Lemma max_width_covers_registers_witness :
  ∃ s' w,
    add_addressBlock example_access_from_sw example_mwv_from_onwrite
      example_readaction_from_onread (example_exporter 2014) 0 example_top
      example_state = Ret tt s' ∧
    _max_width s' = Some w ∧ regwidth_of example_C ≤ w.
Proof.
  assert (∃ s', add_addressBlock example_access_from_sw example_mwv_from_onwrite
                  example_readaction_from_onread (example_exporter 2014) 0
                  example_top example_state = Ret tt s') as [s' H].
  { eexists. vm_compute. reflexivity. }
  destruct (max_width_covers_registers example_access_from_sw
              example_mwv_from_onwrite example_readaction_from_onread
              (example_exporter 2014) 0 example_top example_state
              (Element "parent" [] []) s' example_C eq_refl I H)
    as (w & reg' & Hw & Hle & _).
  - simpl. rewrite !elem_of_cons. auto.
  - exists s', w. split; [exact H|]. split; [exact Hw | exact Hle].
Defined.

Lemma register_reset_presence_witness :
  ∃ s' k kids,
    add_register example_access_from_sw example_mwv_from_onwrite
      example_readaction_from_onread (example_exporter 2009) 0 example_C
      example_state = Ret tt s' ∧
    repr (doc s') 1 k (XElement "spirit:register" [] kids) ∧
    List.filter (has_tag "spirit:reset") kids = [].
Proof.
  assert (Forall (λ f : Common * FieldInfo, 0 ≤ width (snd f) ∧ 0 ≤ lsb (snd f))
            (fields example_C)) as Hwf.
  { repeat constructor; simpl; lia. }
  destruct (register_reset_presence example_access_from_sw example_mwv_from_onwrite
              example_readaction_from_onread (example_exporter 2009)
              example_C (example_address 8 2 None) 16 eq_refl eq_refl eq_refl Hwf
              0%nat example_state (Element "parent" [] []) eq_refl I)
    as (s' & k & kids & H1 & _ & _ & H3 & _ & H5).
  exists s', k, kids. split; [exact H1|]. split; [exact H3|].
  apply H5. repeat constructor.
Defined.

Lemma export_root_is_top_witness :
  export example_access_from_sw example_mwv_from_onwrite
    example_readaction_from_onread example_writable (example_exporter 2014) example_root
    "out.xml" [] example_state
  = export example_access_from_sw example_mwv_from_onwrite
      example_readaction_from_onread example_writable (example_exporter 2014) example_top
      "out.xml" [] example_state.
Proof.
  apply (export_root_is_top example_access_from_sw example_mwv_from_onwrite
           example_readaction_from_onread example_writable (example_exporter 2014)
           example_root example_top "out.xml" [] example_state I eq_refl).
Defined.

Lemma add_value_non_text_witness :
  ∃ s', add_value 0 "ipxact:vendor" (PInt 42) example_state
          = Raise (TypeError "node contents must be a string") s' ∧
        doc s' !! 0%nat = Some (Element "parent" [] []).
Proof.
  destruct (add_value_non_text 0 "ipxact:vendor" (PInt 42) example_state eq_refl)
    as (s' & H & Hd & _).
  exists s'. split; [exact H|]. apply (Hd 0%nat). simpl. lia.
Defined.

Lemma stride_fatal_reported_witness :
  ∃ s', add_register example_access_from_sw example_mwv_from_onwrite
          example_readaction_from_onread (example_exporter 2014) 0
          example_array_bad example_state
          = Raise (RDLCompileError stride_msg) s' ∧
        messages s' = [Fatal stride_msg].
Proof.
  destruct (stride_fatal_reported example_access_from_sw example_mwv_from_onwrite
              example_readaction_from_onread (example_exporter 2014) 0
              example_array_bad example_state (Element "parent" [] [])
              (example_address 64 4
                 (Some {| array_dimensions := [4]; array_stride := 8 |}))
              32 {| array_dimensions := [4]; array_stride := 8 |}
              eq_refl eq_refl)
    as (s' & H & M & _).
  - simpl. lia.
  - reflexivity.
  - exact I.
  - exists s'. split; [exact H | exact M].
Defined.
